(** * Schema definition resolution: a shallow embedding

    The development follows the two analysers of the repository:

    - [src/tt/xmlschema.py], class [Analysis] (module [TT] below), the
      variant with diagnostics and an override schema;
    - [src/xml-schema/analysis.py], class [SchemaAnalysis] (module [XS]),
      the single-schema variant.

    Both share the node model, the definition records and the extractor
    [findDefs]; they differ in the inference step, in the report and in the
    override merge, which only [Analysis] has. *)

From Stdlib Require Import String Ascii List Bool Arith ZArith Lia Permutation Sorted.
From Stdlib Require Import DecimalString.
Import ListNotations.
Local Open Scope string_scope.

(** ** Python values *)

(** Truth value of a [str | None] used as a condition: [None] and the empty
    string are false. *)
Definition str_truthy (o : option string) : bool :=
  match o with
  | Some s => negb (s =? "")
  | None => false
  end.

(** Truth value of a [bool | None] used as a condition. *)
Definition bool_truthy (o : option bool) : bool :=
  match o with
  | Some true => true
  | _ => false
  end.

(** [node.get(a) == "true"]. *)
Definition attr_true (o : option string) : bool :=
  match o with
  | Some v => v =? "true"
  | None => false
  end.

(** The exceptions the analysers can raise on a parsed schema. *)
Inductive exn : Type :=
| KeyError (key : string)
| AttributeError (attr : string).

(** Outcome of code that may raise. *)
Inductive result (A : Type) : Type :=
| Ok (a : A)
| Raise (e : exn).
Arguments Ok {A} a.
Arguments Raise {A} e.

Definition bind {A B : Type} (r : result A) (k : A -> result B) : result B :=
  match r with
  | Ok a => k a
  | Raise e => Raise e
  end.

Notation "'let*' x ':=' r 'in' k" := (bind r (fun x => k))
  (at level 10, x pattern, r at level 200, k at level 200).

(** ** Node model

    The view of an [lxml] element the analysers use: local tag name,
    attributes, element children in document order. *)
Unset Elimination Schemes.
Inductive node : Type :=
| Node (ntag : string) (attrs : list (string * string)) (children : list node).
Set Elimination Schemes.

Fixpoint attr_get (a : string) (attrs : list (string * string)) : option string :=
  match attrs with
  | [] => None
  | (k, v) :: rest => if k =? a then Some v else attr_get a rest
  end.

Definition node_tag (n : node) : string := let 'Node t _ _ := n in t.
Definition node_get (n : node) (a : string) : option string :=
  let 'Node _ attrs _ := n in attr_get a attrs.

(** ** Definition records and tables *)

Inductive Kind : Type := simple | complex.

(** One value of the [definitions] dict.  [tag], [abstract], [mixed] and
    [subs] are keys every record is built with; [kind] and [base] are keys
    added later, [None] standing for an absent key.  [mixed = None] and
    [subs = None] stand for the Python value [None] under the key. *)
Record DefinitionRecord : Type := mkDef {
  tag : string;
  abstract : bool;
  mixed : option bool;
  subs : option string;
  kind : option Kind;
  base : option string
}.

Definition set_kind (k : Kind) (r : DefinitionRecord) : DefinitionRecord :=
  mkDef (tag r) (abstract r) (mixed r) (subs r) (Some k) (base r).
Definition set_mixed (m : option bool) (r : DefinitionRecord) : DefinitionRecord :=
  mkDef (tag r) (abstract r) m (subs r) (kind r) (base r).
Definition set_base (b : string) (r : DefinitionRecord) : DefinitionRecord :=
  mkDef (tag r) (abstract r) (mixed r) (subs r) (kind r) (Some b).

(** A dict from names to records, in insertion order. *)
Definition table : Type := list (string * DefinitionRecord).

Fixpoint lookup (name : string) (d : table) : option DefinitionRecord :=
  match d with
  | [] => None
  | (k, r) :: rest => if k =? name then Some r else lookup name rest
  end.

Definition mem (name : string) (d : table) : bool :=
  match lookup name d with Some _ => true | None => false end.

(** In-place change of the record stored under [name]; the position of the
    key is kept. *)
Fixpoint update (name : string) (f : DefinitionRecord -> DefinitionRecord)
  (d : table) : table :=
  match d with
  | [] => []
  | (k, r) :: rest =>
      if k =? name then (k, f r) :: rest else (k, r) :: update name f rest
  end.

(** [definitions[name][field] = v]: raises when [name] is not a key. *)
Definition setitem (name : string) (f : DefinitionRecord -> DefinitionRecord)
  (d : table) : result table :=
  if mem name d then Ok (update name f d) else Raise (KeyError name).

Definition keys (d : table) : list string := map fst d.

(** [collections.Counter] of redefinitions. *)
Definition counter : Type := list (string * nat).

Fixpoint count (name : string) (c : counter) : nat :=
  match c with
  | [] => 0
  | (k, n) :: rest => if k =? name then n else count name rest
  end.

Fixpoint incr (name : string) (c : counter) : counter :=
  match c with
  | [] => [(name, 1)]
  | (k, n) :: rest =>
      if k =? name then (k, S n) :: rest else (k, n) :: incr name rest
  end.

(** ** Definition extractor ([findDefs], identical in both analysers) *)

Definition types (t : string) : bool :=
  (t =? "simpleType") || (t =? "complexType").

Definition notInteresting (t : string) : bool :=
  (t =? "attribute") || (t =? "attributeGroup") || (t =? "group").

(** The part of [findDefs] under [if definingName:], which writes facts of
    the current node onto the enclosing definition. *)
Definition enclosing (n : node) (definingName : option string) (topDef : bool)
  (d : table) : result table :=
  match definingName with
  | Some dn =>
      if negb (dn =? "") then
        if topDef then
          if types (node_tag n) then
            let* d1 := setitem dn
              (set_kind (if node_tag n =? "simpleType" then simple else complex)) d in
            if attr_true (node_get n "mixed")
            then setitem dn (set_mixed (Some true)) d1
            else Ok d1
          else Ok d
        else
          if node_tag n =? "extension" then
            match node_get n "base" with
            | Some b => if negb (b =? "") then setitem dn (set_base b) d else Ok d
            | None => Ok d
            end
          else Ok d
      else Ok d
  | None => Ok d
  end.

(** The part of [findDefs] under [if name and tag not in notInteresting:]. *)
Definition register (n : node) (st : table * counter) : table * counter :=
  let '(d, c) := st in
  match node_get n "name" with
  | Some name =>
      if negb (name =? "") && negb (notInteresting (node_tag n)) then
        if mem name d then (d, incr name c)
        else
          ((d ++ [(name, mkDef (node_tag n)
                          (attr_true (node_get n "abstract"))
                          (Some (attr_true (node_get n "mixed")))
                          (node_get n "substitutionGroup")
                          None None)])%list, c)
      else (d, c)
  | None => (d, c)
  end.

(** The context [(defining, top)] the children are visited with. *)
Definition child_context (n : node) (definingName : option string)
  : option string * bool :=
  if str_truthy definingName then (definingName, false)
  else if str_truthy (node_get n "name") && (node_tag n =? "element")
       then (node_get n "name", true)
       else (None, false).

(** What [findDefs] does at a node before it descends. *)
Definition visit (n : node) (definingName : option string) (topDef : bool)
  (st : table * counter) : result (table * counter) :=
  let* d1 := enclosing n definingName topDef (fst st) in
  Ok (register n (d1, snd st)).

Fixpoint findDefs (n : node) (definingName : option string) (topDef : bool)
  (st : table * counter) {struct n} : result (table * counter) :=
  let* st1 := visit n definingName topDef st in
  let '(defining, top) := child_context n definingName in
  match n with
  | Node _ _ children =>
      fold_left (fun acc child => let* s := acc in findDefs child defining top s)
        children (Ok st1)
  end.

(** [findDefs(root, False, False)] on fresh [definitions] and
    [redefinitions]. *)
Definition extract (root : node) : result (table * counter) :=
  findDefs root None false ([], []).

(** ** Resolution engine: what both analysers share *)

(** [other.split(":", 1)[-1]]: what follows the first colon, the whole
    string when there is none. *)
Fixpoint after_colon (s : string) : option string :=
  match s with
  | EmptyString => None
  | String c rest => if Ascii.eqb c ":" then Some rest else after_colon rest
  end.

Definition bare (other : string) : string :=
  match after_colon other with
  | Some rest => rest
  | None => other
  end.

(** [info.get("base", info.get("subs", None))]. *)
Definition other_of (info : DefinitionRecord) : option string :=
  match base info with
  | Some b => Some b
  | None => subs info
  end.

(** Console output of the resolution, one constructor per [print]:
    [Warning: {other} is not defined.], [Warning: {other}.kind is not
    defined.], [Warning: {other}.mixed is not defined.] and
    [round {i}: {changed} changes]. *)
Inductive diag : Type :=
| WarnUndefined (other : string)
| WarnKind (other : string)
| WarnMixed (other : string)
| Round (i changed : nat).

(** ** Report: what both analysers share *)

Definition tab : string := String (ascii_of_nat 9) EmptyString.
Definition newline : string := String (ascii_of_nat 10) EmptyString.

(** The string stored under ["kind"]. *)
Definition kind_name (k : Kind) : string :=
  match k with
  | simple => "simple"
  | complex => "complex"
  end.

(** [eKey]: the sort key of an item of the table. *)
Definition eKey (x : string * DefinitionRecord) : string * string * string :=
  (if tag (snd x) =? "simpleType" then "0"
   else if tag (snd x) =? "complexType" then "1"
   else tag (snd x),
   if abstract (snd x) then "" else "x",
   fst x).

(** [<=] on triples of strings, as Python compares tuples. *)
Definition key_leb (a b : string * string * string) : bool :=
  let '(a1, a2, a3) := a in
  let '(b1, b2, b3) := b in
  match String.compare a1 b1 with
  | Lt => true
  | Gt => false
  | Eq =>
      match String.compare a2 b2 with
      | Lt => true
      | Gt => false
      | Eq => String.leb a3 b3
      end
  end.

Fixpoint insert (x : string * DefinitionRecord) (l : table) : table :=
  match l with
  | [] => [x]
  | y :: rest =>
      if key_leb (eKey x) (eKey y) then x :: l else y :: insert x rest
  end.

(** [sorted(d.items(), key=eKey)], as a stable insertion sort. *)
Definition sorted (d : table) : table := fold_right insert [] d.

(** [info["tag"] == "element" and not info["abstract"]]. *)
Definition selected (x : string * DefinitionRecord) : bool :=
  (tag (snd x) =? "element") && negb (abstract (snd x)).

(** The tuple [defs] of [interpret]. *)
Definition report_defs (d : table) : list (string * option Kind * option bool) :=
  map (fun x => (fst x, kind (snd x), mixed (snd x))) (filter selected (sorted d)).

(** What [interpret] returns: the tuple, or the text when [asTsv]. *)
Inductive report : Type :=
| AsList (defs : list (string * option Kind * option bool))
| AsTsv (text : string).

(** ** [src/tt/xmlschema.py]: class [Analysis] *)
Module TT.

(** State of one scan: the table, [changed], and what was printed. *)
Definition scan : Type := table * nat * list diag.

(** The three updates of [infer] on the record under [name], with [other]
    the reference as written and [otherBare] its key.  [info] and
    [otherInfo] are references into the table (the same object when a record
    refers to itself), so each update reads both from the current table. *)

(** [if otherInfo["mixed"]: info["mixed"] = True; changed += 1] *)
Definition raise_mixed (name otherBare : string) (st : scan) : scan :=
  let '(d, changed, out) := st in
  match lookup otherBare d with
  | Some otherInfo =>
      if bool_truthy (mixed otherInfo)
      then (update name (set_mixed (Some true)) d, S changed, out)
      else st
  | None => st
  end.

(** [if info.get("kind", None) is None: ...] *)
Definition copy_kind (name other otherBare : string) (st : scan) : scan :=
  let '(d, changed, out) := st in
  match lookup name d, lookup otherBare d with
  | Some info, Some otherInfo =>
      match kind info with
      | None =>
          match kind otherInfo with
          | Some k => (update name (set_kind k) d, S changed, out)
          | None => (d, changed, (out ++ [WarnKind other])%list)
          end
      | Some _ => st
      end
  | _, _ => st
  end.

(** [if info.get("mixed", None) is None: ...] *)
Definition copy_mixed (name other otherBare : string) (st : scan) : scan :=
  let '(d, changed, out) := st in
  match lookup name d, lookup otherBare d with
  | Some info, Some otherInfo =>
      match mixed info with
      | None =>
          if bool_truthy (mixed otherInfo)
          then (update name (set_mixed (mixed otherInfo)) d, S changed, out)
          else (d, changed, (out ++ [WarnMixed other])%list)
      | Some _ => st
      end
  | _, _ => st
  end.

(** Body of the [for] loop of [infer] for the record under [name].  The
    names come from the keys of the table and no key is added or removed
    during a scan, so the first [None] branch is never taken. *)
Definition infer_step (name : string) (st : scan) : scan :=
  let '(d, changed, out) := st in
  match lookup name d with
  | None => st
  | Some info =>
      if bool_truthy (mixed info) then st
      else
        match other_of info with
        | Some other =>
            if negb (other =? "") then
              let otherBare := bare other in
              match lookup otherBare d with
              | None => (d, changed, (out ++ [WarnUndefined other])%list)
              | Some _ =>
                  copy_mixed name other otherBare
                    (copy_kind name other otherBare
                       (raise_mixed name otherBare st))
              end
            else st
        | None => st
        end
  end.

Definition infer_from (names : list string) (st : scan) : scan :=
  fold_left (fun acc name => infer_step name acc) names st.

(** One call of [infer()]: a scan of all records in table order. *)
Definition infer (d : table) : scan := infer_from (keys d) (d, 0, []).

(** The [while True] loop of [resolve], entered with round counter [i]:
    the final table, the final [i] and the output.  [None] when [fuel]
    scans were not enough. *)
Fixpoint resolve_loop (fuel : nat) (d : table) (i : nat)
  : option (table * nat * list diag) :=
  match fuel with
  | 0 => None
  | S fuel' =>
      let '(d1, changed, out) := infer d in
      if (changed =? 0)%nat then Some (d1, S i, out)
      else
        match resolve_loop fuel' d1 (S i) with
        | Some (d2, j, rest) =>
            Some (d2, j, (out ++ Round (S i) changed :: rest)%list)
        | None => None
        end
  end.

(** [resolve(definitions)].  [2 * len(definitions) + 1] scans always
    suffice ([tt_resolve_spec] below), so the default is never
    returned. *)
Definition resolve (d : table) : table * nat * list diag :=
  match resolve_loop (S (2 * length d)) d 0 with
  | Some r => r
  | None => (d, 0, [])
  end.

(** *** Report and override merge *)

Definition repMixed (m : option bool) : string :=
  match m with
  | None => "-----"
  | Some true => "mixed"
  | Some false => "pure"
  end.

Definition repKind (k : option Kind) : string :=
  match k with
  | None => "-----"
  | Some k' => kind_name k'
  end.

(** One line of the TSV text. *)
Definition tsv_line (x : string * option Kind * option bool) : string :=
  let '(name, k, m) := x in
  name ++ tab ++ repKind k ++ tab ++ repMixed m.

Definition tsv (defs : list (string * option Kind * option bool)) : string :=
  String.concat newline (map tsv_line defs).

(** The conditional expression bound to [transRep]. *)
Definition transRep (baseDef odef : DefinitionRecord) : option string :=
  let baseKind := repKind (kind baseDef) in
  let baseMixed := repMixed (mixed baseDef) in
  let oKind := repKind (kind odef) in
  let oMixed := repMixed (mixed odef) in
  if negb (baseKind =? oKind) && negb (baseMixed =? oMixed)
  then Some (baseKind ++ " " ++ baseMixed ++ " ==> " ++ oKind ++ " " ++ oMixed)
  else if negb (baseKind =? oKind) then Some (baseKind ++ " ==> " ++ oKind)
  else if negb (baseMixed =? oMixed) then Some (baseMixed ++ " ==> " ++ oMixed)
  else None.

(** [self.overrides]: from names to a transition or [None]. *)
Definition overrides : Type := list (string * option string).

Fixpoint get_override (name : string) (ov : overrides) : option (option string) :=
  match ov with
  | [] => None
  | (k, t) :: rest => if k =? name then Some t else get_override name rest
  end.

(** [self.overrides[name] = t]. *)
Fixpoint set_override (name : string) (t : option string) (ov : overrides)
  : overrides :=
  match ov with
  | [] => [(name, t)]
  | (k, t0) :: rest =>
      if k =? name then (k, t) :: rest else (k, t0) :: set_override name t rest
  end.

(** Body of the merge loop for one item [(name, odef)] of the override
    table [definitions]; [baseDefinitions[name]] raises on a name that is
    not a key of the base table. *)
Definition merge_step (definitions : table) (item : string * DefinitionRecord)
  (st : table * overrides) : result (table * overrides) :=
  let '(name, odef) := item in
  let '(baseDefinitions, ov) := st in
  if mem name definitions then
    match lookup name baseDefinitions with
    | None => Raise (KeyError name)
    | Some baseDef =>
        let t := transRep baseDef odef in
        Ok (match t with
            | Some _ => update name (fun _ => odef) baseDefinitions
            | None => baseDefinitions
            end,
            set_override name t ov)
    end
  else Ok st.

(** [for (name, odef) in definitions.items(): ...] *)
Definition merge (definitions baseDefinitions : table)
  : result (table * overrides) :=
  fold_left (fun acc item => let* st := acc in merge_step definitions item st)
    definitions (Ok (baseDefinitions, [])).

(** The attributes [__init__] sets. *)
Record Analysis : Type := mkAnalysis {
  good : bool;
  root : option node;
  oroot : option node
}.

(** [Analysis(baseSchema, override)].  [fs path] is the tree that
    [open(path)] and [etree.parse] give, [None] when either raises. *)
Definition init (fs : string -> option node) (baseSchema : string)
  (override : option string) : Analysis :=
  match fs baseSchema with
  | None => mkAnalysis false None None
  | Some tree =>
      match override with
      | None => mkAnalysis true (Some tree) None
      | Some _ =>
          match fs baseSchema with
          | None => mkAnalysis false (Some tree) None
          | Some otree => mkAnalysis true (Some tree) (Some otree)
          end
      end
  end.

(** [interpret(asTsv)] with [debug] off: the value returned and
    [self.overrides]. *)
Definition interpret (A : Analysis) (asTsv : bool) : result (report * overrides) :=
  match root A with
  | None => Raise (AttributeError "root")
  | Some r =>
      let* ext := extract r in
      let baseDefinitions := fst (fst (resolve (fst ext))) in
      let* merged :=
        match oroot A with
        | None => Ok (baseDefinitions, [])
        | Some o =>
            let* oext := extract o in
            merge (fst (fst (resolve (fst oext)))) baseDefinitions
        end in
      let defs := report_defs (fst merged) in
      Ok (if asTsv then AsTsv (tsv defs) else AsList defs, snd merged)
  end.

End TT.

(** ** [src/xml-schema/analysis.py]: class [SchemaAnalysis] *)
Module XS.

(** [if otherInfo["mixed"]: info["mixed"] = True; changed += 1] *)
Definition raise_mixed (name other : string) (st : table * nat) : table * nat :=
  let '(d, changed) := st in
  match lookup other d with
  | Some otherInfo =>
      if bool_truthy (mixed otherInfo)
      then (update name (set_mixed (Some true)) d, S changed)
      else st
  | None => st
  end.

(** [if info.get("kind", None) is None and otherInfo.get("kind", None): ...] *)
Definition copy_kind (name other : string) (st : table * nat) : table * nat :=
  let '(d, changed) := st in
  match lookup name d, lookup other d with
  | Some info, Some otherInfo =>
      match kind info, kind otherInfo with
      | None, Some k => (update name (set_kind k) d, S changed)
      | _, _ => st
      end
  | _, _ => st
  end.

(** Body of the [for] loop of [infer]; [definitions[other]] raises on a
    name that is not a key. *)
Definition infer_step (name : string) (st : table * nat) : result (table * nat) :=
  let '(d, changed) := st in
  match lookup name d with
  | None => Ok st
  | Some info =>
      if bool_truthy (mixed info) then Ok st
      else
        match other_of info with
        | Some other0 =>
            if negb (other0 =? "") then
              let other := bare other0 in
              match lookup other d with
              | None => Raise (KeyError other)
              | Some _ => Ok (copy_kind name other (raise_mixed name other st))
              end
            else Ok st
        | None => Ok st
        end
  end.

Definition infer_from (names : list string) (st : table * nat)
  : result (table * nat) :=
  fold_left (fun acc name => let* s := acc in infer_step name s) names (Ok st).

Definition infer (d : table) : result (table * nat) :=
  infer_from (keys d) (d, 0).

(** The [while True] loop of [resolve]: [None] when [fuel] scans were not
    enough, otherwise the exception raised or the final table, the final
    [i] and the [round] lines printed. *)
Fixpoint resolve_loop (fuel : nat) (d : table) (i : nat)
  : option (result (table * nat * list diag)) :=
  match fuel with
  | 0 => None
  | S fuel' =>
      match infer d with
      | Raise e => Some (Raise e)
      | Ok (d1, changed) =>
          if (changed =? 0)%nat then Some (Ok (d1, S i, []))
          else
            match resolve_loop fuel' d1 (S i) with
            | Some (Ok (d2, j, rest)) => Some (Ok (d2, j, Round (S i) changed :: rest))
            | other => other
            end
      end
  end.

(** [resolve()]; the default is never returned
    ([xs_resolve_spec] below). *)
Definition resolve (d : table) : result (table * nat * list diag) :=
  match resolve_loop (S (2 * length d)) d 0 with
  | Some r => r
  | None => Ok (d, 0, [])
  end.

(** *** Report *)

(** One line of the TSV text:
    [{name}\t{kind or "---"}\t{"mixed" if mixed else "pure"}]. *)
Definition tsv_line (x : string * option Kind * option bool) : string :=
  let '(name, k, m) := x in
  name ++ tab
  ++ match k with Some k' => kind_name k' | None => "---" end
  ++ tab ++ (if bool_truthy m then "mixed" else "pure").

Definition tsv (defs : list (string * option Kind * option bool)) : string :=
  String.concat newline (map tsv_line defs).

(** [SchemaAnalysis(schemaPath).interpret(asTsv)] on the parsed tree
    [root], with [debug] off. *)
Definition interpret (root : node) (asTsv : bool) : result report :=
  let* ext := extract root in
  let* res := resolve (fst ext) in
  let defs := report_defs (fst (fst res)) in
  Ok (if asTsv then AsTsv (tsv defs) else AsList defs).

End XS.

(** * Vocabulary of the statements *)

(** The loop over the children in [findDefs]. *)
Definition visit_children (defining : option string) (top : bool)
  (cs : list node) (acc : result (table * counter)) : result (table * counter) :=
  fold_left (fun acc child => let* s := acc in findDefs child defining top s) cs acc.

(** The enclosing definition, when there is one, is a key of the table. *)
Definition ctx_ok (definingName : option string) (d : table) : Prop :=
  forall s, definingName = Some s -> s <> "" -> mem s d = true.

(** No record holds [None] under ["mixed"]. *)
Definition mixed_defined (d : table) : Prop :=
  Forall (fun x => mixed (snd x) <> None) d.

(** What a record may gain during resolution: a ["mixed"] that is true
    stays true, a ["kind"] that is set stays as it is. *)
Definition rec_grows (r r' : DefinitionRecord) : Prop :=
  (mixed r = Some true -> mixed r' = Some true)
  /\ (forall k, kind r = Some k -> kind r' = Some k).

Definition table_grows (d d' : table) : Prop :=
  forall name r, lookup name d = Some r ->
    exists r', lookup name d' = Some r' /\ rec_grows r r'.

(** The field changes a record can still undergo: one on ["mixed"] while it
    is not true, one on ["kind"] while it is not set. *)
Definition pot (r : DefinitionRecord) : nat :=
  (if bool_truthy (mixed r) then 0 else 1)
  + match kind r with Some _ => 0 | None => 1 end.

Definition pot_table (d : table) : nat :=
  list_sum (map (fun x => pot (snd x)) d).

(** The field writes of the resolution, as a step relation: [change d l d']
    when [d'] comes from [d] by one counted write for each name of [l], in
    that order.  A write sets ["mixed"] to true on a record where it is not,
    or sets ["kind"] on a record that has none. *)
Inductive change : table -> list string -> table -> Prop :=
| change_none d : change d [] d
| change_mixed d name info :
    lookup name d = Some info -> bool_truthy (mixed info) = false ->
    change d [name] (update name (set_mixed (Some true)) d)
| change_kind d name info k :
    lookup name d = Some info -> kind info = None ->
    change d [name] (update name (set_kind k) d)
| change_trans d1 l1 d2 l2 d3 :
    change d1 l1 d2 -> change d2 l2 d3 -> change d1 (l1 ++ l2)%list d3.

(** The change counts of the [round] lines of an output. *)
Definition round_changes (out : list diag) : list nat :=
  flat_map (fun e => match e with Round _ c => [c] | _ => [] end) out.

(** The record under [name] refers, through the reference [other] that
    [infer] consults, to a name that is not a key. *)
Definition dangling (d : table) (name other : string) (info : DefinitionRecord)
  : Prop :=
  lookup name d = Some info /\ other_of info = Some other
  /\ other <> "" /\ lookup (bare other) d = None.

(** What a stretch of a scan of [Analysis.resolve] does: counted writes on
    names of [allowed], as many as [changed] grows by, and warnings. *)
Definition tt_run (allowed : list string) (st st' : TT.scan) : Prop :=
  exists l w,
    change (fst (fst st)) l (fst (fst st'))
    /\ snd (fst st') = snd (fst st) + length l
    /\ incl l allowed
    /\ snd st' = (snd st ++ w)%list
    /\ round_changes w = [].

(** What a run of the [while True] loop of [resolve] that was entered on
    table [d] with round counter [i] and left with [d'], [j] and output
    [out] has done: the writes it counted in its [round] lines, each line
    with at least one change, and one scan more than it printed lines. *)
Definition run_facts (d : table) (i : nat) (d' : table) (j : nat)
  (out : list diag) : Prop :=
  (exists l, change d l d' /\ length l = list_sum (round_changes out))
  /\ j = S (i + length (round_changes out))
  /\ Forall (fun c => 0 < c) (round_changes out).

(** No record has a true ["mixed"] or a ["kind"]. *)
Definition blank (d : table) : Prop :=
  Forall (fun x => bool_truthy (mixed (snd x)) = false /\ kind (snd x) = None) d.

(** What a stretch of a scan of [SchemaAnalysis.resolve] that did not raise
    has done. *)
Definition xs_run (allowed : list string) (st st' : table * nat) : Prop :=
  exists l,
    change (fst st) l (fst st')
    /\ snd st' = snd st + length l
    /\ incl l allowed.

(** The table after [n] calls of [infer()] of [Analysis.resolve]. *)
Fixpoint tt_rounds (n : nat) (d : table) : table :=
  match n with
  | 0 => d
  | S n' => tt_rounds n' (fst (fst (TT.infer d)))
  end.

(** A chain of references: [r] is in the substitution group of [q], which
    extends [p], the only record with facts of its own. *)
Definition chain_table : table :=
  [("r", mkDef "element" false (Some false) (Some "tei:q") None None);
   ("q", mkDef "element" false (Some false) None None (Some "p"));
   ("p", mkDef "element" false (Some true) None (Some complex) None)].

(** Two records that refer to each other and have no facts of their own. *)
Definition cycle_table : table :=
  [("a", mkDef "element" false (Some false) (Some "b") None None);
   ("b", mkDef "element" false (Some false) (Some "a") None None)].

(** Scenario E of the specification: an element in the substitution group
    of a name that is declared nowhere. *)
Definition scenarioE : node :=
  Node "schema" []
    [Node "element" [("name", "s"); ("substitutionGroup", "missing")] []].


(** Scenario A of the specification: an element whose immediate child is a
    complex type that declares mixed content. *)
Definition scenarioA : node :=
  Node "schema" []
    [Node "element" [("name", "p")] [Node "complexType" [("mixed", "true")] []]].

(** [n] is a node that [findDefs] registers under [name]. *)
Definition registers (name : string) (n : node) : bool :=
  match node_get n "name" with
  | Some s => (s =? name) && negb (s =? "") && negb (notInteresting (node_tag n))
  | None => false
  end.

(** The first value there is in a list. *)
Fixpoint first_some {A : Type} (l : list (option A)) : option A :=
  match l with
  | [] => None
  | Some x :: _ => Some x
  | None :: l' => first_some l'
  end.

(** The node that defines [name]: the first in document order that
    registers it. *)
Fixpoint defining_node (name : string) (n : node) {struct n} : option node :=
  if registers name n then Some n
  else
    match n with
    | Node _ _ cs => first_some (map (defining_node name) cs)
    end.

(** The number of nodes of a tree that register [name]. *)
Fixpoint regs (name : string) (n : node) {struct n} : nat :=
  (if registers name n then 1 else 0)
  + match n with
    | Node _ _ cs => list_sum (map (regs name) cs)
    end.

(** [r'] has the tag, the abstract flag and the substitution group of [r]:
    the keys that only registration writes. *)
Definition same_decl (r r' : DefinitionRecord) : Prop :=
  tag r' = tag r /\ abstract r' = abstract r /\ subs r' = subs r.

(** [r] has the tag, the abstract flag and the substitution group that the
    node [nd] declares. *)
Definition declared_by (nd : node) (r : DefinitionRecord) : Prop :=
  tag r = node_tag nd
  /\ abstract r = attr_true (node_get nd "abstract")
  /\ subs r = node_get nd "substitutionGroup".

(** First-write-wins between two states of the extraction, for a stretch of
    the traversal that meets [k] nodes registering [name], the first of them
    [first] when there is one: a record there was keeps its declaration and
    every node met is counted; otherwise the record is the one the first
    node declares and the other nodes are counted. *)
Definition first_write (name : string) (k : nat) (first : option node)
  (st st' : table * counter) : Prop :=
  (forall r, lookup name (fst st) = Some r ->
     exists r', lookup name (fst st') = Some r' /\ same_decl r r'
                /\ count name (snd st') = count name (snd st) + k)
  /\ (lookup name (fst st) = None ->
      match first with
      | Some nd =>
          exists r', lookup name (fst st') = Some r' /\ declared_by nd r'
                     /\ S (count name (snd st')) = count name (snd st) + k
      | None =>
          lookup name (fst st') = None /\ count name (snd st') = count name (snd st)
      end).

(** The reading of ["mixed"] that makes it a function of the defining node
    alone. *)
Definition mixed_is_node_attribute : Prop :=
  forall root d c name r nd,
    extract root = Ok (d, c) -> lookup name d = Some r ->
    defining_node name root = Some nd ->
    mixed r = Some (attr_true (node_get nd "mixed")).

(** An item of the table as [interpret] reports it. *)
Definition triple (x : string * DefinitionRecord)
  : string * option Kind * option bool :=
  (fst x, kind (snd x), mixed (snd x)).

(** An element with no type of its own and no reference. *)
Definition unknown_kind_schema : node :=
  Node "schema" [] [Node "element" [("name", "e")] []].

(** Scenario D of the specification: the base schema has [x] complex and
    pure, the override schema has [x] complex and mixed. *)
Definition base_doc : node :=
  Node "schema" [] [Node "element" [("name", "x")] [Node "complexType" [] []]].

Definition override_doc : node :=
  Node "schema" []
    [Node "element" [("name", "x")] [Node "complexType" [("mixed", "true")] []]].

Definition two_files (path : string) : option node :=
  if path =? "base.xsd" then Some base_doc
  else if path =? "override.xsd" then Some override_doc
  else None.

(** An override schema that declares a name the base schema has not. *)
Definition extending_doc : node :=
  Node "schema" []
    [Node "element" [("name", "x")] [Node "complexType" [] []];
     Node "element" [("name", "y")] [Node "complexType" [] []]].

(** [r'] differs from [r] in ["kind"] and ["mixed"] at most. *)
Definition keeps_declaration (r r' : DefinitionRecord) : Prop :=
  tag r' = tag r /\ abstract r' = abstract r /\ subs r' = subs r /\ base r' = base r.

(** Every ["kind"] of the table satisfies [PK], and [PM] holds if some
    record is mixed. *)
Definition facts_within (PK : Kind -> Prop) (PM : Prop) (d : table) : Prop :=
  forall name r, lookup name d = Some r ->
    (forall k, kind r = Some k -> PK k) /\ (bool_truthy (mixed r) = true -> PM).

(** [e] is the [KeyError] of a record of [d] that is not mixed and whose
    consulted reference is not a key. *)
Definition fatal (d : table) (e : exn) : Prop :=
  exists name other info,
    dangling d name other info /\ bool_truthy (mixed info) = false
    /\ e = KeyError (bare other).

(** The string has no colon. *)
Fixpoint no_colon (s : string) : bool :=
  match s with
  | EmptyString => true
  | String c rest => negb (Ascii.eqb c ":") && no_colon rest
  end.

(** [P] holds of every node of the tree. *)
Fixpoint every (P : node -> Prop) (n : node) {struct n} : Prop :=
  P n /\
  match n with
  | Node _ _ cs =>
      (fix all (l : list node) : Prop :=
         match l with
         | [] => True
         | c :: l' => every P c /\ all l'
         end) cs
  end.

(** What extraction keeps true of its table and counter: no name twice, no
    empty name, no record of an attribute, attribute group or group, and a
    counter only for names that have a record. *)
Definition well_formed (st : table * counter) : Prop :=
  NoDup (keys (fst st))
  /\ (forall name r, In (name, r) (fst st) ->
        name <> "" /\ notInteresting (tag r) = false)
  /\ (forall name, count name (snd st) <> 0 -> mem name (fst st) = true).

(** The order of the report: by sort key, then of the names alone. *)
Definition key_le (x y : string * DefinitionRecord) : Prop :=
  key_leb (eKey x) (eKey y) = true.

Definition name_le (a b : string) : Prop := String.leb a b = true.
Definition name_lt (a b : string) : Prop := String.ltb a b = true.

Definition report_names (d : table) : list string :=
  map (fun x => fst (fst x)) (report_defs d).

(** The merge loop of [interpret] over the items [items] of the override
    table [definitions], from the state [st]. *)
Definition merge_from (definitions items : table) (st : table * TT.overrides)
  : result (table * TT.overrides) :=
  fold_left (fun acc item => let* s := acc in TT.merge_step definitions item s)
    items (Ok st).

(** The entry of [overrides] for a name without a transition. *)
Definition identical (x : string * DefinitionRecord) : string * option string :=
  (fst x, None).

(** * The command line of [src/tt/xmlschema.py]

    [main()] on the argument list [sys.argv[1:]], with what is printed.  The
    environment is explicit: [myDir] is the directory of the module, [fs] the
    tree that opening and parsing a path gives, [why] the text of the
    exception that it raises otherwise, and [accepts] whether the console
    takes what a call of [print] prints. *)
Module Main.

(** The module constant [HELP]. *)
Definition HELP : string := "

Fromrelax mode
--------------
Transforms a RelaxNG schema into an equivalent xsd schema using
James Clark's trang library.
For this, you must have java installed.

Analyse mode
-------------
Given an XML schema file,
produces a tab-separated list of elements defined in the schema,
with columns

    (element name) (simple or complex) (mixed or pure content)

TEI mode
--------
Analyses the TEI schema.
If you pass an optional customized TEI schema, it will be passed separately,
and the resulting info will be merged with the analysis result of the
complete TEI schema.
The information from the customised schema overrides the information from the
complete TEI schema.
The complete TEI schema is part of this package, you do not have to provide it.
It has been generated on with the online TEI-Roma tool at
https://roma.tei-c.org/startroma.php.


USAGE

Command line:

xmlschema tei [schemafile.xsd]
xmlschema analyse {schemafile.xsd}
xmlschema fromrelax {schemafile.rng}

CAVEAT

This code has only been tested on a single xsd, converted from a relaxRNG
file produced by a customisation of TEI.

It could very well be that I have missed parts of the semantics of XML-Schema.
".

(** One call of [print]: a string, a line of the resolution, or the value
    that [interpret] returned. *)
Inductive printed : Type :=
| Line (s : string)
| Diagnostic (d : diag)
| Value (r : report).

(** What [main] returns: an integer, the [CompletedProcess] of
    [run(command, shell=True)], or [None] at the end of the body. *)
Inductive returned : Type :=
| Int (z : Z)
| CompletedProcess (command : string)
| NoValue.

(** What [main] can raise: an exception of the analysis, the [IndexError]
    of [args[0]], or the exception of a call of [print] whose text the
    console does not take (the [UnicodeEncodeError] for text that it cannot
    encode). *)
Inductive error : Type :=
| Exn (e : exn)
| IndexError
| PrintError.

Inductive outcome (A : Type) : Type :=
| Returns (v : A)
| Raises (e : error).
Arguments Returns {A} v.
Arguments Raises {A} e.

(** A piece of the program that prints: what it has printed, in order, and
    how it ends.  Nothing in the two modules catches an exception of
    [print], so a step that raises ends the run ([io_bind]). *)
Definition io (A : Type) : Type := list printed * outcome A.

Definition io_ret {A : Type} (v : A) : io A := ([], Returns v).

Definition io_raise {A : Type} (e : error) : io A := ([], Raises e).

Definition io_bind {A B : Type} (m : io A) (k : A -> io B) : io B :=
  match snd m with
  | Returns v => ((fst m ++ fst (k v))%list, snd (k v))
  | Raises e => (fst m, Raises e)
  end.

Notation "x <- m ;; k" := (io_bind m (fun x => k))
  (at level 61, m at next level, right associativity).
Notation "m ;; k" := (io_bind m (fun _ => k))
  (at level 61, right associativity).

(** A step of the analysis, which prints nothing. *)
Definition lift {A : Type} (r : result A) : io A :=
  match r with
  | Ok a => io_ret a
  | Raise e => io_raise (Exn e)
  end.

(** A string of the model holds its text in UTF-8, as a string of Rocq
    does: a character that is not ASCII takes several bytes, the first
    followed by continuation bytes [10xxxxxx]. *)
Definition continuation (c : ascii) : bool :=
  match c with
  | Ascii _ _ _ _ _ _ b6 b7 => b7 && negb b6
  end.

(** [len(s)] of a [str]: the number of its characters, the bytes that are
    not continuation bytes. *)
Fixpoint str_len (s : string) : nat :=
  match s with
  | EmptyString => 0
  | String c rest => (if continuation c then 0 else 1) + str_len rest
  end.

(** [str(n)] of a length. *)
Definition decimal (n : nat) : string := NilZero.string_of_uint (Nat.to_uint n).

Fixpoint spaces (n : nat) : string :=
  match n with
  | 0 => EmptyString
  | S n' => String " " (spaces n')
  end.

(** The format [{n:>3}]. *)
Definition right3 (n : nat) : string :=
  spaces (3 - str_len (decimal n)) ++ decimal n.

(** [s.removesuffix(suffix)]. *)
Fixpoint removesuffix (suffix s : string) : string :=
  match s with
  | EmptyString => EmptyString
  | String c rest =>
      if s =? suffix then EmptyString else String c (removesuffix suffix rest)
  end.

(** [TASKS.get(task, None)]. *)
Definition TASKS (task : string) : option (list nat) :=
  if task =? "tei" then Some [0; 1]
  else if task =? "analyse" then Some [1]
  else if task =? "fromrelax" then Some [1]
  else None.

(** [x in args]. *)
Definition has (x : string) (args : list string) : bool :=
  existsb (String.eqb x) args.

(** What [Analysis(baseSchema, override)] prints: nothing unless the schema
    cannot be read.  The second line of the message is not an f-string. *)
Definition init_prints (fs : string -> option node) (why : string -> string)
  (baseSchema : string) (override : option string) : list printed :=
  match fs baseSchema with
  | Some _ => []
  | None =>
      [Line ("Could not read and parse " ++ baseSchema
             ++ match override with
                | Some _ => " or {override}"
                | None => ""
                end);
       Line (why baseSchema)]
  end.

(** [len(defs)] of what [interpret] returned: of the text, or of the
    tuple. *)
Definition len (r : report) : nat :=
  match r with
  | AsTsv text => str_len text
  | AsList defs => length defs
  end.

(** [x for x in A.overrides.items() if x[1] is not None]. *)
Fixpoint changing (ov : TT.overrides) : list (string * string) :=
  match ov with
  | [] => []
  | (name, Some trans) :: rest => (name, trans) :: changing rest
  | (_, None) :: rest => changing rest
  end.

(** [sum(1 for x in overrides.items() if x[1] is None)]. *)
Fixpoint same (ov : TT.overrides) : nat :=
  match ov with
  | [] => 0
  | (_, None) :: rest => S (same rest)
  | (_, Some _) :: rest => same rest
  end.

(** [<=] on pairs of strings, as Python compares tuples. *)
Definition pair_leb (a b : string * string) : bool :=
  match String.compare (fst a) (fst b) with
  | Lt => true
  | Gt => false
  | Eq => String.leb (snd a) (snd b)
  end.

Fixpoint insert_pair (x : string * string) (l : list (string * string))
  : list (string * string) :=
  match l with
  | [] => [x]
  | y :: rest => if pair_leb x y then x :: l else y :: insert_pair x rest
  end.

(** [sorted] of a list of pairs, as a stable insertion sort. *)
Definition sorted_pairs (l : list (string * string)) : list (string * string) :=
  fold_right insert_pair [] l.

Section Console.

(** Whether the console takes what a call of [print] prints; when it does
    not, the call raises. *)
Variable accepts : printed -> bool.

(** [print(...)]. *)
Definition print (p : printed) : io unit :=
  if accepts p then ([p], Returns tt) else ([], Raises PrintError).

(** Calls of [print] one after the other. *)
Fixpoint prints (l : list printed) : io unit :=
  match l with
  | [] => io_ret tt
  | p :: rest => print p ;; prints rest
  end.

(** [interpret(asTsv)] with [debug] off, with what it prints: the lines of
    the two calls of [resolve], each printed when [resolve] reaches it, so
    that a call of [print] that raises ends the run there. *)
Definition interpret (A : TT.Analysis) (asTsv : bool)
  : io (report * TT.overrides) :=
  match TT.root A with
  | None => io_raise (Exn (AttributeError "root"))
  | Some r =>
      ext <- lift (extract r) ;;
      prints (map Diagnostic (snd (TT.resolve (fst ext)))) ;;
      (let baseDefinitions := fst (fst (TT.resolve (fst ext))) in
       merged <- match TT.oroot A with
                 | None => io_ret (baseDefinitions, [])
                 | Some o =>
                     oext <- lift (extract o) ;;
                     prints (map Diagnostic (snd (TT.resolve (fst oext)))) ;;
                     lift (TT.merge (fst (fst (TT.resolve (fst oext))))
                             baseDefinitions)
                 end ;;
       (let defs := report_defs (fst merged) in
        io_ret (if asTsv then AsTsv (TT.tsv defs) else AsList defs,
                snd merged)))
  end.

(** The branch of [main] for the tasks [tei] and [analyse], from the call
    of [Analysis] on. *)
Definition analyse (fs : string -> option node) (why : string -> string)
  (baseSchema : string) (override : option string) : io returned :=
  let A := TT.init fs baseSchema override in
  prints (init_prints fs why baseSchema override) ;;
  (if negb (TT.good A) then io_ret (Int 1)
   else
     r <- interpret A true ;;
     print (Value (fst r)) ;;
     print (Line ("!!!!!!!!!! " ++ right3 (len (fst r))
                  ++ " elements defined")) ;;
     (if str_truthy override
      then
        print (Line ("!!!!!!!!!! " ++ right3 (same (snd r))
                     ++ " identical overrides")) ;;
        print (Line ("!!!!!!!!!! " ++ right3 (length (snd r) - same (snd r))
                     ++ " changing overrides"))
      else io_ret tt) ;;
     prints (map (fun x => Line ("!!!!!!!!!! " ++ fst x ++ " " ++ snd x))
               (sorted_pairs (changing (snd r)))) ;;
     io_ret (Int 0)).

(** [main()]. *)
Definition main (myDir : string) (fs : string -> option node)
  (why : string -> string) (argv : list string) : io returned :=
  if has "-h" argv || has "--help" argv then
    print (Line HELP) ;; io_ret (Int 0)
  else
    match argv with
    | [] =>
        print (Line HELP) ;; print (Line "No task specified") ;;
        io_ret (Int (-1))
    | task :: args =>
        match TASKS task with
        | None =>
            print (Line HELP) ;; print (Line ("Unrecognized task " ++ task)) ;;
            io_ret (Int (-1))
        | Some nParams =>
            if negb (existsb (Nat.eqb (length args)) nParams) then
              print (Line HELP) ;;
              print (Line ("Wrong number of arguments ("
                           ++ decimal (length args) ++ " for " ++ task)) ;;
              io_ret (Int (-1))
            else if (task =? "tei") || (task =? "analyse") then
              if task =? "tei" then
                analyse fs why (myDir ++ "/tei/tei_all.xsd") (hd_error args)
              else
                match args with
                | [] => io_raise IndexError
                | baseSchema :: _ => analyse fs why baseSchema None
                end
            else if task =? "fromrelax" then
              match args with
              | [] => io_raise IndexError
              | schemaFile :: _ =>
                  let trang := myDir ++ "/trang/trang.jar" in
                  let schemaOut := removesuffix ".rng" schemaFile ++ ".xsd" in
                  io_ret (CompletedProcess
                            ("java -jar " ++ trang ++ " " ++ schemaFile
                             ++ " " ++ schemaOut))
              end
            else io_ret NoValue
        end
    end.

End Console.

End Main.

(** Vocabulary for the command line: a help flag is among the arguments; the
    first argument is a task and the number of the others is one that the
    task accepts; the schema that the task analyses. *)
Definition help_asked (argv : list string) : bool :=
  Main.has "-h" argv || Main.has "--help" argv.

Definition well_called (argv : list string) : bool :=
  match argv with
  | [] => false
  | task :: args =>
      match Main.TASKS task with
      | Some nParams => existsb (Nat.eqb (length args)) nParams
      | None => false
      end
  end.

Definition schema_of (myDir : string) (argv : list string) : option string :=
  match argv with
  | task :: args =>
      if task =? "tei" then Some (myDir ++ "/tei/tei_all.xsd")
      else if task =? "analyse" then hd_error args
      else None
  | [] => None
  end.

(** A console that takes every print. *)
Definition willing (p : Main.printed) : bool := true.

(** The run [m] is the run [m0], or [m0] cut short by a call of [print]
    that the console refused: it has printed what [m0] prints before that
    call, and raises what the call raises. *)
Definition cut_short (accepts : Main.printed -> bool) {A : Type}
  (m m0 : Main.io A) : Prop :=
  m = m0
  \/ (snd m = Main.Raises Main.PrintError
      /\ exists p rest, accepts p = false /\ fst m0 = (fst m ++ p :: rest)%list).

(** What a run of the analysis prints when the schema can be read and the
    console takes every print. *)
Definition analyse_output (d : table) (override : option string)
  : list Main.printed :=
  let text := TT.tsv (report_defs (fst (fst (TT.resolve d)))) in
  map Main.Diagnostic
    (match override with
     | Some _ => snd (TT.resolve d) ++ snd (TT.resolve d)
     | None => snd (TT.resolve d)
     end)
  ++ [Main.Value (AsTsv text);
      Main.Line ("!!!!!!!!!! " ++ Main.right3 (Main.str_len text)
                 ++ " elements defined")]
  ++ (if str_truthy override
      then [Main.Line ("!!!!!!!!!! " ++ Main.right3 (length d)
                       ++ " identical overrides");
            Main.Line "!!!!!!!!!!   0 changing overrides"]
      else []).

(** The names of the element declarations of a tree that do not lie inside
    another element declaration: the values that [definingName] takes in the
    traversal that starts with [findDefs(root, False, False)]. *)
Fixpoint definers (n : node) {struct n} : list string :=
  match fst (child_context n None) with
  | Some name => [name]
  | None =>
      match n with
      | Node _ _ cs => flat_map definers cs
      end
  end.

(** Only records of names of [S] have a ["kind"] or a ["base"]. *)
Definition facts_only_on (S : list string) (d : table) : Prop :=
  forall name r, lookup name d = Some r ->
    kind r <> None \/ base r <> None -> In name S.

(** A global element that holds a named complex type, which holds a local
    element with a complex type of its own. *)
Definition nested_schema : node :=
  Node "schema" []
    [Node "element" [("name", "outer")]
       [Node "complexType" [("name", "T")]
          [Node "element" [("name", "inner")] [Node "complexType" [] []]]]].


(** What the writes of [findDefs] onto the enclosing definition make of its
    record [r], at a node [n] that is visited with [topDef = top]:
    ["kind"], and ["mixed"] when the node has [mixed="true"], from a
    simpleType or complexType at the top level of the definition; ["base"]
    from an extension with a non-empty base below the top level. *)
Definition written (n : node) (top : bool) (r : DefinitionRecord)
  : DefinitionRecord :=
  if top then
    if types (node_tag n) then
      let r1 := set_kind (if node_tag n =? "simpleType" then simple else complex) r in
      if attr_true (node_get n "mixed") then set_mixed (Some true) r1 else r1
    else r
  else
    if node_tag n =? "extension" then
      match node_get n "base" with
      | Some b => if negb (b =? "") then set_base b r else r
      | None => r
      end
    else r.

(** The node is visited inside the definition of [name]: [definingName] is
    [name], and true as a condition. *)
Definition inside (definingName : option string) (name : string) : bool :=
  match definingName with
  | Some dn => (dn =? name) && negb (dn =? "")
  | None => false
  end.

(** An element named Foo that holds a complex type named Foo with mixed
    content: the second node named Foo lies inside the definition of Foo. *)
Definition foo_in_foo : node :=
  Node "schema" []
    [Node "element" [("name", "Foo")]
       [Node "complexType" [("name", "Foo"); ("mixed", "true")] []]].

(** * Properties *)

Local Open Scope list_scope.

(** ** Tables *)

(** Induction over a tree, with the hypothesis on every child. *)
Fixpoint node_induction (P : node -> Prop)
  (H : forall t a cs, Forall P cs -> P (Node t a cs)) (n : node) {struct n} : P n :=
  match n with
  | Node t a cs =>
      H t a cs
        ((fix children_ok (l : list node) : Forall P l :=
            match l with
            | [] => Forall_nil P
            | c :: l' => Forall_cons c (node_induction P H c) (children_ok l')
            end) cs)
  end.

Ltac eqb_case a b :=
  let E := fresh "E" in
  destruct (String.eqb_spec a b) as [E | E]; [try subst | idtac].

Lemma lookup_update_same name f d :
  lookup name (update name f d) = option_map f (lookup name d).
Proof.
  induction d as [| [k r] d IH]; simpl; [reflexivity |].
  eqb_case k name; simpl.
  - rewrite String.eqb_refl. reflexivity.
  - destruct (String.eqb_spec k name); [contradiction | exact IH].
Qed.

Lemma lookup_update_other name name' f d :
  name <> name' -> lookup name' (update name f d) = lookup name' d.
Proof.
  intros Hne. induction d as [| [k r] d IH]; simpl; [reflexivity |].
  eqb_case k name; simpl.
  - destruct (String.eqb_spec name name'); [contradiction | reflexivity].
  - rewrite IH. reflexivity.
Qed.

Lemma keys_update name f d : keys (update name f d) = keys d.
Proof.
  induction d as [| [k r] d IH]; simpl; [reflexivity |].
  destruct (k =? name); simpl; [reflexivity | f_equal; exact IH].
Qed.

Lemma length_update name f d : length (update name f d) = length d.
Proof.
  induction d as [| [k r] d IH]; simpl; [reflexivity |].
  destruct (k =? name); simpl; [reflexivity | f_equal; exact IH].
Qed.

Lemma update_absent name f d : lookup name d = None -> update name f d = d.
Proof.
  induction d as [| [k r] d IH]; simpl; [reflexivity |].
  destruct (k =? name); [discriminate |].
  intros H. rewrite (IH H). reflexivity.
Qed.

Lemma lookup_In name d r : lookup name d = Some r -> In (name, r) d.
Proof.
  induction d as [| [k r0] d IH]; simpl; [discriminate |].
  eqb_case k name.
  - intros [= ->]. left. reflexivity.
  - intros H. right. exact (IH H).
Qed.

Lemma lookup_keys name d : lookup name d <> None <-> In name (keys d).
Proof.
  induction d as [| [k r] d IH]; simpl.
  - split; [congruence | intros []].
  - eqb_case k name.
    + split; [intros _; left; reflexivity | intros _; discriminate].
    + rewrite IH. split; [intros H; right; exact H | intros [H | H]; [contradiction | exact H]].
Qed.

Lemma lookup_app name d d2 :
  lookup name (d ++ d2) =
  match lookup name d with Some r => Some r | None => lookup name d2 end.
Proof.
  induction d as [| [k r] d IH]; simpl; [reflexivity |].
  destruct (k =? name); [reflexivity | exact IH].
Qed.

Lemma mem_true name d : mem name d = true <-> lookup name d <> None.
Proof.
  unfold mem. destruct (lookup name d); split; congruence.
Qed.

Lemma mem_update name k f d : mem k (update name f d) = mem k d.
Proof.
  unfold mem. destruct (String.eqb_spec name k) as [-> | Hne].
  - rewrite lookup_update_same. destruct (lookup k d); reflexivity.
  - rewrite lookup_update_other by exact Hne. reflexivity.
Qed.

Lemma count_incr_same name c : count name (incr name c) = S (count name c).
Proof.
  induction c as [| [k n] c IH]; simpl.
  - rewrite String.eqb_refl. reflexivity.
  - eqb_case k name; simpl.
    + rewrite String.eqb_refl. reflexivity.
    + destruct (String.eqb_spec k name); [contradiction | exact IH].
Qed.

Lemma count_incr_other name name' c :
  name <> name' -> count name' (incr name c) = count name' c.
Proof.
  intros Hne. induction c as [| [k n] c IH]; simpl.
  - destruct (String.eqb_spec name name'); [contradiction | reflexivity].
  - eqb_case k name; simpl.
    + destruct (String.eqb_spec name name'); [contradiction | reflexivity].
    + rewrite IH. reflexivity.
Qed.

(** ** Extraction *)

Lemma findDefs_eq t a cs dn top st :
  findDefs (Node t a cs) dn top st =
  let* st1 := visit (Node t a cs) dn top st in
  visit_children (fst (child_context (Node t a cs) dn))
    (snd (child_context (Node t a cs) dn)) cs (Ok st1).
Proof.
  simpl. destruct (child_context (Node t a cs) dn). reflexivity.
Qed.

Lemma visit_children_raise defining top cs e :
  visit_children defining top cs (Raise e) = Raise e.
Proof.
  induction cs as [| c cs IH]; simpl; [reflexivity | exact IH].
Qed.

Lemma visit_children_cons defining top c cs st :
  visit_children defining top (c :: cs) (Ok st) =
  visit_children defining top cs (findDefs c defining top st).
Proof. reflexivity. Qed.

Lemma mixed_defined_update name f d :
  (forall r, mixed r <> None -> mixed (f r) <> None) ->
  mixed_defined d -> mixed_defined (update name f d).
Proof.
  intros Hf. induction d as [| [k r] d IH]; simpl; intros H; [exact H |].
  inversion H as [| x l Hx Hl]; subst. simpl in Hx.
  destruct (k =? name); constructor; simpl.
  - apply Hf. exact Hx.
  - exact Hl.
  - exact Hx.
  - apply IH. exact Hl.
Qed.

Lemma mixed_defined_lookup d name r :
  mixed_defined d -> lookup name d = Some r -> exists b, mixed r = Some b.
Proof.
  intros Hd Hl. apply lookup_In in Hl.
  unfold mixed_defined in Hd. rewrite Forall_forall in Hd.
  specialize (Hd _ Hl). simpl in Hd.
  destruct (mixed r) as [b |]; [exists b; reflexivity | contradiction].
Qed.

Lemma setitem_ok name f d :
  mem name d = true -> setitem name f d = Ok (update name f d).
Proof. unfold setitem. intros ->. reflexivity. Qed.

(** Inside a definition that is a key of the table, the writes onto the
    enclosing definition never raise, and keep the keys. *)
Lemma enclosing_ok n dn top d :
  ctx_ok dn d ->
  exists d', enclosing n dn top d = Ok d'
    /\ (forall k, mem k d' = mem k d)
    /\ (mixed_defined d -> mixed_defined d').
Proof.
  intros Hctx. unfold enclosing.
  destruct dn as [s |]; [| exists d; auto].
  eqb_case s ""; simpl; [exists d; auto |].
  assert (Hmem : mem s d = true) by (apply Hctx; auto).
  destruct top.
  - destruct (types (node_tag n)); [| exists d; auto].
    rewrite setitem_ok by exact Hmem. simpl.
    destruct (attr_true (node_get n "mixed")).
    + rewrite setitem_ok by (rewrite mem_update; exact Hmem).
      eexists; split; [reflexivity | split].
      * intros k. rewrite !mem_update. reflexivity.
      * intros H. apply mixed_defined_update; [simpl; congruence |].
        apply mixed_defined_update; [simpl; auto | exact H].
    + eexists; split; [reflexivity | split].
      * intros k. rewrite mem_update. reflexivity.
      * intros H. apply mixed_defined_update; [simpl; auto | exact H].
  - destruct (node_tag n =? "extension"); [| exists d; auto].
    destruct (node_get n "base") as [b |]; [| exists d; auto].
    destruct (negb (b =? "")); [| exists d; auto].
    rewrite setitem_ok by exact Hmem.
    eexists; split; [reflexivity | split].
    + intros k. rewrite mem_update. reflexivity.
    + intros H. apply mixed_defined_update; [simpl; auto | exact H].
Qed.

Lemma mem_app_l k d d2 : mem k d = true -> mem k (d ++ d2) = true.
Proof.
  unfold mem. rewrite lookup_app. destruct (lookup k d); [reflexivity | discriminate].
Qed.

Lemma register_mem n d c k :
  mem k d = true -> mem k (fst (register n (d, c))) = true.
Proof.
  intros H. unfold register.
  destruct (node_get n "name") as [name |]; [| exact H].
  destruct (negb (name =? "") && negb (notInteresting (node_tag n))); [| exact H].
  destruct (mem name d); [exact H | simpl; apply mem_app_l; exact H].
Qed.

Lemma register_mixed_defined n d c :
  mixed_defined d -> mixed_defined (fst (register n (d, c))).
Proof.
  intros H. unfold register.
  destruct (node_get n "name") as [name |]; [| exact H].
  destruct (negb (name =? "") && negb (notInteresting (node_tag n))); [| exact H].
  destruct (mem name d); [exact H |]. simpl.
  apply Forall_app. split; [exact H |].
  constructor; [simpl; discriminate | constructor].
Qed.

Lemma register_registers n d c name :
  node_get n "name" = Some name -> name <> "" ->
  notInteresting (node_tag n) = false ->
  mem name (fst (register n (d, c))) = true.
Proof.
  intros Hn Hne Hi. unfold register. rewrite Hn, Hi.
  destruct (String.eqb_spec name ""); [contradiction |]. simpl.
  destruct (mem name d) eqn:Hm; simpl; [exact Hm |].
  unfold mem. rewrite lookup_app. destruct (lookup name d); [reflexivity |].
  simpl. rewrite String.eqb_refl. reflexivity.
Qed.

(** The context handed to the children names a key of the table. *)
Lemma child_context_ok n dn d c d1 :
  ctx_ok dn d -> (forall k, mem k d1 = mem k d) ->
  ctx_ok (fst (child_context n dn)) (fst (register n (d1, c))).
Proof.
  intros Hctx Hk. unfold child_context.
  destruct (str_truthy dn) eqn:Ht; simpl.
  - intros s Hs Hne. apply register_mem. rewrite Hk. apply Hctx; assumption.
  - destruct (str_truthy (node_get n "name")) eqn:Hn; simpl; [| intros s [=]].
    eqb_case (node_tag n) "element"; simpl; [| intros s [=]].
    intros s Hs Hne. apply register_registers; [exact Hs | exact Hne |].
    rewrite E. reflexivity.
Qed.

(** Extraction never raises, keeps the keys it has, and keeps every
    ["mixed"] a boolean. *)
Lemma findDefs_ok n :
  forall dn top st,
    ctx_ok dn (fst st) ->
    exists st', findDefs n dn top st = Ok st'
      /\ (forall k, mem k (fst st) = true -> mem k (fst st') = true)
      /\ (mixed_defined (fst st) -> mixed_defined (fst st')).
Proof.
  induction n as [t a cs IH] using node_induction.
  intros dn top [d c] Hctx. simpl in Hctx.
  rewrite findDefs_eq. unfold visit. simpl fst. simpl snd.
  destruct (enclosing_ok (Node t a cs) dn top d Hctx) as (d1 & -> & Hk & Hm).
  cbv beta iota delta [bind].
  pose proof (child_context_ok (Node t a cs) dn d c d1 Hctx Hk) as Hc.
  assert (Hmono : forall k, mem k d = true ->
                            mem k (fst (register (Node t a cs) (d1, c))) = true).
  { intros k H. apply register_mem. rewrite Hk. exact H. }
  assert (Hdef : mixed_defined d ->
                 mixed_defined (fst (register (Node t a cs) (d1, c)))).
  { intros H. apply register_mixed_defined. apply Hm. exact H. }
  generalize dependent (register (Node t a cs) (d1, c)).
  generalize (fst (child_context (Node t a cs) dn)).
  generalize (snd (child_context (Node t a cs) dn)).
  clear Hctx Hk Hm. intros top' dn'.
  induction IH as [| ch cs' Hch _ IHcs]; intros st1 Hc Hmono Hdef.
  - exists st1. simpl. repeat split; auto.
  - rewrite visit_children_cons.
    destruct (Hch dn' top' st1 Hc) as (st2 & -> & Hk2 & Hm2).
    apply IHcs.
    + intros s Hs Hne. apply Hk2. apply Hc; assumption.
    + intros k H. apply Hk2. apply Hmono. exact H.
    + intros H. apply Hm2. apply Hdef. exact H.
Qed.

Lemma ctx_ok_none d : ctx_ok None d.
Proof. intros s [=]. Qed.

Lemma extract_ok root :
  exists d c, extract root = Ok (d, c) /\ mixed_defined d.
Proof.
  destruct (findDefs_ok root None false ([], []) (ctx_ok_none _))
    as ([d c] & H & _ & Hm).
  exists d, c. split; [exact H | apply Hm; constructor].
Qed.

(** The writes onto the enclosing definition touch no other record. *)
Lemma enclosing_other n dn top d d' k :
  enclosing n dn top d = Ok d' -> dn <> Some k -> lookup k d' = lookup k d.
Proof.
  unfold enclosing, setitem. intros H Hne.
  destruct dn as [s |]; [| injection H as <-; reflexivity].
  assert (Hsk : s <> k) by congruence.
  destruct (negb (s =? "")); [| injection H as <-; reflexivity].
  destruct top.
  - destruct (types (node_tag n)); [| injection H as <-; reflexivity].
    destruct (mem s d); [| discriminate]. simpl in H.
    destruct (attr_true (node_get n "mixed")).
    + destruct (mem s _); [| discriminate]. injection H as <-.
      rewrite !lookup_update_other by exact Hsk. reflexivity.
    + injection H as <-. rewrite lookup_update_other by exact Hsk. reflexivity.
  - destruct (node_tag n =? "extension"); [| injection H as <-; reflexivity].
    destruct (node_get n "base") as [b |]; [| injection H as <-; reflexivity].
    destruct (negb (b =? "")); [| injection H as <-; reflexivity].
    destruct (mem s d); [| discriminate]. injection H as <-.
    rewrite lookup_update_other by exact Hsk. reflexivity.
Qed.

Lemma register_existing n name d c :
  node_get n "name" = Some name -> name <> "" ->
  notInteresting (node_tag n) = false -> mem name d = true ->
  register n (d, c) = (d, incr name c).
Proof.
  intros Hn Hne Hi Hm. unfold register. rewrite Hn, Hi, Hm.
  destruct (String.eqb_spec name ""); [contradiction | reflexivity].
Qed.

Lemma lookup_update_cases s name f d r :
  lookup name d = Some r ->
  lookup name (update s f d) = Some (if s =? name then f r else r).
Proof.
  intros H. destruct (String.eqb_spec s name) as [-> | Hne].
  - rewrite lookup_update_same, H. reflexivity.
  - rewrite lookup_update_other by exact Hne. exact H.
Qed.

(** ** First-write-wins over a whole traversal *)

Lemma same_decl_refl r : same_decl r r.
Proof. repeat split. Qed.

Lemma same_decl_trans r1 r2 r3 :
  same_decl r1 r2 -> same_decl r2 r3 -> same_decl r1 r3.
Proof. unfold same_decl. intros (? & ? & ?) (? & ? & ?). repeat split; congruence. Qed.

Lemma declared_by_same nd r r' : declared_by nd r -> same_decl r r' -> declared_by nd r'.
Proof.
  unfold declared_by, same_decl. intros (? & ? & ?) (? & ? & ?).
  repeat split; congruence.
Qed.

Lemma first_write_refl name st : first_write name 0 None st st.
Proof.
  split.
  - intros r H. exists r. split; [exact H |]. split; [apply same_decl_refl | lia].
  - intros H. split; [exact H | reflexivity].
Qed.

Lemma first_write_trans name k1 k2 o1 o2 st st1 st2 :
  (o1 = None -> k1 = 0) ->
  first_write name k1 o1 st st1 -> first_write name k2 o2 st1 st2 ->
  first_write name (k1 + k2) (match o1 with Some x => Some x | None => o2 end) st st2.
Proof.
  intros Hk [Hs1 Hn1] [Hs2 Hn2]. split.
  - intros r H. destruct (Hs1 r H) as (r1 & Hl1 & Hd1 & Hc1).
    destruct (Hs2 r1 Hl1) as (r2 & Hl2 & Hd2 & Hc2).
    exists r2. split; [exact Hl2 |].
    split; [eapply same_decl_trans; eassumption | lia].
  - intros H. specialize (Hn1 H). destruct o1 as [nd |].
    + destruct Hn1 as (r1 & Hl1 & Hd1 & Hc1).
      destruct (Hs2 r1 Hl1) as (r2 & Hl2 & Hd2 & Hc2).
      exists r2. split; [exact Hl2 |].
      split; [eapply declared_by_same; eassumption | lia].
    + destruct Hn1 as [Hl1 Hc1]. specialize (Hn2 Hl1).
      rewrite (Hk eq_refl). simpl. rewrite <- Hc1. exact Hn2.
Qed.

Lemma lookup_update_none s name f d :
  lookup name d = None -> lookup name (update s f d) = None.
Proof.
  intros H. destruct (String.eqb_spec s name) as [-> | Hne].
  - rewrite lookup_update_same, H. reflexivity.
  - rewrite lookup_update_other by exact Hne. exact H.
Qed.

Lemma first_write_update name s f d c :
  (forall r, same_decl r (f r)) ->
  first_write name 0 None (d, c) (update s f d, c).
Proof.
  intros Hf. split; simpl.
  - intros r H. rewrite (lookup_update_cases s name f d r H).
    eexists. split; [reflexivity |]. split; [| lia].
    destruct (s =? name); [apply Hf | apply same_decl_refl].
  - intros H. split; [apply lookup_update_none; exact H | reflexivity].
Qed.

(** The writes onto the enclosing definition are not declarations. *)
Lemma enclosing_first_write n dn top d d' c name :
  enclosing n dn top d = Ok d' -> first_write name 0 None (d, c) (d', c).
Proof.
  unfold enclosing, setitem. intros H.
  destruct dn as [s |]; [| injection H as <-; apply first_write_refl].
  destruct (negb (s =? "")); [| injection H as <-; apply first_write_refl].
  destruct top.
  - destruct (types (node_tag n)); [| injection H as <-; apply first_write_refl].
    destruct (mem s d); [| discriminate]. simpl in H.
    destruct (attr_true (node_get n "mixed")).
    + destruct (mem s _); [| discriminate]. injection H as <-.
      eapply (first_write_trans name 0 0 None None);
        [reflexivity | | apply first_write_update; intros r; repeat split];
        apply first_write_update; intros r; repeat split.
    + injection H as <-. apply first_write_update. intros r. repeat split.
  - destruct (node_tag n =? "extension"); [| injection H as <-; apply first_write_refl].
    destruct (node_get n "base") as [b |]; [| injection H as <-; apply first_write_refl].
    destruct (negb (b =? "")); [| injection H as <-; apply first_write_refl].
    destruct (mem s d); [| discriminate]. injection H as <-.
    apply first_write_update. intros r. repeat split.
Qed.

(** Registration declares a name once, and counts the later attempts. *)
Lemma register_first_write n name d c :
  first_write name (if registers name n then 1 else 0)
    (if registers name n then Some n else None) (d, c) (register n (d, c)).
Proof.
  unfold register, registers.
  destruct (node_get n "name") as [s |] eqn:Hn; [| apply first_write_refl].
  destruct (String.eqb_spec s name) as [-> | Hne]; simpl.
  - destruct (negb (name =? "") && negb (notInteresting (node_tag n)));
      [| apply first_write_refl].
    unfold mem. destruct (lookup name d) as [r0 |] eqn:Hl; split; simpl.
    + intros r H. rewrite Hl in H. injection H as <-. exists r0.
      split; [exact Hl |].
      split; [apply same_decl_refl |]. rewrite count_incr_same. lia.
    + intros H. rewrite Hl in H. discriminate.
    + intros r H. rewrite Hl in H. discriminate.
    + intros _. eexists. split.
      * rewrite lookup_app, Hl. simpl. rewrite String.eqb_refl. reflexivity.
      * split; [repeat split | lia].
  - destruct (negb (s =? "") && negb (notInteresting (node_tag n)));
      [| apply first_write_refl].
    destruct (mem s d); split; simpl.
    + intros r H. exists r. split; [exact H |].
      split; [apply same_decl_refl |]. rewrite count_incr_other by exact Hne. lia.
    + intros H. split; [exact H | apply count_incr_other; exact Hne].
    + intros r H. exists r. rewrite lookup_app, H.
      split; [reflexivity |]. split; [apply same_decl_refl | lia].
    + intros H. rewrite lookup_app, H. simpl.
      destruct (String.eqb_spec s name); [contradiction |]. split; reflexivity.
Qed.

Lemma visit_first_write n dn top st st' name :
  visit n dn top st = Ok st' ->
  first_write name (if registers name n then 1 else 0)
    (if registers name n then Some n else None) st st'.
Proof.
  destruct st as [d c]. unfold visit. simpl fst. simpl snd. intros H.
  destruct (enclosing n dn top d) as [d1 | e] eqn:E; [| discriminate].
  cbv beta iota delta [bind] in H. injection H as <-.
  apply (first_write_trans name 0 _ None _ (d, c) (d1, c));
    [reflexivity | eapply enclosing_first_write; exact E | apply register_first_write].
Qed.

Lemma regs_zero name n : defining_node name n = None -> regs name n = 0.
Proof.
  induction n as [t a cs IH] using node_induction. cbn [defining_node regs].
  destruct (registers name (Node t a cs)); [discriminate |]. simpl.
  induction IH as [| ch cs' Hch _ IHcs]; simpl; [reflexivity |].
  destruct (defining_node name ch) eqn:E; [discriminate |].
  intros H. rewrite (Hch eq_refl), (IHcs H). reflexivity.
Qed.

Lemma first_some_none_sum name cs :
  first_some (map (defining_node name) cs) = None ->
  list_sum (map (regs name) cs) = 0.
Proof.
  induction cs as [| ch cs IH]; simpl; [reflexivity |].
  destruct (defining_node name ch) eqn:E; [discriminate |].
  intros H. rewrite (regs_zero _ _ E), (IH H). reflexivity.
Qed.

(** First-write-wins for the traversal of a subtree: the record of a name
    carries the declaration of the first node that registers it, and the
    counter goes up by one for every other node that does. *)
Lemma findDefs_first_write name n :
  forall dn top st st',
    findDefs n dn top st = Ok st' ->
    first_write name (regs name n) (defining_node name n) st st'.
Proof.
  induction n as [t a cs IH] using node_induction. intros dn top st st' H.
  rewrite findDefs_eq in H.
  destruct (visit (Node t a cs) dn top st) as [st1 | e] eqn:Ev; [| discriminate].
  cbv beta iota delta [bind] in H.
  pose proof (visit_first_write _ _ _ _ _ name Ev) as Hv.
  cbn [defining_node regs].
  assert (Hc : first_write name (list_sum (map (regs name) cs))
                 (first_some (map (defining_node name) cs)) st1 st').
  { revert H. generalize (fst (child_context (Node t a cs) dn)).
    generalize (snd (child_context (Node t a cs) dn)). intros top' dn'.
    clear Ev Hv. revert st1.
    induction IH as [| ch cs' Hch _ IHcs]; intros st1 H.
    - injection H as <-. apply first_write_refl.
    - rewrite visit_children_cons in H.
      destruct (findDefs ch dn' top' st1) as [st2 | e] eqn:E;
        [| rewrite visit_children_raise in H; discriminate].
      simpl map. simpl list_sum.
      replace (first_some (defining_node name ch :: map (defining_node name) cs'))
        with (match defining_node name ch with
              | Some x => Some x
              | None => first_some (map (defining_node name) cs')
              end) by (simpl; destruct (defining_node name ch); reflexivity).
      eapply first_write_trans; [apply regs_zero | apply (Hch _ _ _ _ E) | apply IHcs; exact H]. }
  destruct (registers name (Node t a cs)).
  - apply (first_write_trans name 1 _ (Some (Node t a cs))
             (first_some (map (defining_node name) cs)) st st1 st');
      [discriminate | exact Hv | exact Hc].
  - apply (first_write_trans name 0 _ None
             (first_some (map (defining_node name) cs)) st st1 st');
      [reflexivity | exact Hv | exact Hc].
Qed.

(** The record under a name after the writes onto the enclosing
    definition. *)
Lemma enclosing_lookup n dn top d d' name r :
  enclosing n dn top d = Ok d' -> lookup name d = Some r ->
  lookup name d' = Some (if inside dn name then written n top r else r).
Proof.
  unfold enclosing, inside, written. intros H Hl.
  destruct dn as [x |]; [| injection H as <-; exact Hl].
  destruct (x =? "") eqn:Ex; cbn [negb] in *.
  { injection H as <-. rewrite andb_false_r. exact Hl. }
  rewrite andb_true_r.
  assert (Hset : forall f d0 d1 r0,
             setitem x f d0 = Ok d1 -> lookup name d0 = Some r0 ->
             lookup name d1 = Some (if x =? name then f r0 else r0)).
  { intros f d0 d1 r0 Hs Hr. unfold setitem in Hs.
    destruct (mem x d0); [| discriminate]. injection Hs as <-.
    apply lookup_update_cases. exact Hr. }
  destruct top.
  - destruct (types (node_tag n)).
    + destruct (setitem x _ d) as [d1 | e] eqn:E1; [| discriminate].
      cbv beta iota delta [bind] in H. cbv zeta.
      pose proof (Hset _ _ _ _ E1 Hl) as H1.
      destruct (attr_true (node_get n "mixed")).
      * rewrite (Hset _ _ _ _ H H1). destruct (x =? name); reflexivity.
      * injection H as <-. exact H1.
    + injection H as <-. rewrite Hl. destruct (x =? name); reflexivity.
  - destruct (node_tag n =? "extension").
    + destruct (node_get n "base") as [b |].
      * destruct (negb (b =? "")).
        -- exact (Hset _ _ _ _ H Hl).
        -- injection H as <-. rewrite Hl. destruct (x =? name); reflexivity.
      * injection H as <-. rewrite Hl. destruct (x =? name); reflexivity.
    + injection H as <-. rewrite Hl. destruct (x =? name); reflexivity.
Qed.

Lemma written_same_decl n top r : same_decl r (written n top r).
Proof.
  unfold written, same_decl.
  destruct top;
    [destruct (types (node_tag n)); [destruct (attr_true (node_get n "mixed")) |]
    | destruct (node_tag n =? "extension");
      [destruct (node_get n "base") as [b |]; [destruct (negb (b =? "")) |] |]];
    repeat split.
Qed.

Lemma written_mixed n top r :
  mixed (written n top r)
  = if top && types (node_tag n) && attr_true (node_get n "mixed")
    then Some true else mixed r.
Proof.
  unfold written.
  destruct top;
    [destruct (types (node_tag n)); [destruct (attr_true (node_get n "mixed")) |]
    | destruct (node_tag n =? "extension");
      [destruct (node_get n "base") as [b |]; [destruct (negb (b =? "")) |] |]];
    reflexivity.
Qed.

Lemma inside_other dn name : dn <> Some name -> inside dn name = false.
Proof.
  intros H. unfold inside. destruct dn as [x |]; [| reflexivity].
  destruct (String.eqb_spec x name) as [-> | _]; [congruence | reflexivity].
Qed.

Lemma inside_same name : name <> "" -> inside (Some name) name = true.
Proof.
  intros H. unfold inside. rewrite String.eqb_refl.
  destruct (String.eqb_spec name "") as [-> | _]; [congruence | reflexivity].
Qed.

Lemma enclosing_keys n dn top d d' :
  enclosing n dn top d = Ok d' -> keys d' = keys d.
Proof.
  intros He. unfold enclosing, setitem in He.
  repeat match type of He with
         | context [match ?x with _ => _ end] => destruct x; simpl in He
         end;
    try discriminate; injection He as <-; rewrite ?keys_update; reflexivity.
Qed.

(** The claim C7 as it is stated fails where the second node that bears a
    name lies inside the definition of that name: the complex type named Foo
    below the element named Foo is counted as a redefinition of Foo, and the
    record of Foo is not kept as it was, the visit of the node writes its
    ["kind"] and its ["mixed"] onto it. *)
Lemma C7_rewritten_inside_its_own_definition :
  visit (Node "complexType" [("name", "Foo"); ("mixed", "true")] [])
    (Some "Foo") true
    ([("Foo", mkDef "element" false (Some false) None None None)], [])
  = Ok ([("Foo", mkDef "element" false (Some true) None (Some complex) None)],
        [("Foo", 1)])
  /\ extract foo_in_foo
     = Ok ([("Foo", mkDef "element" false (Some true) None (Some complex) None)],
           [("Foo", 1)])
  /\ ~ (forall n dn top name d c r,
          node_get n "name" = Some name -> name <> "" ->
          notInteresting (node_tag n) = false -> lookup name d = Some r ->
          ctx_ok dn d ->
          exists d' c', visit n dn top (d, c) = Ok (d', c')
                        /\ lookup name d' = Some r
                        /\ count name c' = S (count name c)).
Proof.
  split; [reflexivity |]. split; [reflexivity |]. intros H.
  destruct (H (Node "complexType" [("name", "Foo"); ("mixed", "true")] [])
              (Some "Foo") true "Foo"
              [("Foo", mkDef "element" false (Some false) None None None)] []
              (mkDef "element" false (Some false) None None None))
    as (d' & c' & Hv & Hl & _);
    [reflexivity | discriminate | reflexivity | reflexivity | |].
  - intros s [= <-] _. reflexivity.
  - injection Hv as <- <-. discriminate Hl.
Qed.

(** C7, amended.  Extraction is first-write-wins for what a declaration
    states.  (1) When the registration step of [findDefs] meets a node with
    a non-empty name and a tag outside attribute, attributeGroup and group,
    and the name is already a key, the table is returned as it is and the
    redefinition counter of the name goes up by one.  (2) The whole visit of
    such a node adds and removes no key, counts one redefinition, and leaves
    under the name a record with the tag, the abstract flag and the
    substitution group from before; the record is exactly the one from
    before unless the node is visited inside the definition of that very
    name, and then it is that record with the node's facts written onto it
    as for any other node of the definition ([written]); every other record
    is as the writes onto the enclosing definition leave it.  (3) A schema
    that declares Foo twice, under any two such tags, yields a table whose
    record for Foo has the first tag, and a counter of 1.  (4) On every
    schema, the record of a name has the tag, the abstract flag and the
    substitution group of the first node that registers the name, and the
    counter of the name is the number of the other nodes that register it; a
    name no node registers has no record and a counter of 0. *)
Theorem C7_first_write_wins :
  (forall n name d c,
      node_get n "name" = Some name -> name <> "" ->
      notInteresting (node_tag n) = false -> mem name d = true ->
      register n (d, c) = (d, incr name c)
      /\ count name (incr name c) = S (count name c))
  /\ (forall n dn top name d c r,
      node_get n "name" = Some name -> name <> "" ->
      notInteresting (node_tag n) = false -> lookup name d = Some r ->
      ctx_ok dn d ->
      exists d' c' r',
        visit n dn top (d, c) = Ok (d', c')
        /\ lookup name d' = Some r'
        /\ keys d' = keys d
        /\ count name c' = S (count name c)
        /\ same_decl r r'
        /\ (dn <> Some name -> r' = r)
        /\ (dn = Some name -> r' = written n top r)
        /\ (forall k r0, k <> name -> lookup k d = Some r0 ->
              lookup k d' = Some (if inside dn k then written n top r0 else r0)))
  /\ (forall t1 t2 a1 a2,
      notInteresting t1 = false -> notInteresting t2 = false ->
      attr_get "name" a1 = Some "Foo" -> attr_get "name" a2 = Some "Foo" ->
      exists d c r,
        extract (Node "schema" [] [Node t1 a1 []; Node t2 a2 []]) = Ok (d, c)
        /\ lookup "Foo" d = Some r /\ tag r = t1 /\ count "Foo" c = 1)
  /\ (forall root name d c,
      extract root = Ok (d, c) ->
      match defining_node name root with
      | Some nd =>
          exists r, lookup name d = Some r /\ declared_by nd r
                    /\ S (count name c) = regs name root
      | None => lookup name d = None /\ count name c = 0
      end).
Proof.
  split; [| split; [| split]].
  - intros n name d c Hn Hne Hi Hm. split.
    + apply register_existing; assumption.
    + apply count_incr_same.
  - intros n dn top name d c r Hn Hne Hi Hl Hctx. unfold visit. simpl fst. simpl snd.
    destruct (enclosing_ok n dn top d Hctx) as (d1 & He & Hk & _).
    rewrite He. cbv beta iota delta [bind].
    pose proof (enclosing_lookup _ _ _ _ _ _ _ He Hl) as Hl1.
    rewrite (register_existing n name d1 c Hn Hne Hi)
      by (unfold mem; rewrite Hl1; reflexivity).
    exists d1, (incr name c), (if inside dn name then written n top r else r).
    split; [reflexivity |]. split; [exact Hl1 |].
    split; [exact (enclosing_keys _ _ _ _ _ He) |].
    split; [apply count_incr_same |].
    split; [destruct (inside dn name);
            [apply written_same_decl | apply same_decl_refl] |].
    split; [intros Hdn; rewrite (inside_other _ _ Hdn); reflexivity |].
    split; [intros ->; rewrite (inside_same _ Hne); reflexivity |].
    intros k r0 _ Hk0. exact (enclosing_lookup _ _ _ _ _ _ _ He Hk0).
  - intros t1 t2 a1 a2 H1 H2 Hn1 Hn2.
    eexists _, _, _. unfold extract.
    rewrite findDefs_eq. simpl.
    destruct (child_context (Node t1 a1 []) None).
    destruct (child_context (Node t2 a2 []) None).
    rewrite Hn1, H1. simpl. rewrite Hn2, H2. simpl.
    repeat split.
  - intros root name d c H.
    destruct (findDefs_first_write name root None false _ _ H) as [_ Hn].
    exact (Hn eq_refl).
Qed.

Lemma C7_first_write_wins_witness :
  register (Node "complexType" [("name", "Foo")] [])
    ([("Foo", mkDef "element" false (Some false) None None None)], [])
  = ([("Foo", mkDef "element" false (Some false) None None None)], [("Foo", 1)])
  /\ (exists d' c',
        visit (Node "complexType" [("name", "Foo")] []) (Some "Bar") true
          ([("Bar", mkDef "element" false (Some false) None None None);
            ("Foo", mkDef "element" false (Some false) None None None)], [])
        = Ok (d', c')
        /\ lookup "Foo" d' = Some (mkDef "element" false (Some false) None None None)
        /\ count "Foo" c' = 1)
  /\ (exists d' c',
        visit (Node "complexType" [("name", "Foo"); ("mixed", "true")] [])
          (Some "Foo") true
          ([("Foo", mkDef "element" false (Some false) None None None)], [])
        = Ok (d', c')
        /\ lookup "Foo" d'
           = Some (mkDef "element" false (Some true) None (Some complex) None)
        /\ count "Foo" c' = 1)
  /\ (exists d c r,
        extract (Node "schema" []
                   [Node "element" [("name", "Foo")] [];
                    Node "complexType" [("name", "Foo")] []]) = Ok (d, c)
        /\ lookup "Foo" d = Some r /\ tag r = "element" /\ count "Foo" c = 1)
  /\ (exists r,
        lookup "Foo" [("Foo", mkDef "element" false (Some false) None None None)]
        = Some r
        /\ declared_by (Node "element" [("name", "Foo")] []) r
        /\ S (count "Foo" [("Foo", 1)])
           = regs "Foo" (Node "schema" []
                           [Node "element" [("name", "Foo")] [];
                            Node "complexType" [("name", "Foo")] []])).
Proof.
  destruct C7_first_write_wins as (H1 & H2 & H3 & H4).
  split; [| split; [| split; [| split]]].
  - apply (H1 (Node "complexType" [("name", "Foo")] []) "Foo");
      [reflexivity | discriminate | reflexivity | reflexivity].
  - destruct (H2 (Node "complexType" [("name", "Foo")] []) (Some "Bar") true "Foo"
                [("Bar", mkDef "element" false (Some false) None None None);
                 ("Foo", mkDef "element" false (Some false) None None None)] []
                (mkDef "element" false (Some false) None None None))
      as (d' & c' & r' & Hv & Hl & _ & Hc & _ & Hsame & _);
      [reflexivity | discriminate | reflexivity | reflexivity | |].
    + intros s [= <-] _. reflexivity.
    + exists d', c'. rewrite (Hsame ltac:(discriminate)) in Hl.
      split; [exact Hv |]. split; [exact Hl | exact Hc].
  - destruct (H2 (Node "complexType" [("name", "Foo"); ("mixed", "true")] [])
                (Some "Foo") true "Foo"
                [("Foo", mkDef "element" false (Some false) None None None)] []
                (mkDef "element" false (Some false) None None None))
      as (d' & c' & r' & Hv & Hl & _ & Hc & _ & _ & Hin & _);
      [reflexivity | discriminate | reflexivity | reflexivity | |].
    + intros s [= <-] _. reflexivity.
    + exists d', c'. rewrite (Hin eq_refl) in Hl.
      split; [exact Hv |]. split; [exact Hl | exact Hc].
  - apply H3; reflexivity.
  - exact (H4 (Node "schema" []
                 [Node "element" [("name", "Foo")] [];
                  Node "complexType" [("name", "Foo")] []]) "Foo" _ _ eq_refl).
Defined.

(** ** The step relation of the resolution *)

Lemma rec_grows_refl r : rec_grows r r.
Proof. split; auto. Qed.

Lemma table_grows_refl d : table_grows d d.
Proof. intros name r H. exists r. split; [exact H | apply rec_grows_refl]. Qed.

Lemma table_grows_trans d1 d2 d3 :
  table_grows d1 d2 -> table_grows d2 d3 -> table_grows d1 d3.
Proof.
  intros H12 H23 name r H.
  destruct (H12 _ _ H) as (r2 & H2 & [Hm2 Hk2]).
  destruct (H23 _ _ H2) as (r3 & H3 & [Hm3 Hk3]).
  exists r3. split; [exact H3 |]. split; auto.
Qed.

Lemma table_grows_update name f d :
  (forall r, lookup name d = Some r -> rec_grows r (f r)) ->
  table_grows d (update name f d).
Proof.
  intros Hf k r H. destruct (String.eqb_spec name k) as [-> | Hne].
  - rewrite lookup_update_same, H. simpl. eauto.
  - rewrite lookup_update_other by exact Hne. exists r.
    split; [exact H | apply rec_grows_refl].
Qed.

Lemma pot_table_update name f d info :
  lookup name d = Some info ->
  pot_table (update name f d) + pot info = pot_table d + pot (f info).
Proof.
  unfold pot_table. induction d as [| [k r] d IH]; simpl; [discriminate |].
  destruct (k =? name); simpl.
  - intros [= ->]. lia.
  - intros H. specialize (IH H). lia.
Qed.

Lemma pot_table_bound d : pot_table d <= 2 * length d.
Proof.
  unfold pot_table. induction d as [| [k r] d IH]; simpl; [lia |].
  assert (pot r <= 2).
  { unfold pot. destruct (bool_truthy (mixed r)), (kind r); simpl; lia. }
  lia.
Qed.

Lemma change_keys d l d' : change d l d' -> keys d' = keys d.
Proof.
  induction 1; rewrite ?keys_update; congruence.
Qed.

Lemma change_length d l d' : change d l d' -> length d' = length d.
Proof.
  intros H. apply change_keys in H. unfold keys in H.
  rewrite <- (length_map fst d'), H, length_map. reflexivity.
Qed.

Lemma change_lookup_none d l d' k :
  change d l d' -> lookup k d = None -> lookup k d' = None.
Proof.
  intros H Hk. apply change_keys in H.
  destruct (lookup k d') eqn:E; [| reflexivity].
  assert (In k (keys d')) by (apply lookup_keys; congruence).
  rewrite H in *. apply lookup_keys in H0. contradiction.
Qed.

(** Every counted write uses up one unit of the potential. *)
Lemma change_pot d l d' : change d l d' -> pot_table d' + length l = pot_table d.
Proof.
  induction 1 as [d | d name info Hl Hm | d name info k Hl Hk | d1 l1 d2 l2 d3 _ IH1 _ IH2].
  - simpl. lia.
  - pose proof (pot_table_update name (set_mixed (Some true)) d info Hl) as H.
    unfold pot in H at 1 2. simpl in H. rewrite Hm in H. simpl. lia.
  - pose proof (pot_table_update name (set_kind k) d info Hl) as H.
    unfold pot in H at 1 2. simpl in H. rewrite Hk in H. simpl. lia.
  - rewrite length_app. lia.
Qed.

(** No counted write, no change of the table. *)
Lemma change_nil d l d' : change d l d' -> l = [] -> d' = d.
Proof.
  induction 1 as [d | | | d1 l1 d2 l2 d3 _ IH1 _ IH2]; try discriminate.
  - reflexivity.
  - intros H. apply app_eq_nil in H. destruct H as [-> ->].
    rewrite IH2, IH1; reflexivity.
Qed.

Lemma change_grows d l d' : change d l d' -> table_grows d d'.
Proof.
  induction 1 as [d | d name info Hl Hm | d name info k Hl Hk | d1 l1 d2 l2 d3 _ IH1 _ IH2].
  - apply table_grows_refl.
  - apply table_grows_update. intros r _. split; simpl; auto.
  - apply table_grows_update. intros r Hr. split; simpl; [auto |].
    intros k0 Hk0. congruence.
  - eapply table_grows_trans; eassumption.
Qed.

Lemma change_mixed_defined d l d' :
  change d l d' -> mixed_defined d -> mixed_defined d'.
Proof.
  induction 1; intros Hd; auto.
  - apply mixed_defined_update; [simpl; congruence | exact Hd].
  - apply mixed_defined_update; [simpl; auto | exact Hd].
Qed.

(** A record whose name is not written keeps its value. *)
Lemma change_other d l d' k :
  change d l d' -> ~ In k l -> lookup k d' = lookup k d.
Proof.
  induction 1 as [d | d name info Hl Hm | d name info k0 Hl Hk | d1 l1 d2 l2 d3 _ IH1 _ IH2];
    intros Hn.
  - reflexivity.
  - apply lookup_update_other. intros ->. apply Hn. left. reflexivity.
  - apply lookup_update_other. intros ->. apply Hn. left. reflexivity.
  - rewrite IH2, IH1; [reflexivity | |]; intros Hi; apply Hn; apply in_or_app; auto.
Qed.

(** ** [Analysis.resolve]: one scan *)

Lemma round_changes_app a b :
  round_changes (a ++ b) = round_changes a ++ round_changes b.
Proof. unfold round_changes. apply flat_map_app. Qed.

Lemma tt_run_refl allowed st : tt_run allowed st st.
Proof.
  exists [], []. repeat split.
  - apply change_none.
  - simpl. lia.
  - intros x [].
  - rewrite app_nil_r. reflexivity.
Qed.

Lemma tt_run_trans allowed st1 st2 st3 :
  tt_run allowed st1 st2 -> tt_run allowed st2 st3 -> tt_run allowed st1 st3.
Proof.
  intros (l1 & w1 & Hc1 & Hn1 & Hi1 & Ho1 & Hr1) (l2 & w2 & Hc2 & Hn2 & Hi2 & Ho2 & Hr2).
  exists (l1 ++ l2), (w1 ++ w2). repeat split.
  - eapply change_trans; eassumption.
  - rewrite length_app. lia.
  - apply incl_app; assumption.
  - rewrite Ho2, Ho1, app_assoc. reflexivity.
  - rewrite round_changes_app, Hr1, Hr2. reflexivity.
Qed.

Lemma tt_run_weaken a b st st' : incl a b -> tt_run a st st' -> tt_run b st st'.
Proof.
  intros Hab (l & w & Hc & Hn & Hi & Ho & Hr).
  exists l, w. repeat split; try assumption.
  eapply incl_tran; eassumption.
Qed.

Lemma tt_run_warn allowed d c out e :
  round_changes [e] = [] -> tt_run allowed (d, c, out) (d, c, out ++ [e]).
Proof.
  intros He. exists [], [e]. repeat split; simpl.
  - apply change_none.
  - lia.
  - intros x [].
  - exact He.
Qed.

Lemma tt_run_write d c out name d' :
  change d [name] d' -> tt_run [name] (d, c, out) (d', S c, out).
Proof.
  intros H. exists [name], []. repeat split; simpl.
  - exact H.
  - lia.
  - apply incl_refl.
  - rewrite app_nil_r. reflexivity.
Qed.

Lemma tt_raise_mixed_run name otherBare d c out info :
  lookup name d = Some info -> bool_truthy (mixed info) = false ->
  tt_run [name] (d, c, out) (TT.raise_mixed name otherBare (d, c, out)).
Proof.
  intros Hl Hm. unfold TT.raise_mixed.
  destruct (lookup otherBare d) as [oi |]; [| apply tt_run_refl].
  destruct (bool_truthy (mixed oi)); [| apply tt_run_refl].
  apply tt_run_write. eapply change_mixed; eassumption.
Qed.

Lemma tt_copy_kind_run name other otherBare st :
  tt_run [name] st (TT.copy_kind name other otherBare st).
Proof.
  destruct st as [[d c] out]. unfold TT.copy_kind.
  destruct (lookup name d) as [info |] eqn:Hl; [| apply tt_run_refl].
  destruct (lookup otherBare d) as [oi |]; [| apply tt_run_refl].
  destruct (kind info) eqn:Hk; [apply tt_run_refl |].
  destruct (kind oi) as [k |].
  - apply tt_run_write. eapply change_kind; eassumption.
  - apply tt_run_warn. reflexivity.
Qed.

Lemma tt_copy_mixed_run name other otherBare st :
  tt_run [name] st (TT.copy_mixed name other otherBare st).
Proof.
  destruct st as [[d c] out]. unfold TT.copy_mixed.
  destruct (lookup name d) as [info |] eqn:Hl; [| apply tt_run_refl].
  destruct (lookup otherBare d) as [oi |]; [| apply tt_run_refl].
  destruct (mixed info) eqn:Hm; [apply tt_run_refl |].
  destruct (mixed oi) as [[|] |]; simpl; try (apply tt_run_warn; reflexivity).
  apply tt_run_write. eapply change_mixed; [eassumption |].
  rewrite Hm. reflexivity.
Qed.

Lemma tt_infer_step_run name st : tt_run [name] st (TT.infer_step name st).
Proof.
  destruct st as [[d c] out]. unfold TT.infer_step.
  destruct (lookup name d) as [info |] eqn:Hl; [| apply tt_run_refl].
  destruct (bool_truthy (mixed info)) eqn:Hm; [apply tt_run_refl |].
  destruct (other_of info) as [other |]; [| apply tt_run_refl].
  destruct (negb (other =? "")); [| apply tt_run_refl].
  destruct (lookup (bare other) d); [| apply tt_run_warn; reflexivity].
  eapply tt_run_trans; [| apply tt_copy_mixed_run].
  eapply tt_run_trans; [| apply tt_copy_kind_run].
  eapply tt_raise_mixed_run; eassumption.
Qed.

Lemma tt_infer_from_run names : forall st, tt_run names st (TT.infer_from names st).
Proof.
  unfold TT.infer_from.
  induction names as [| name names IH]; intros st; simpl; [apply tt_run_refl |].
  eapply tt_run_trans.
  - eapply tt_run_weaken; [| apply tt_infer_step_run].
    intros x [<- | []]. left. reflexivity.
  - eapply tt_run_weaken; [| apply IH]. apply incl_tl, incl_refl.
Qed.

(** One scan makes as many counted writes as it reports, and prints
    warnings only. *)
Lemma tt_infer_change d :
  exists l, change d l (fst (fst (TT.infer d)))
    /\ snd (fst (TT.infer d)) = length l
    /\ round_changes (snd (TT.infer d)) = [].
Proof.
  destruct (tt_infer_from_run (keys d) (d, 0, [])) as (l & w & Hc & Hn & _ & Ho & Hr).
  exists l. unfold TT.infer. simpl in *. rewrite Ho. auto.
Qed.

(** A scan that reports no change leaves the table as it was. *)
Lemma tt_infer_zero d :
  snd (fst (TT.infer d)) = 0 -> fst (fst (TT.infer d)) = d.
Proof.
  destruct (tt_infer_change d) as (l & Hc & Hn & _). intros H0.
  rewrite H0 in Hn. symmetry in Hn. apply length_zero_iff_nil in Hn.
  eapply change_nil; eassumption.
Qed.

(** ** [Analysis.resolve]: the loop *)

Lemma positive_sum l : Forall (fun c => 0 < c) l -> length l <= list_sum l.
Proof.
  induction 1 as [| c l Hc _ IH]; simpl; lia.
Qed.

Lemma run_facts_bounds d i d' j out :
  run_facts d i d' j out ->
  list_sum (round_changes out) <= pot_table d
  /\ length (round_changes out) <= pot_table d.
Proof.
  intros ((l & Hc & Hl) & _ & Hpos).
  apply change_pot in Hc. apply positive_sum in Hpos. lia.
Qed.

(** More scans than the potential of the table are enough for the loop to
    come to its [break]. *)
Lemma tt_resolve_loop_enough fuel :
  forall d i, pot_table d < fuel ->
    exists d' j out,
      TT.resolve_loop fuel d i = Some (d', j, out)
      /\ run_facts d i d' j out
      /\ fst (TT.infer d') = (d', 0).
Proof.
  induction fuel as [| fuel IH]; intros d i Hlt; [lia |].
  simpl. destruct (tt_infer_change d) as (l & Hc & Hn & Hr).
  destruct (TT.infer d) as [[d1 c1] o1] eqn:E. simpl in Hc, Hn, Hr.
  destruct (Nat.eqb_spec c1 0) as [-> | Hpos].
  - assert (d1 = d) as ->.
    { symmetry in Hn. apply length_zero_iff_nil in Hn. eapply change_nil; eassumption. }
    exists d, (S i), o1. split; [reflexivity |]. split.
    + unfold run_facts. rewrite Hr. simpl. repeat split.
      * exists []. split; [apply change_none | reflexivity].
      * lia.
      * constructor.
    + rewrite E. reflexivity.
  - pose proof (change_pot _ _ _ Hc) as Hp.
    assert (Hlt1 : pot_table d1 < fuel). { lia. }
    destruct (IH d1 (S i) Hlt1) as (d2 & j & rest & -> & ((l2 & Hc2 & Hl2) & Hj & Hf) & Hz).
    exists d2, j, (o1 ++ Round (S i) c1 :: rest). split; [reflexivity |]. split; [| exact Hz].
    unfold run_facts. rewrite round_changes_app, Hr. simpl. fold (round_changes rest).
    repeat split.
    + exists (l ++ l2). split; [eapply change_trans; eassumption |].
      rewrite length_app. lia.
    + lia.
    + constructor; [lia | exact Hf].
Qed.

Lemma tt_resolve_loop_more fuel :
  forall d i r fuel', TT.resolve_loop fuel d i = Some r -> fuel <= fuel' ->
    TT.resolve_loop fuel' d i = Some r.
Proof.
  induction fuel as [| fuel IH]; intros d i r fuel' H Hle; [discriminate |].
  destruct fuel' as [| fuel']; [lia |]. simpl in *.
  destruct (TT.infer d) as [[d1 c1] o1].
  destruct (c1 =? 0)%nat; [exact H |].
  destruct (TT.resolve_loop fuel d1 (S i)) as [[[d2 j] rest] |] eqn:E; [| discriminate].
  rewrite (IH _ _ _ fuel' E) by lia. exact H.
Qed.

(** On a table where nothing is known, a scan changes nothing. *)
Lemma blank_lookup d name r :
  blank d -> lookup name d = Some r ->
  bool_truthy (mixed r) = false /\ kind r = None.
Proof.
  intros Hb Hl. apply lookup_In in Hl. unfold blank in Hb.
  rewrite Forall_forall in Hb. exact (Hb _ Hl).
Qed.

Lemma pot_table_cons k r d : pot_table ((k, r) :: d) = pot r + pot_table d.
Proof. reflexivity. Qed.

Lemma pot_full_blank d : pot_table d = 2 * length d -> blank d.
Proof.
  unfold blank. induction d as [| [k r] d IH]; intros H.
  - constructor.
  - rewrite pot_table_cons in H. cbn [length] in H.
    pose proof (pot_table_bound d) as Hb.
    assert (Hr : pot r = 2 /\ pot_table d = 2 * length d).
    { assert (pot r <= 2); [| lia].
      unfold pot. destruct (bool_truthy (mixed r)), (kind r); simpl; lia. }
    destruct Hr as [Hr Hd]. constructor; [| exact (IH Hd)].
    simpl. unfold pot in Hr.
    destruct (bool_truthy (mixed r)), (kind r); simpl in Hr; split;
      try reflexivity; lia.
Qed.

Lemma tt_infer_step_blank name d c out :
  blank d -> exists out', TT.infer_step name (d, c, out) = (d, c, out').
Proof.
  intros Hb. unfold TT.infer_step.
  destruct (lookup name d) as [info |] eqn:Hl; [| eauto].
  destruct (bool_truthy (mixed info)); [eauto |].
  destruct (other_of info) as [other |]; [| eauto].
  destruct (negb (other =? "")); [| eauto].
  destruct (lookup (bare other) d) as [oi |] eqn:Ho; [| eauto].
  destruct (blank_lookup _ _ _ Hb Hl) as [Hm Hk].
  destruct (blank_lookup _ _ _ Hb Ho) as [Hom Hok].
  unfold TT.raise_mixed. rewrite Ho, Hom.
  unfold TT.copy_kind. rewrite Hl, Ho, Hk, Hok.
  unfold TT.copy_mixed. rewrite Hl, Ho, Hom.
  destruct (mixed info); eauto.
Qed.

Lemma tt_infer_from_blank d names :
  blank d -> forall c out, exists out', TT.infer_from names (d, c, out) = (d, c, out').
Proof.
  intros Hb. unfold TT.infer_from.
  induction names as [| name names IH]; intros c out; cbn [fold_left]; [eauto |].
  destruct (tt_infer_step_blank name d c out Hb) as (out' & ->). apply IH.
Qed.

Lemma tt_infer_blank d : blank d -> snd (fst (TT.infer d)) = 0.
Proof.
  intros Hb. unfold TT.infer.
  destruct (tt_infer_from_blank d (keys d) Hb 0 []) as (out' & ->). reflexivity.
Qed.

Lemma tt_resolve_loop_blank d fuel i :
  blank d ->
  exists out, TT.resolve_loop (S fuel) d i = Some (d, S i, out)
    /\ round_changes out = [].
Proof.
  intros Hb. cbn [TT.resolve_loop].
  pose proof (tt_infer_blank d Hb) as H0.
  pose proof (tt_infer_zero d H0) as Hd.
  destruct (tt_infer_change d) as (l & _ & _ & Hr).
  destruct (TT.infer d) as [[d1 c1] o1]. simpl in *. subst.
  exists o1. split; [reflexivity | exact Hr].
Qed.

(** [Analysis.resolve] on any table: it halts, whatever the number of scans
    allowed beyond [2 * len(definitions)], and what it has done then. *)
Lemma tt_resolve_spec d :
  exists d' i out,
    (forall fuel, 2 * length d < fuel -> TT.resolve_loop fuel d 0 = Some (d', i, out))
    /\ TT.resolve d = (d', i, out)
    /\ run_facts d 0 d' i out
    /\ fst (TT.infer d') = (d', 0)
    /\ i <= Nat.max 1 (2 * length d).
Proof.
  pose proof (pot_table_bound d) as Hb.
  destruct (tt_resolve_loop_enough (S (pot_table d)) d 0) as (d' & i & out & Hr & Hf & Hz);
    [lia |].
  assert (Hall : forall fuel, 2 * length d < fuel ->
                              TT.resolve_loop fuel d 0 = Some (d', i, out)).
  { intros fuel Hlt. eapply tt_resolve_loop_more; [exact Hr | lia]. }
  exists d', i, out. split; [exact Hall |]. split.
  { unfold TT.resolve. rewrite Hall by lia. reflexivity. }
  split; [exact Hf |]. split; [exact Hz |].
  destruct (Nat.eq_dec (pot_table d) (2 * length d)) as [Hfull | Hless].
  - destruct (tt_resolve_loop_blank d (pot_table d) 0 (pot_full_blank d Hfull))
      as (out0 & Hr0 & Hrc).
    rewrite Hr in Hr0. injection Hr0 as _ -> ->. lia.
  - destruct (run_facts_bounds _ _ _ _ _ Hf) as [_ Hlen].
    destruct Hf as (_ & -> & _). lia.
Qed.

(** ** [SchemaAnalysis.resolve] *)

Lemma xs_run_refl allowed st : xs_run allowed st st.
Proof.
  exists []. repeat split.
  - apply change_none.
  - simpl. lia.
  - intros x [].
Qed.

Lemma xs_run_trans allowed st1 st2 st3 :
  xs_run allowed st1 st2 -> xs_run allowed st2 st3 -> xs_run allowed st1 st3.
Proof.
  intros (l1 & Hc1 & Hn1 & Hi1) (l2 & Hc2 & Hn2 & Hi2).
  exists (l1 ++ l2). repeat split.
  - eapply change_trans; eassumption.
  - rewrite length_app. lia.
  - apply incl_app; assumption.
Qed.

Lemma xs_run_weaken a b st st' : incl a b -> xs_run a st st' -> xs_run b st st'.
Proof.
  intros Hab (l & Hc & Hn & Hi). exists l. repeat split; try assumption.
  eapply incl_tran; eassumption.
Qed.

Lemma xs_run_write d c name d' :
  change d [name] d' -> xs_run [name] (d, c) (d', S c).
Proof.
  intros H. exists [name]. repeat split; simpl.
  - exact H.
  - lia.
  - apply incl_refl.
Qed.

Lemma xs_raise_mixed_run name other d c info :
  lookup name d = Some info -> bool_truthy (mixed info) = false ->
  xs_run [name] (d, c) (XS.raise_mixed name other (d, c)).
Proof.
  intros Hl Hm. unfold XS.raise_mixed.
  destruct (lookup other d) as [oi |]; [| apply xs_run_refl].
  destruct (bool_truthy (mixed oi)); [| apply xs_run_refl].
  apply xs_run_write. eapply change_mixed; eassumption.
Qed.

Lemma xs_copy_kind_run name other st :
  xs_run [name] st (XS.copy_kind name other st).
Proof.
  destruct st as [d c]. unfold XS.copy_kind.
  destruct (lookup name d) as [info |] eqn:Hl; [| apply xs_run_refl].
  destruct (lookup other d) as [oi |]; [| apply xs_run_refl].
  destruct (kind info) eqn:Hk; [apply xs_run_refl |].
  destruct (kind oi) as [k |]; [| apply xs_run_refl].
  apply xs_run_write. eapply change_kind; eassumption.
Qed.

Lemma xs_infer_step_run name st st' :
  XS.infer_step name st = Ok st' -> xs_run [name] st st'.
Proof.
  destruct st as [d c]. unfold XS.infer_step.
  destruct (lookup name d) as [info |] eqn:Hl;
    [| intros [= <-]; apply xs_run_refl].
  destruct (bool_truthy (mixed info)) eqn:Hm;
    [intros [= <-]; apply xs_run_refl |].
  destruct (other_of info) as [other |]; [| intros [= <-]; apply xs_run_refl].
  destruct (negb (other =? "")); [| intros [= <-]; apply xs_run_refl].
  destruct (lookup (bare other) d); [| discriminate].
  intros [= <-].
  eapply xs_run_trans; [| apply xs_copy_kind_run].
  eapply xs_raise_mixed_run; eassumption.
Qed.

Lemma xs_fold_raise names e :
  fold_left (fun acc name => let* s := acc in XS.infer_step name s) names (Raise e)
  = Raise e.
Proof.
  induction names as [| name names IH]; [reflexivity | exact IH].
Qed.

Lemma xs_infer_from_cons name names st :
  XS.infer_from (name :: names) st =
  match XS.infer_step name st with
  | Ok s => XS.infer_from names s
  | Raise e => Raise e
  end.
Proof.
  unfold XS.infer_from. cbn [fold_left bind].
  destruct (XS.infer_step name st); [reflexivity | apply xs_fold_raise].
Qed.

Lemma xs_infer_from_run names :
  forall st st', XS.infer_from names st = Ok st' -> xs_run names st st'.
Proof.
  induction names as [| name names IH]; intros st st' H.
  - injection H as <-. apply xs_run_refl.
  - rewrite xs_infer_from_cons in H.
    destruct (XS.infer_step name st) as [s | e] eqn:E; [| discriminate].
    eapply xs_run_trans.
    + eapply xs_run_weaken; [| eapply xs_infer_step_run; exact E].
      intros x [<- | []]. left. reflexivity.
    + eapply xs_run_weaken; [| apply IH; exact H]. apply incl_tl, incl_refl.
Qed.

Lemma xs_infer_change d d1 c1 :
  XS.infer d = Ok (d1, c1) -> exists l, change d l d1 /\ c1 = length l.
Proof.
  intros H. destruct (xs_infer_from_run _ _ _ H) as (l & Hc & Hn & _).
  exists l. split; [exact Hc | exact Hn].
Qed.

Lemma xs_infer_zero d d1 : XS.infer d = Ok (d1, 0) -> d1 = d.
Proof.
  intros H. destruct (xs_infer_change _ _ _ H) as (l & Hc & Hn).
  symmetry in Hn. apply length_zero_iff_nil in Hn. eapply change_nil; eassumption.
Qed.

Lemma xs_resolve_loop_enough fuel :
  forall d i, pot_table d < fuel ->
    exists r, XS.resolve_loop fuel d i = Some r
      /\ match r with
         | Raise _ => True
         | Ok (d', j, out) => run_facts d i d' j out /\ XS.infer d' = Ok (d', 0)
         end.
Proof.
  induction fuel as [| fuel IH]; intros d i Hlt; [lia |].
  cbn [XS.resolve_loop].
  destruct (XS.infer d) as [[d1 c1] | e] eqn:E; [| exists (Raise e); auto].
  destruct (xs_infer_change _ _ _ E) as (l & Hc & Hn).
  destruct (Nat.eqb_spec c1 0) as [-> | Hpos].
  - pose proof (xs_infer_zero _ _ E) as ->.
    exists (Ok (d, S i, [])). split; [reflexivity |]. split; [| exact E].
    unfold run_facts. simpl. repeat split.
    + exists []. split; [apply change_none | reflexivity].
    + lia.
    + constructor.
  - pose proof (change_pot _ _ _ Hc) as Hp.
    assert (Hlt1 : pot_table d1 < fuel) by lia.
    destruct (IH d1 (S i) Hlt1) as (r & -> & Hr).
    destruct r as [[[d2 j] rest] | e]; [| exists (Raise e); auto].
    destruct Hr as (((l2 & Hc2 & Hl2) & Hj & Hf) & Hz).
    exists (Ok (d2, j, Round (S i) c1 :: rest)). split; [reflexivity |].
    split; [| exact Hz].
    unfold run_facts. simpl. fold (round_changes rest). repeat split.
    + exists (l ++ l2). split; [eapply change_trans; eassumption |].
      rewrite length_app. lia.
    + lia.
    + constructor; [lia | exact Hf].
Qed.

Lemma xs_resolve_loop_more fuel :
  forall d i r fuel', XS.resolve_loop fuel d i = Some r -> fuel <= fuel' ->
    XS.resolve_loop fuel' d i = Some r.
Proof.
  induction fuel as [| fuel IH]; intros d i r fuel' H Hle; [discriminate |].
  destruct fuel' as [| fuel']; [lia |]. cbn [XS.resolve_loop] in *.
  destruct (XS.infer d) as [[d1 c1] | e]; [| exact H].
  destruct (c1 =? 0)%nat; [exact H |].
  destruct (XS.resolve_loop fuel d1 (S i)) as [r1 |] eqn:E.
  - rewrite (IH _ _ _ fuel' E) by lia. exact H.
  - discriminate.
Qed.

Lemma xs_infer_step_blank name d c :
  blank d -> forall st', XS.infer_step name (d, c) = Ok st' -> st' = (d, c).
Proof.
  intros Hb st'. unfold XS.infer_step.
  destruct (lookup name d) as [info |] eqn:Hl; [| intros [= <-]; reflexivity].
  destruct (bool_truthy (mixed info)); [intros [= <-]; reflexivity |].
  destruct (other_of info) as [other |]; [| intros [= <-]; reflexivity].
  destruct (negb (other =? "")); [| intros [= <-]; reflexivity].
  destruct (lookup (bare other) d) as [oi |] eqn:Ho; [| discriminate].
  destruct (blank_lookup _ _ _ Hb Hl) as [Hm Hk].
  destruct (blank_lookup _ _ _ Hb Ho) as [Hom Hok].
  unfold XS.raise_mixed. rewrite Ho, Hom.
  unfold XS.copy_kind. rewrite Hl, Ho, Hk, Hok.
  intros [= <-]. reflexivity.
Qed.

Lemma xs_infer_from_blank d names :
  blank d -> forall c st', XS.infer_from names (d, c) = Ok st' -> st' = (d, c).
Proof.
  intros Hb. induction names as [| name names IH]; intros c st' H.
  - injection H as <-. reflexivity.
  - rewrite xs_infer_from_cons in H.
    destruct (XS.infer_step name (d, c)) as [s | e] eqn:E; [| discriminate].
    apply (xs_infer_step_blank _ _ _ Hb) in E. subst s. apply IH. exact H.
Qed.

(** [SchemaAnalysis.resolve] on any table: it halts, by an exception or at
    its [break], and what it has done in the second case. *)
Lemma xs_resolve_spec d :
  exists r,
    (forall fuel, 2 * length d < fuel -> XS.resolve_loop fuel d 0 = Some r)
    /\ XS.resolve d = r
    /\ match r with
       | Raise _ => True
       | Ok (d', i, out) =>
           run_facts d 0 d' i out /\ XS.infer d' = Ok (d', 0)
           /\ i <= Nat.max 1 (2 * length d)
       end.
Proof.
  pose proof (pot_table_bound d) as Hb.
  destruct (xs_resolve_loop_enough (S (pot_table d)) d 0) as (r & Hr & Hf); [lia |].
  assert (Hall : forall fuel, 2 * length d < fuel -> XS.resolve_loop fuel d 0 = Some r).
  { intros fuel Hlt. eapply xs_resolve_loop_more; [exact Hr | lia]. }
  exists r. split; [exact Hall |]. split.
  { unfold XS.resolve. rewrite Hall by lia. reflexivity. }
  destruct r as [[[d' i] out] | e]; [| exact I].
  destruct Hf as [Hf Hz]. split; [exact Hf |]. split; [exact Hz |].
  destruct (Nat.eq_dec (pot_table d) (2 * length d)) as [Hfull | Hless].
  - cbn [XS.resolve_loop] in Hr.
    destruct (XS.infer d) as [[d1 c1] | e] eqn:E; [| discriminate].
    pose proof (xs_infer_from_blank d (keys d) (pot_full_blank d Hfull) 0 _ E) as Heq.
    injection Heq as -> ->. simpl in Hr. injection Hr as _ <- _. lia.
  - destruct (run_facts_bounds _ _ _ _ _ Hf) as [_ Hlen].
    destruct Hf as (_ & -> & _). lia.
Qed.

(** ** Monotonicity, termination, idempotence *)

Lemma tt_infer_grows d : table_grows d (fst (fst (TT.infer d))).
Proof.
  destruct (tt_infer_change d) as (l & Hc & _). eapply change_grows. exact Hc.
Qed.

Lemma tt_rounds_grows n : forall d, table_grows d (tt_rounds n d).
Proof.
  induction n as [| n IH]; intros d; simpl; [apply table_grows_refl |].
  eapply table_grows_trans; [apply tt_infer_grows | apply IH].
Qed.

Lemma tt_rounds_add n m d : tt_rounds (n + m) d = tt_rounds m (tt_rounds n d).
Proof.
  revert d. induction n as [| n IH]; intros d; simpl; [reflexivity | apply IH].
Qed.

(** C4. Resolution is monotone on every record.  In [Analysis.resolve]:
    one execution of the loop body of [infer], one scan, any number of
    further scans after any number of scans, and the whole of [resolve]
    each leave a true ["mixed"] true and a set ["kind"] as it is, on every
    record of every table.  In [SchemaAnalysis.resolve] the same holds for a
    scan and for [resolve], whenever they return. *)
Theorem C4_resolution_monotone :
  (forall name st, table_grows (fst (fst st)) (fst (fst (TT.infer_step name st))))
  /\ (forall d, table_grows d (fst (fst (TT.infer d))))
  /\ (forall d n m, table_grows (tt_rounds n d) (tt_rounds (n + m) d))
  /\ (forall d, table_grows d (fst (fst (TT.resolve d))))
  /\ (forall d d1 c1, XS.infer d = Ok (d1, c1) -> table_grows d d1)
  /\ (forall d d' i out, XS.resolve d = Ok (d', i, out) -> table_grows d d').
Proof.
  repeat split.
  - intros name st. destruct (tt_infer_step_run name st) as (l & w & Hc & _).
    eapply change_grows. exact Hc.
  - apply tt_infer_grows.
  - intros d n m. rewrite tt_rounds_add. apply tt_rounds_grows.
  - intros d. destruct (tt_resolve_spec d) as (d' & i & out & _ & -> & Hf & _).
    destruct Hf as ((l & Hc & _) & _). eapply change_grows. exact Hc.
  - intros d d1 c1 H. destruct (xs_infer_change _ _ _ H) as (l & Hc & _).
    eapply change_grows. exact Hc.
  - intros d d' i out H. destruct (xs_resolve_spec d) as (r & _ & Hr & Hf).
    rewrite H in Hr. subst r. destruct Hf as (((l & Hc & _) & _) & _).
    eapply change_grows. exact Hc.
Qed.

Lemma C4_resolution_monotone_witness :
  table_grows chain_table
    [("r", mkDef "element" false (Some true) (Some "tei:q") (Some complex) None);
     ("q", mkDef "element" false (Some true) None (Some complex) (Some "p"));
     ("p", mkDef "element" false (Some true) None (Some complex) None)].
Proof.
  destruct C4_resolution_monotone as (_ & _ & _ & _ & _ & H).
  apply (H chain_table _ 3 [Round 1 2; Round 2 2]). vm_compute. reflexivity.
Defined.

(** C5. The resolution loop halts on every table, whatever its reference
    graph.  [Analysis.resolve] comes to its [break] as soon as it is allowed
    more than [2 * len(definitions)] scans, with the same result for every
    such allowance; the scan it stops at is the first with zero changes (the
    scans before it each reported at least one); the changes reported over
    all rounds are at most [2 * len(definitions)], so are the rounds that
    report changes, and so is the number [i] of scans made, the last one
    included, unless the table is empty, where that one scan is made.
    [SchemaAnalysis.resolve] halts in the same way, by its [break] with the
    same bounds or by an exception. *)
Theorem C5_resolution_halts :
  (forall d, exists d' i out,
      (forall fuel, 2 * length d < fuel ->
                    TT.resolve_loop fuel d 0 = Some (d', i, out))
      /\ TT.resolve d = (d', i, out)
      /\ i = S (length (round_changes out))
      /\ Forall (fun c => 0 < c) (round_changes out)
      /\ fst (TT.infer d') = (d', 0)
      /\ list_sum (round_changes out) <= 2 * length d
      /\ length (round_changes out) <= 2 * length d
      /\ i <= Nat.max 1 (2 * length d))
  /\ (forall d, exists r,
      (forall fuel, 2 * length d < fuel -> XS.resolve_loop fuel d 0 = Some r)
      /\ XS.resolve d = r
      /\ match r with
         | Raise _ => True
         | Ok (d', i, out) =>
             i = S (length (round_changes out))
             /\ Forall (fun c => 0 < c) (round_changes out)
             /\ XS.infer d' = Ok (d', 0)
             /\ list_sum (round_changes out) <= 2 * length d
             /\ length (round_changes out) <= 2 * length d
             /\ i <= Nat.max 1 (2 * length d)
         end).
Proof.
  split.
  - intros d. destruct (tt_resolve_spec d) as (d' & i & out & Hall & Hr & Hf & Hz & Hi).
    pose proof (pot_table_bound d) as Hb.
    destruct (run_facts_bounds _ _ _ _ _ Hf) as [Hsum Hlen].
    destruct Hf as (_ & Hj & Hpos).
    exists d', i, out. repeat split; try assumption; lia.
  - intros d. destruct (xs_resolve_spec d) as (r & Hall & Hr & Hf).
    exists r. split; [exact Hall |]. split; [exact Hr |].
    destruct r as [[[d' i] out] | e]; [| exact I].
    destruct Hf as (Hf & Hz & Hi).
    pose proof (pot_table_bound d) as Hb.
    destruct (run_facts_bounds _ _ _ _ _ Hf) as [Hsum Hlen].
    destruct Hf as (_ & Hj & Hpos).
    repeat split; try assumption; lia.
Qed.

Lemma C5_resolution_halts_witness :
  (exists r, TT.resolve_loop 7 chain_table 0 = Some r)
  /\ (exists r, TT.resolve_loop 5 cycle_table 0 = Some r)
  /\ (exists r, XS.resolve_loop 5 cycle_table 0 = Some r).
Proof.
  split; [| split].
  - destruct (proj1 C5_resolution_halts chain_table) as (d' & i & out & H & _).
    exists (d', i, out). apply H. simpl. lia.
  - destruct (proj1 C5_resolution_halts cycle_table) as (d' & i & out & H & _).
    exists (d', i, out). apply H. simpl. lia.
  - destruct (proj2 C5_resolution_halts cycle_table) as (r & H & _).
    exists r. apply H. simpl. lia.
Defined.

Lemma tt_resolve_converged d :
  fst (TT.infer d) = (d, 0) -> TT.resolve d = (d, 1, snd (TT.infer d)).
Proof.
  intros H. unfold TT.resolve. cbn [TT.resolve_loop].
  destruct (TT.infer d) as [[d1 c1] o1]. simpl in H. injection H as -> ->.
  reflexivity.
Qed.

Lemma xs_resolve_converged d :
  XS.infer d = Ok (d, 0) -> XS.resolve d = Ok (d, 1, []).
Proof.
  intros H. unfold XS.resolve. cbn [XS.resolve_loop]. rewrite H. reflexivity.
Qed.

(** C6. Resolution is idempotent.  On the table [Analysis.resolve] has
    left, a scan reports zero changes and returns the table as it is, and a
    second [resolve] makes that one scan and returns the same table; so for
    [SchemaAnalysis.resolve], when its first run returned. *)
Theorem C6_resolution_idempotent :
  (forall d d' i out, TT.resolve d = (d', i, out) ->
      fst (TT.infer d') = (d', 0)
      /\ TT.resolve d' = (d', 1, snd (TT.infer d')))
  /\ (forall d d' i out, XS.resolve d = Ok (d', i, out) ->
      XS.infer d' = Ok (d', 0)
      /\ XS.resolve d' = Ok (d', 1, [])).
Proof.
  split.
  - intros d d' i out H.
    destruct (tt_resolve_spec d) as (d0 & i0 & out0 & _ & Hr & _ & Hz & _).
    rewrite H in Hr. injection Hr as <- <- <-.
    split; [exact Hz | apply tt_resolve_converged; exact Hz].
  - intros d d' i out H.
    destruct (xs_resolve_spec d) as (r & _ & Hr & Hf).
    rewrite H in Hr. subst r. destruct Hf as (_ & Hz & _).
    split; [exact Hz | apply xs_resolve_converged; exact Hz].
Qed.

Lemma C6_resolution_idempotent_witness :
  TT.resolve (fst (fst (TT.resolve chain_table)))
  = (fst (fst (TT.resolve chain_table)), 1,
     snd (TT.infer (fst (fst (TT.resolve chain_table)))))
  /\ XS.resolve (fst (fst (TT.resolve chain_table)))
     = Ok (fst (fst (TT.resolve chain_table)), 1, []).
Proof.
  destruct C6_resolution_idempotent as [Htt Hxs]. split.
  - apply (Htt chain_table _ 3
             [WarnKind "tei:q"; Round 1 2; Round 2 2]). vm_compute. reflexivity.
  - apply (Hxs chain_table _ 3 [Round 1 2; Round 2 2]). vm_compute. reflexivity.
Defined.

(** ** Dangling references *)

Lemma tt_infer_step_dangling d name other info c out :
  dangling d name other info ->
  TT.infer_step name (d, c, out)
  = (d, c, if bool_truthy (mixed info) then out else out ++ [WarnUndefined other]).
Proof.
  intros (Hl & Ho & Hne & Hb). unfold TT.infer_step. rewrite Hl.
  destruct (bool_truthy (mixed info)); [reflexivity |].
  rewrite Ho. destruct (String.eqb_spec other ""); [contradiction |].
  simpl. rewrite Hb. reflexivity.
Qed.

Lemma dangling_change d l d' name other info :
  dangling d name other info -> change d l d' -> ~ In name l ->
  dangling d' name other info.
Proof.
  intros (Hl & Ho & Hne & Hb) Hc Hn. repeat split; try assumption.
  - rewrite (change_other _ _ _ _ Hc Hn). exact Hl.
  - eapply change_lookup_none; eassumption.
Qed.

Lemma tt_infer_from_dangling name other info names :
  forall st, dangling (fst (fst st)) name other info ->
    dangling (fst (fst (TT.infer_from names st))) name other info
    /\ exists w, snd (TT.infer_from names st) = snd st ++ w
         /\ (In name names -> bool_truthy (mixed info) = false ->
             In (WarnUndefined other) w).
Proof.
  unfold TT.infer_from.
  induction names as [| n names IH]; intros [[d c] out] Hd; cbn [fold_left].
  - split; [exact Hd |]. exists []. rewrite app_nil_r. split; [reflexivity | intros []].
  - simpl in Hd. destruct (String.eqb_spec n name) as [-> | Hne].
    + rewrite (tt_infer_step_dangling _ _ _ _ c out Hd).
      destruct (IH (d, c, if bool_truthy (mixed info) then out
                          else out ++ [WarnUndefined other]) Hd)
        as (Hd' & w & Hw & Hin).
      split; [exact Hd' |]. rewrite Hw. cbn [snd].
      destruct (bool_truthy (mixed info)).
      * exists w. split; [reflexivity |]. intros _ [=].
      * exists ([WarnUndefined other] ++ w). rewrite app_assoc.
        split; [reflexivity |]. intros _ _. left. reflexivity.
    + destruct (tt_infer_step_run n (d, c, out)) as (l & w1 & Hc & _ & Hi & Ho & _).
      assert (Hn : ~ In name l).
      { intros H. apply Hi in H. destruct H as [H | []]. congruence. }
      pose proof (dangling_change _ _ _ _ _ _ Hd Hc Hn) as Hd1.
      destruct (IH _ Hd1) as (Hd' & w & Hw & Hin).
      split; [exact Hd' |]. rewrite Hw, Ho. cbn [snd].
      exists (w1 ++ w). rewrite app_assoc. split; [reflexivity |].
      intros [H | H] Hm; [congruence |]. apply in_or_app. right. auto.
Qed.

Lemma tt_infer_dangling d name other info :
  dangling d name other info ->
  dangling (fst (fst (TT.infer d))) name other info
  /\ (bool_truthy (mixed info) = false -> In (WarnUndefined other) (snd (TT.infer d))).
Proof.
  intros Hd. unfold TT.infer.
  destruct (tt_infer_from_dangling name other info (keys d) (d, 0, []) Hd)
    as (Hd' & w & Hw & Hin).
  split; [exact Hd' |]. intros Hm. rewrite Hw. simpl. apply Hin; [| exact Hm].
  apply lookup_keys. destruct Hd as (Hl & _). congruence.
Qed.

Lemma tt_resolve_loop_dangling name other info fuel :
  forall d i d' j out,
    TT.resolve_loop fuel d i = Some (d', j, out) ->
    dangling d name other info ->
    dangling d' name other info
    /\ (bool_truthy (mixed info) = false -> In (WarnUndefined other) out).
Proof.
  induction fuel as [| fuel IH]; intros d i d' j out H Hd; [discriminate |].
  cbn [TT.resolve_loop] in H.
  destruct (tt_infer_dangling d name other info Hd) as [Hd1 Hw].
  destruct (TT.infer d) as [[d1 c1] o1]. simpl in Hd1, Hw.
  destruct (c1 =? 0)%nat.
  - injection H as <- <- <-. split; assumption.
  - destruct (TT.resolve_loop fuel d1 (S i)) as [[[d2 j2] rest] |] eqn:E; [| discriminate].
    injection H as <- <- <-.
    destruct (IH _ _ _ _ _ E Hd1) as [Hd2 _]. split; [exact Hd2 |].
    intros Hm. apply in_or_app. left. auto.
Qed.

(** In [Analysis.resolve] a dangling reference is not fatal.  On a record
    whose consulted reference is not a key, the loop body of [infer] changes
    neither the table nor [changed]; it prints the warning, unless the
    record is skipped as already mixed; the scan goes on with the records
    that follow; and after the scan as after the whole of [resolve], which
    returns, the record is the one from before. *)
Lemma tt_dangling_not_fatal d name other info :
  dangling d name other info ->
  (forall c out rest,
      TT.infer_from (name :: rest) (d, c, out)
      = TT.infer_from rest
          (d, c, if bool_truthy (mixed info) then out
                 else out ++ [WarnUndefined other]))
  /\ lookup name (fst (fst (TT.infer d))) = Some info
  /\ exists d' i out,
       TT.resolve d = (d', i, out)
       /\ lookup name d' = Some info
       /\ (bool_truthy (mixed info) = false -> In (WarnUndefined other) out).
Proof.
  intros Hd. split; [| split].
  - intros c out rest. unfold TT.infer_from. cbn [fold_left].
    rewrite (tt_infer_step_dangling _ _ _ _ c out Hd). reflexivity.
  - destruct (tt_infer_dangling d name other info Hd) as [(Hl & _) _]. exact Hl.
  - destruct (tt_resolve_spec d) as (d' & i & out & Hall & Hr & _).
    exists d', i, out. split; [exact Hr |].
    assert (Hlt : 2 * length d < S (2 * length d)) by lia.
    destruct (tt_resolve_loop_dangling name other info _ _ _ _ _ _ (Hall _ Hlt) Hd)
      as [(Hl & _) Hw].
    split; assumption.
Qed.

Lemma tt_dangling_not_fatal_example :
  exists d' i out,
    TT.resolve [("s", mkDef "element" false (Some false) (Some "missing") None None)]
    = (d', i, out)
    /\ lookup "s" d' = Some (mkDef "element" false (Some false) (Some "missing") None None)
    /\ In (WarnUndefined "missing") out.
Proof.
  destruct (tt_dangling_not_fatal
              [("s", mkDef "element" false (Some false) (Some "missing") None None)]
              "s" "missing"
              (mkDef "element" false (Some false) (Some "missing") None None))
    as (_ & _ & d' & i & out & Hr & Hl & Hw).
  - repeat split; try reflexivity. discriminate.
  - exists d', i, out. repeat split; try assumption. apply Hw. reflexivity.
Defined.

(** C3. The claim holds of [Analysis.resolve] ([tt_dangling_not_fatal]) and
    fails on [SchemaAnalysis.resolve]: on the schema of scenario E,
    extraction gives the one record [s] with the reference [missing], and
    [definitions[other]] raises [KeyError], from [resolve] as from
    [interpret], where [Analysis] returns the report with the record
    unchanged. *)
Theorem C3_dangling_reference_raises :
  extract scenarioE
  = Ok ([("s", mkDef "element" false (Some false) (Some "missing") None None)], [])
  /\ XS.resolve [("s", mkDef "element" false (Some false) (Some "missing") None None)]
     = Raise (KeyError "missing")
  /\ XS.interpret scenarioE true = Raise (KeyError "missing")
  /\ TT.resolve [("s", mkDef "element" false (Some false) (Some "missing") None None)]
     = ([("s", mkDef "element" false (Some false) (Some "missing") None None)], 1,
        [WarnUndefined "missing"])
  /\ TT.interpret (TT.mkAnalysis true (Some scenarioE) None) false
     = Ok (AsList [("s", None, Some false)], []).
Proof. repeat split. Qed.

(** ** The copy of ["mixed"] *)

(** After the check [if otherInfo["mixed"]], a record whose ["mixed"] is
    [None] never takes an explicit [False] from the record it refers to:
    the warning is printed and nothing changes. *)
Lemma tt_copy_mixed_false name other otherBare d c out info otherInfo :
  lookup name d = Some info -> mixed info = None ->
  lookup otherBare d = Some otherInfo -> mixed otherInfo = Some false ->
  TT.copy_mixed name other otherBare (d, c, out) = (d, c, out ++ [WarnMixed other]).
Proof.
  intros Hl Hm Ho Hom. unfold TT.copy_mixed. rewrite Hl, Ho, Hm, Hom. reflexivity.
Qed.

Lemma tt_copy_kind_keeps_mixed name other otherBare d c out :
  forall k r, lookup k d = Some r ->
    exists r', lookup k (fst (fst (TT.copy_kind name other otherBare (d, c, out)))) = Some r'
               /\ mixed r' = mixed r.
Proof.
  intros k r H. unfold TT.copy_kind.
  destruct (lookup name d) as [info |]; [| eauto].
  destruct (lookup otherBare d) as [oi |]; [| eauto].
  destruct (kind info); [eauto |].
  destruct (kind oi) as [k0 |]; [| eauto]. simpl.
  rewrite (lookup_update_cases name k _ _ _ H).
  eexists. split; [reflexivity |]. destruct (name =? k); reflexivity.
Qed.

Lemma tt_copy_mixed_skip name other otherBare d c out info :
  lookup name d = Some info -> mixed info <> None ->
  TT.copy_mixed name other otherBare (d, c, out) = (d, c, out).
Proof.
  intros Hl Hm. unfold TT.copy_mixed. rewrite Hl.
  destruct (lookup otherBare d); [| reflexivity].
  destruct (mixed info); [reflexivity | contradiction].
Qed.

(** In the loop body of [infer], the last of the three updates never
    writes: where the referenced ["mixed"] is true the first update has
    made the record's own ["mixed"] true, and where it is not there is
    nothing the test lets through. *)
Lemma tt_copy_mixed_never_writes name other d c out info :
  lookup name d = Some info -> bool_truthy (mixed info) = false ->
  fst (TT.copy_mixed name other (bare other)
         (TT.copy_kind name other (bare other)
            (TT.raise_mixed name (bare other) (d, c, out))))
  = fst (TT.copy_kind name other (bare other)
           (TT.raise_mixed name (bare other) (d, c, out))).
Proof.
  intros Hl Hm. unfold TT.raise_mixed.
  destruct (lookup (bare other) d) as [oi |] eqn:Ho.
  - destruct (bool_truthy (mixed oi)) eqn:Hom.
    + assert (H1 : lookup name (update name (set_mixed (Some true)) d)
                   = Some (set_mixed (Some true) info)).
      { rewrite lookup_update_same, Hl. reflexivity. }
      destruct (tt_copy_kind_keeps_mixed name other (bare other) _ (S c) out _ _ H1)
        as (r' & Hr & Hmr).
      destruct (TT.copy_kind name other (bare other) _) as [[d2 c2] out2].
      simpl in Hr. rewrite (tt_copy_mixed_skip _ _ _ _ _ _ _ Hr); [reflexivity |].
      rewrite Hmr. discriminate.
    + destruct (tt_copy_kind_keeps_mixed name other (bare other) d c out _ _ Hl)
        as (r' & Hr & Hmr).
      destruct (tt_copy_kind_keeps_mixed name other (bare other) d c out _ _ Ho)
        as (o' & Hor & Hmo).
      destruct (TT.copy_kind name other (bare other) _) as [[d2 c2] out2].
      simpl in Hr, Hor. unfold TT.copy_mixed. rewrite Hr, Hor, Hmo, Hom.
      destruct (mixed r'); reflexivity.
  - unfold TT.copy_kind. rewrite Hl, Ho. unfold TT.copy_mixed. rewrite Hl, Ho.
    reflexivity.
Qed.




(** ** The ["mixed"] field of extracted records *)


(** The writes onto the enclosing definition leave ["mixed"] as it is or
    make it true. *)
Lemma enclosing_mixed n dn top d d' name r :
  enclosing n dn top d = Ok d' -> lookup name d = Some r ->
  exists r', lookup name d' = Some r'
    /\ (mixed r' = mixed r \/ mixed r' = Some true).
Proof.
  unfold enclosing, setitem. intros H Hl.
  destruct dn as [s |]; [| injection H as <-; eauto].
  destruct (negb (s =? "")); [| injection H as <-; eauto].
  destruct top.
  - destruct (types (node_tag n)); [| injection H as <-; eauto].
    destruct (mem s d); [| discriminate]. simpl in H.
    pose proof (lookup_update_cases s name
                  (set_kind (if node_tag n =? "simpleType" then simple else complex))
                  d r Hl) as H1.
    destruct (attr_true (node_get n "mixed")).
    + destruct (mem s _); [| discriminate]. injection H as <-.
      rewrite (lookup_update_cases s name _ _ _ H1).
      eexists. split; [reflexivity |]. destruct (s =? name); simpl; auto.
    + injection H as <-. rewrite H1.
      eexists. split; [reflexivity |]. destruct (s =? name); simpl; auto.
  - destruct (node_tag n =? "extension"); [| injection H as <-; eauto].
    destruct (node_get n "base") as [b |]; [| injection H as <-; eauto].
    destruct (negb (b =? "")); [| injection H as <-; eauto].
    destruct (mem s d); [| discriminate]. injection H as <-.
    rewrite (lookup_update_cases s name _ _ _ Hl).
    eexists. split; [reflexivity |]. destruct (s =? name); simpl; auto.
Qed.

(** Registration leaves the records there are as they are. *)
Lemma register_keeps n d c name r :
  lookup name d = Some r -> lookup name (fst (register n (d, c))) = Some r.
Proof.
  intros H. unfold register.
  destruct (node_get n "name") as [s |]; [| exact H].
  destruct (negb (s =? "") && negb (notInteresting (node_tag n))); [| exact H].
  destruct (mem s d); [exact H |]. simpl. rewrite lookup_app, H. reflexivity.
Qed.

Lemma register_new n name d c :
  node_get n "name" = Some name -> name <> "" ->
  notInteresting (node_tag n) = false -> mem name d = false ->
  lookup name (fst (register n (d, c)))
  = Some (mkDef (node_tag n) (attr_true (node_get n "abstract"))
            (Some (attr_true (node_get n "mixed")))
            (node_get n "substitutionGroup") None None).
Proof.
  intros Hn Hne Hi Hm. unfold register. rewrite Hn, Hi, Hm.
  destruct (String.eqb_spec name ""); [contradiction |]. simpl.
  rewrite lookup_app. unfold mem in Hm.
  destruct (lookup name d); [discriminate |]. simpl.
  rewrite String.eqb_refl. reflexivity.
Qed.

(** A node without a [mixed] attribute and the same node with
    [mixed="false"] are extracted alike, in every context. *)
Lemma findDefs_mixed_false t a cs dn top st :
  attr_get "mixed" a = None ->
  findDefs (Node t (("mixed", "false") :: a) cs) dn top st
  = findDefs (Node t a cs) dn top st.
Proof.
  intros H. rewrite !findDefs_eq.
  unfold visit, enclosing, register, child_context, node_get, node_tag.
  simpl. rewrite H. reflexivity.
Qed.

(** The claim C10 as it is stated fails on scenario A: the record of [p]
    has a true ["mixed"], from the complex type below the element, while
    the element that defines [p] has no [mixed] attribute. *)
Lemma C10_mixed_is_not_the_attribute : ~ mixed_is_node_attribute.
Proof.
  intros H.
  specialize (H scenarioA _ _ "p" _ _ eq_refl eq_refl eq_refl).
  discriminate H.
Qed.

(** C10, amended.  (1) Extraction returns on every tree, and in its table
    the ["mixed"] of every record is a boolean, never [None].  (2) A record
    is created with ["mixed"] true exactly when the [mixed] attribute of the
    node that registers it is the string [true], false otherwise, also when
    the attribute is absent.  (3) The visit of a node makes the ["mixed"] of
    a record there is true exactly when the node is visited inside the
    definition of the record's name, at the top level of that definition, is
    a simpleType or a complexType, and has [mixed="true"]; the visit of any
    other node leaves the ["mixed"] of the record as it is.  (4, 5) Both
    resolutions keep every ["mixed"] a boolean.  (6) A node without a
    [mixed] attribute is extracted as the same node with [mixed="false"]. *)
Theorem C10_mixed_is_boolean :
  (forall root, exists d c,
      extract root = Ok (d, c)
      /\ forall name r, lookup name d = Some r -> exists b, mixed r = Some b)
  /\ (forall n name d c,
      node_get n "name" = Some name -> name <> "" ->
      notInteresting (node_tag n) = false -> mem name d = false ->
      exists r, lookup name (fst (register n (d, c))) = Some r
                /\ mixed r = Some (attr_true (node_get n "mixed")))
  /\ (forall n dn top st st' name r,
      visit n dn top st = Ok st' -> lookup name (fst st) = Some r ->
      exists r', lookup name (fst st') = Some r'
                 /\ mixed r'
                    = if inside dn name && top && types (node_tag n)
                         && attr_true (node_get n "mixed")
                      then Some true else mixed r)
  /\ (forall d, mixed_defined d -> mixed_defined (fst (fst (TT.resolve d))))
  /\ (forall d d' i out, mixed_defined d -> XS.resolve d = Ok (d', i, out) ->
                         mixed_defined d')
  /\ (forall t a cs dn top st,
      attr_get "mixed" a = None ->
      findDefs (Node t (("mixed", "false") :: a) cs) dn top st
      = findDefs (Node t a cs) dn top st).
Proof.
  split; [| split; [| split; [| split; [| split]]]].
  - intros root. destruct (extract_ok root) as (d & c & H & Hm).
    exists d, c. split; [exact H |]. intros name r Hl.
    eapply mixed_defined_lookup; eassumption.
  - intros n name d c Hn Hne Hi Hm.
    rewrite (register_new n name d c Hn Hne Hi Hm). eexists. split; reflexivity.
  - intros n dn top [d c] st' name r H Hl. unfold visit in H. simpl in H, Hl.
    destruct (enclosing n dn top d) as [d1 | e] eqn:E; [| discriminate].
    cbv beta iota delta [bind] in H. injection H as <-.
    pose proof (enclosing_lookup _ _ _ _ _ _ _ E Hl) as Hl'.
    eexists. split; [apply register_keeps; exact Hl' |].
    destruct (inside dn name); [| reflexivity].
    rewrite written_mixed. reflexivity.
  - intros d Hd. destruct (tt_resolve_spec d) as (d' & i & out & _ & -> & Hf & _).
    destruct Hf as ((l & Hc & _) & _). eapply change_mixed_defined; eassumption.
  - intros d d' i out Hd H. destruct (xs_resolve_spec d) as (r & _ & Hr & Hf).
    rewrite H in Hr. subst r. destruct Hf as (((l & Hc & _) & _) & _).
    eapply change_mixed_defined; eassumption.
  - intros t a cs dn top st H. apply findDefs_mixed_false. exact H.
Qed.

Lemma C10_mixed_is_boolean_witness :
  (exists r, lookup "p" (fst (register (Node "element" [("name", "p")] []) ([], [])))
             = Some r /\ mixed r = Some false)
  /\ (exists r',
        lookup "p"
          (fst ([("p", mkDef "element" false (Some true) None (Some complex) None)],
                @nil (string * nat)))
        = Some r'
        /\ mixed r' = Some true)
  /\ findDefs (Node "element" [("mixed", "false"); ("name", "p")] []) None false ([], [])
     = findDefs (Node "element" [("name", "p")] []) None false ([], []).
Proof.
  destruct C10_mixed_is_boolean as (_ & Hreg & Hvisit & _ & _ & Hsame).
  split; [| split].
  - apply (Hreg (Node "element" [("name", "p")] []) "p" [] []);
      [reflexivity | discriminate | reflexivity | reflexivity].
  - exact (Hvisit (Node "complexType" [("mixed", "true")] []) (Some "p") true
             ([("p", mkDef "element" false (Some false) None None None)], [])
             _ "p" _ eq_refl eq_refl).
  - apply Hsame. reflexivity.
Defined.

(** ** The report *)

Lemma insert_perm x l : Permutation (insert x l) (x :: l).
Proof.
  induction l as [| y l IH]; cbn [insert]; [apply Permutation_refl |].
  destruct (key_leb (eKey x) (eKey y)); [apply Permutation_refl |].
  eapply Permutation_trans; [apply perm_skip; exact IH | apply perm_swap].
Qed.

Lemma sorted_perm d : Permutation (sorted d) d.
Proof.
  unfold sorted. induction d as [| x d IH]; cbn [fold_right]; [apply perm_nil |].
  eapply Permutation_trans; [apply insert_perm | apply perm_skip; exact IH].
Qed.

Lemma filter_perm {A : Type} (f : A -> bool) l l' :
  Permutation l l' -> Permutation (filter f l) (filter f l').
Proof.
  induction 1 as [| x l l' _ IH | x y l | l l' l'' _ IH1 _ IH2]; simpl.
  - apply perm_nil.
  - destruct (f x); [apply perm_skip |]; exact IH.
  - destruct (f x), (f y); try apply Permutation_refl. apply perm_swap.
  - eapply Permutation_trans; eassumption.
Qed.

(** The selected definitions of a table are reported once each. *)
Lemma report_defs_perm d :
  Permutation (report_defs d) (map triple (filter selected d)).
Proof.
  unfold report_defs. apply (Permutation_map triple).
  apply filter_perm. apply sorted_perm.
Qed.

Lemma tt_interpret_tsv A text ov :
  TT.interpret A true = Ok (AsTsv text, ov) ->
  exists defs, TT.interpret A false = Ok (AsList defs, ov)
               /\ text = String.concat newline (map TT.tsv_line defs).
Proof.
  unfold TT.interpret. destruct (TT.root A) as [r |]; [| discriminate].
  destruct (extract r) as [ext | e]; [| discriminate].
  cbv beta iota delta [bind].
  destruct (match TT.oroot A with
            | Some o => _
            | None => _
            end) as [merged | e]; [| discriminate].
  intros [= <- <-]. eexists. split; reflexivity.
Qed.

Lemma xs_interpret_tsv root text :
  XS.interpret root true = Ok (AsTsv text) ->
  exists defs, XS.interpret root false = Ok (AsList defs)
               /\ text = String.concat newline (map XS.tsv_line defs).
Proof.
  unfold XS.interpret. destruct (extract root) as [ext | e]; [| discriminate].
  cbv beta iota delta [bind].
  destruct (XS.resolve (fst ext)) as [res | e]; [| discriminate].
  intros [= <-]. eexists. split; reflexivity.
Qed.

(** The claim C8 as it is stated fails on the report of [SchemaAnalysis]:
    an element of unknown kind is rendered with three dashes, not five. *)
Lemma C8_three_dashes_in_SchemaAnalysis :
  XS.interpret unknown_kind_schema false = Ok (AsList [("e", None, Some false)])
  /\ XS.interpret unknown_kind_schema true
     = Ok (AsTsv ("e" ++ tab ++ "---" ++ tab ++ "pure")%string)
  /\ XS.interpret unknown_kind_schema true
     <> Ok (AsTsv ("e" ++ tab ++ "-----" ++ tab ++ "pure")%string).
Proof.
  repeat split. discriminate.
Qed.

(** What [interpret] returns is the report of the table it has built: of
    the resolved table of the schema, or of what the merge makes of it when
    there is an override. *)
Lemma tt_interpret_report A asTsv rep ov :
  TT.interpret A asTsv = Ok (rep, ov) ->
  exists r ext final,
    TT.root A = Some r /\ extract r = Ok ext
    /\ match TT.oroot A with
       | None => final = fst (fst (TT.resolve (fst ext))) /\ ov = []
       | Some o =>
           exists oext,
             extract o = Ok oext
             /\ TT.merge (fst (fst (TT.resolve (fst oext))))
                  (fst (fst (TT.resolve (fst ext)))) = Ok (final, ov)
       end
    /\ rep = (if asTsv then AsTsv (TT.tsv (report_defs final))
              else AsList (report_defs final)).
Proof.
  unfold TT.interpret. destruct (TT.root A) as [r |]; [| discriminate].
  destruct (extract r) as [ext | e] eqn:He; [| discriminate].
  cbv beta iota delta [bind]. cbv zeta.
  destruct (TT.oroot A) as [o |].
  - destruct (extract o) as [oext | e] eqn:Ho; [| discriminate].
    destruct (TT.merge _ _) as [[final ov'] | e] eqn:Em; [| discriminate].
    cbn [fst snd]. intros [= <- <-].
    exists r, ext, final. split; [reflexivity |]. split; [exact He |].
    split; [| reflexivity]. exists oext. split; [reflexivity | exact Em].
  - cbn [fst snd]. intros [= <- <-].
    exists r, ext, (fst (fst (TT.resolve (fst ext)))).
    split; [reflexivity |]. split; [exact He |].
    split; [split; reflexivity | reflexivity].
Qed.

Lemma xs_interpret_report root asTsv rep :
  XS.interpret root asTsv = Ok rep ->
  exists ext final i out,
    extract root = Ok ext /\ XS.resolve (fst ext) = Ok (final, i, out)
    /\ rep = (if asTsv then AsTsv (XS.tsv (report_defs final))
              else AsList (report_defs final)).
Proof.
  unfold XS.interpret. destruct (extract root) as [ext | e] eqn:He; [| discriminate].
  cbv beta iota delta [bind].
  destruct (XS.resolve (fst ext)) as [[[final i] out] | e] eqn:Hr; [| discriminate].
  cbn [fst]. intros [= <-]. exists ext, final, i, out.
  split; [reflexivity |]. split; [first [exact Hr | reflexivity] | reflexivity].
Qed.

(** C8, amended.  (1) The items of a report are those of the selected
    records (tag [element], not abstract) of the table, one item each, with
    the name, the ["kind"] and the ["mixed"] of the record.  (6, 7) What
    [interpret] returns, in [Analysis] and in [SchemaAnalysis], is that
    report of the table it has built from the schema: the resolved table,
    or in [Analysis] with an override what the merge makes of it; as a list
    the items, as TSV text their lines joined by newlines (2, 4, 8).
    (3) In [Analysis] a line is the name, the kind as [simple], [complex] or
    five dashes when unknown, and the mixed flag as [mixed], [pure] or five
    dashes when unknown, separated by tabs.  (5) In [SchemaAnalysis] the
    line has the kind as [simple], [complex] or three dashes when unknown,
    and the flag as [mixed] when true and [pure] otherwise. *)
Theorem C8_report_lines :
  (forall d, Permutation (report_defs d) (map triple (filter selected d)))
  /\ (forall A text ov,
        TT.interpret A true = Ok (AsTsv text, ov) ->
        exists defs, TT.interpret A false = Ok (AsList defs, ov)
                     /\ text = String.concat newline (map TT.tsv_line defs))
  /\ (forall name k m,
        TT.tsv_line (name, k, m)
        = (name ++ tab
           ++ match k with
              | Some simple => "simple"
              | Some complex => "complex"
              | None => "-----"
              end
           ++ tab
           ++ match m with
              | Some true => "mixed"
              | Some false => "pure"
              | None => "-----"
              end)%string)
  /\ (forall root text,
        XS.interpret root true = Ok (AsTsv text) ->
        exists defs, XS.interpret root false = Ok (AsList defs)
                     /\ text = String.concat newline (map XS.tsv_line defs))
  /\ (forall name k m,
        XS.tsv_line (name, k, m)
        = (name ++ tab
           ++ match k with
              | Some simple => "simple"
              | Some complex => "complex"
              | None => "---"
              end
           ++ tab
           ++ match m with
              | Some true => "mixed"
              | _ => "pure"
              end)%string)
  /\ (forall A asTsv rep ov,
        TT.interpret A asTsv = Ok (rep, ov) ->
        exists r ext final,
          TT.root A = Some r /\ extract r = Ok ext
          /\ match TT.oroot A with
             | None => final = fst (fst (TT.resolve (fst ext))) /\ ov = []
             | Some o =>
                 exists oext,
                   extract o = Ok oext
                   /\ TT.merge (fst (fst (TT.resolve (fst oext))))
                        (fst (fst (TT.resolve (fst ext)))) = Ok (final, ov)
             end
          /\ rep = (if asTsv then AsTsv (TT.tsv (report_defs final))
                    else AsList (report_defs final))
          /\ Permutation (report_defs final) (map triple (filter selected final))
          /\ length (report_defs final) = length (filter selected final))
  /\ (forall root asTsv rep,
        XS.interpret root asTsv = Ok rep ->
        exists ext final i out,
          extract root = Ok ext /\ XS.resolve (fst ext) = Ok (final, i, out)
          /\ rep = (if asTsv then AsTsv (XS.tsv (report_defs final))
                    else AsList (report_defs final))
          /\ Permutation (report_defs final) (map triple (filter selected final))
          /\ length (report_defs final) = length (filter selected final))
  /\ (forall defs,
        TT.tsv defs = String.concat newline (map TT.tsv_line defs)
        /\ XS.tsv defs = String.concat newline (map XS.tsv_line defs)).
Proof.
  split; [exact report_defs_perm |].
  split; [exact tt_interpret_tsv |].
  split; [intros name [[|] |] [[|] |]; reflexivity |].
  split; [exact xs_interpret_tsv |].
  split; [intros name [[|] |] [[|] |]; reflexivity |].
  split; [| split].
  - intros A asTsv rep ov H.
    destruct (tt_interpret_report A asTsv rep ov H)
      as (r & ext & final & Hr & He & Hf & Hrep).
    exists r, ext, final. split; [exact Hr |]. split; [exact He |].
    split; [exact Hf |]. split; [exact Hrep |].
    split; [apply report_defs_perm |].
    rewrite (Permutation_length (report_defs_perm final)). apply length_map.
  - intros root asTsv rep H.
    destruct (xs_interpret_report root asTsv rep H)
      as (ext & final & i & out & He & Hr & Hrep).
    exists ext, final, i, out. split; [exact He |]. split; [exact Hr |].
    split; [exact Hrep |]. split; [apply report_defs_perm |].
    rewrite (Permutation_length (report_defs_perm final)). apply length_map.
  - intros defs. split; reflexivity.
Qed.

Lemma C8_report_lines_witness :
  (exists defs,
      TT.interpret (TT.mkAnalysis true (Some scenarioA) None) false = Ok (AsList defs, [])
      /\ ("p" ++ tab ++ "complex" ++ tab ++ "mixed")%string
         = String.concat newline (map TT.tsv_line defs))
  /\ (exists defs,
      XS.interpret unknown_kind_schema false = Ok (AsList defs)
      /\ ("e" ++ tab ++ "---" ++ tab ++ "pure")%string
         = String.concat newline (map XS.tsv_line defs)).
Proof.
  destruct C8_report_lines as (_ & Htt & _ & Hxs & _). split.
  - apply Htt. reflexivity.
  - apply Hxs. reflexivity.
Defined.

(** ** The override schema *)

(** [__init__] never reads the override path. *)
Lemma tt_init_ignores_override fs baseSchema override override' :
  TT.init fs baseSchema (Some override) = TT.init fs baseSchema (Some override').
Proof. reflexivity. Qed.

Lemma tt_init_oroot fs baseSchema override :
  TT.good (TT.init fs baseSchema (Some override)) = true ->
  TT.oroot (TT.init fs baseSchema (Some override))
  = TT.root (TT.init fs baseSchema (Some override)).
Proof.
  unfold TT.init. destruct (fs baseSchema); [reflexivity | discriminate].
Qed.

(** C1. The claim fails on [Analysis.__init__], which opens [baseSchema]
    for its second parse too: the analysis is the same whatever the
    override path, and with the files of scenario D the override tree is
    the base tree, [x] gets no transition and is reported pure.  Handed the
    override tree itself, [interpret] gives the transition and reports [x]
    as mixed. *)
Theorem C1_override_is_parsed_from_the_base_path :
  (forall fs baseSchema override override',
      TT.init fs baseSchema (Some override) = TT.init fs baseSchema (Some override'))
  /\ TT.init two_files "base.xsd" (Some "override.xsd")
     = TT.mkAnalysis true (Some base_doc) (Some base_doc)
  /\ TT.interpret (TT.init two_files "base.xsd" (Some "override.xsd")) true
     = Ok (AsTsv ("x" ++ tab ++ "complex" ++ tab ++ "pure")%string, [("x", None)])
  /\ TT.interpret (TT.mkAnalysis true (Some base_doc) (Some override_doc)) true
     = Ok (AsTsv ("x" ++ tab ++ "complex" ++ tab ++ "mixed")%string,
           [("x", Some "pure ==> mixed")]).
Proof. repeat split. Qed.

(** The test [if name in definitions] of the merge loop is on the table
    the loop goes over, so it holds for every item. *)
Lemma tt_merge_guard_vacuous (definitions : table) name odef :
  In (name, odef) definitions -> mem name definitions = true.
Proof.
  intros H. apply mem_true. apply lookup_keys.
  unfold keys. apply (in_map fst) in H. exact H.
Qed.

Lemma tt_merge_step_override_only definitions name odef baseDefinitions ov :
  mem name definitions = true -> lookup name baseDefinitions = None ->
  TT.merge_step definitions (name, odef) (baseDefinitions, ov)
  = Raise (KeyError name).
Proof.
  intros Hm Hl. unfold TT.merge_step. rewrite Hm, Hl. reflexivity.
Qed.

Lemma get_set_override_other name k t ov :
  k <> name -> TT.get_override name (TT.set_override k t ov) = TT.get_override name ov.
Proof.
  intros Hne. induction ov as [| [k0 t0] ov IH]; simpl.
  - destruct (String.eqb_spec k name); [contradiction | reflexivity].
  - destruct (String.eqb_spec k0 k) as [-> | Hk]; simpl.
    + destruct (String.eqb_spec k name); [contradiction | reflexivity].
    + rewrite IH. reflexivity.
Qed.

Lemma tt_merge_raise definitions items e :
  fold_left (fun acc item => let* st := acc in TT.merge_step definitions item st)
    items (Raise e) = Raise e.
Proof.
  induction items as [| item items IH]; [reflexivity | exact IH].
Qed.

(** When the merge returns, a name that only the base table has keeps its
    record and gets no entry in [overrides]. *)
Lemma tt_merge_base_only definitions baseDefinitions merged ov name :
  TT.merge definitions baseDefinitions = Ok (merged, ov) ->
  lookup name definitions = None ->
  lookup name merged = lookup name baseDefinitions
  /\ TT.get_override name ov = None.
Proof.
  unfold TT.merge. intros H Hl.
  assert (Hn : ~ In name (keys definitions)).
  { intros Hi. apply lookup_keys in Hi. contradiction. }
  clear Hl. revert H.
  change (TT.get_override name ov = None)
    with (TT.get_override name ov = TT.get_override name []).
  generalize (@nil (string * option string)). generalize baseDefinitions.
  generalize definitions at 1 as D.
  induction definitions as [| [k odef] items IH]; intros D bd ov0 H.
  - injection H as <- <-. split; reflexivity.
  - cbn [fold_left bind] in H.
    assert (Hk : k <> name) by (intros ->; apply Hn; left; reflexivity).
    assert (Hn' : ~ In name (keys items)) by (intros Hi; apply Hn; right; exact Hi).
    destruct (TT.merge_step D (k, odef) (bd, ov0)) as [[bd1 ov1] | e] eqn:E;
      [| rewrite tt_merge_raise in H; discriminate].
    destruct (IH Hn' D bd1 ov1 H) as [Hl1 Ho1].
    rewrite Hl1, Ho1. unfold TT.merge_step in E.
    destruct (mem k D); [| injection E as <- <-; split; reflexivity].
    destruct (lookup k bd) as [baseDef |]; [| discriminate].
    injection E as <- <-. split.
    + destruct (TT.transRep baseDef odef); [| reflexivity].
      apply lookup_update_other. exact Hk.
    + apply get_set_override_other. exact Hk.
Qed.

(** C2. The claim fails on the merge loop of [interpret] for a name that
    only the override table has: with [y] declared by the override schema
    alone, [baseDefinitions[name]] raises [KeyError]. *)
Theorem C2_override_only_name_raises :
  TT.interpret (TT.mkAnalysis true (Some base_doc) (Some extending_doc)) true
  = Raise (KeyError "y")
  /\ TT.interpret (TT.mkAnalysis true (Some base_doc) (Some extending_doc)) false
     = Raise (KeyError "y")
  /\ TT.interpret (TT.mkAnalysis true (Some extending_doc) (Some base_doc)) true
     = Ok (AsTsv ("x" ++ tab ++ "complex" ++ tab ++ "pure" ++ newline
                  ++ "y" ++ tab ++ "complex" ++ tab ++ "pure")%string,
           [("x", None)]).
Proof. repeat split. Qed.

(** * Further properties of the code *)

(** ** The two resolvers agree *)

Lemma agree_raise_mixed name otherBare st :
  fst (TT.raise_mixed name otherBare st) = XS.raise_mixed name otherBare (fst st).
Proof.
  destruct st as [[d c] out]. unfold TT.raise_mixed, XS.raise_mixed. simpl.
  destruct (lookup otherBare d) as [oi |]; [| reflexivity].
  destruct (bool_truthy (mixed oi)); reflexivity.
Qed.

Lemma agree_copy_kind name other otherBare st :
  fst (TT.copy_kind name other otherBare st) = XS.copy_kind name otherBare (fst st).
Proof.
  destruct st as [[d c] out]. unfold TT.copy_kind, XS.copy_kind. simpl.
  destruct (lookup name d) as [info |]; [| reflexivity].
  destruct (lookup otherBare d) as [oi |]; [| reflexivity].
  destruct (kind info); [reflexivity |].
  destruct (kind oi); reflexivity.
Qed.

Lemma agree_infer_step name d c out st' :
  XS.infer_step name (d, c) = Ok st' -> fst (TT.infer_step name (d, c, out)) = st'.
Proof.
  unfold XS.infer_step, TT.infer_step.
  destruct (lookup name d) as [info |] eqn:Hl; [| intros [= <-]; reflexivity].
  destruct (bool_truthy (mixed info)) eqn:Hm; [intros [= <-]; reflexivity |].
  destruct (other_of info) as [other |]; [| intros [= <-]; reflexivity].
  destruct (negb (other =? "")); [| intros [= <-]; reflexivity].
  destruct (lookup (bare other) d); [| discriminate].
  intros [= <-].
  rewrite (tt_copy_mixed_never_writes name other d c out info Hl Hm).
  rewrite agree_copy_kind, agree_raise_mixed. reflexivity.
Qed.

Lemma agree_infer_from names :
  forall d c out st',
    XS.infer_from names (d, c) = Ok st' ->
    fst (TT.infer_from names (d, c, out)) = st'.
Proof.
  induction names as [| name names IH]; intros d c out st' H.
  - injection H as <-. reflexivity.
  - rewrite xs_infer_from_cons in H.
    destruct (XS.infer_step name (d, c)) as [[d1 c1] | e] eqn:E; [| discriminate].
    pose proof (agree_infer_step name d c out _ E) as Hs.
    unfold TT.infer_from. cbn [fold_left]. fold (TT.infer_from names).
    destruct (TT.infer_step name (d, c, out)) as [[d2 c2] out2].
    simpl in Hs. injection Hs as -> ->. apply IH. exact H.
Qed.

Lemma agree_infer d d1 c1 :
  XS.infer d = Ok (d1, c1) -> fst (TT.infer d) = (d1, c1).
Proof. intros H. apply (agree_infer_from (keys d) d 0 [] _ H). Qed.

Lemma agree_resolve_loop fuel :
  forall d i d' j rounds,
    XS.resolve_loop fuel d i = Some (Ok (d', j, rounds)) ->
    exists out, TT.resolve_loop fuel d i = Some (d', j, out)
                /\ round_changes out = round_changes rounds.
Proof.
  induction fuel as [| fuel IH]; intros d i d' j rounds H; [discriminate |].
  cbn [XS.resolve_loop TT.resolve_loop] in *.
  destruct (XS.infer d) as [[d1 c1] | e] eqn:E; [| discriminate].
  pose proof (agree_infer _ _ _ E) as Ha.
  destruct (tt_infer_change d) as (_ & _ & _ & Hr).
  destruct (TT.infer d) as [[d2 c2] o2]. simpl in Ha, Hr. injection Ha as -> ->.
  destruct (c1 =? 0)%nat.
  - injection H as <- <- <-. exists o2. split; [reflexivity | exact Hr].
  - destruct (XS.resolve_loop fuel d1 (S i)) as [[[[d3 j3] r3] | e] |] eqn:E3;
      try discriminate.
    injection H as <- <- <-.
    destruct (IH _ _ _ _ _ E3) as (out & -> & Ho).
    eexists. split; [reflexivity |].
    rewrite round_changes_app, Hr. simpl. fold (round_changes out).
    fold (round_changes r3). rewrite Ho. reflexivity.
Qed.

Lemma agree_resolve d d' j rounds :
  XS.resolve d = Ok (d', j, rounds) ->
  exists out, TT.resolve d = (d', j, out)
              /\ round_changes out = round_changes rounds.
Proof.
  intros H. destruct (xs_resolve_spec d) as (r & Hall & Hr & _).
  rewrite H in Hr. subst r.
  assert (Hlt : 2 * length d < S (2 * length d)) by lia.
  destruct (agree_resolve_loop _ _ _ _ _ _ (Hall _ Hlt)) as (out & Ho & Hrc).
  exists out. split; [| exact Hrc]. unfold TT.resolve. rewrite Ho. reflexivity.
Qed.

(** X1. Whenever [SchemaAnalysis.resolve] returns, [Analysis.resolve]
    returns the same table after the same number of scans, with the same
    changes reported round by round; and the list that
    [SchemaAnalysis.interpret] returns on a schema is the list that
    [Analysis.interpret] returns on it without an override. *)
Theorem X1_resolvers_agree :
  (forall d d' j rounds,
      XS.resolve d = Ok (d', j, rounds) ->
      exists out, TT.resolve d = (d', j, out)
                  /\ round_changes out = round_changes rounds)
  /\ (forall root defs,
      XS.interpret root false = Ok (AsList defs) ->
      TT.interpret (TT.mkAnalysis true (Some root) None) false = Ok (AsList defs, [])).
Proof.
  split; [exact agree_resolve |].
  intros root defs H. unfold XS.interpret in H. unfold TT.interpret. simpl.
  destruct (extract root) as [ext | e]; [| discriminate].
  cbv beta iota delta [bind] in *.
  destruct (XS.resolve (fst ext)) as [[[d' j] rounds] | e] eqn:E; [| discriminate].
  destruct (agree_resolve _ _ _ _ E) as (out & -> & _).
  simpl in *. injection H as <-. reflexivity.
Qed.

Lemma X1_resolvers_agree_witness :
  (exists out, TT.resolve chain_table
               = (fst (fst (TT.resolve chain_table)), 3, out)
               /\ round_changes out = [2; 2])
  /\ TT.interpret (TT.mkAnalysis true (Some scenarioA) None) false
     = Ok (AsList [("p", Some complex, Some true)], []).
Proof.
  destruct X1_resolvers_agree as [Hr Hi]. split.
  - apply (Hr chain_table _ 3 [Round 1 2; Round 2 2]). vm_compute. reflexivity.
  - apply Hi. vm_compute. reflexivity.
Defined.

(** ** What resolution leaves alone *)

Lemma tt_infer_step_frozen d name info c out :
  lookup name d = Some info -> bool_truthy (mixed info) = true ->
  TT.infer_step name (d, c, out) = (d, c, out).
Proof.
  intros Hl Hm. unfold TT.infer_step. rewrite Hl, Hm. reflexivity.
Qed.

Lemma tt_infer_from_frozen name info names :
  bool_truthy (mixed info) = true ->
  forall st, lookup name (fst (fst st)) = Some info ->
    lookup name (fst (fst (TT.infer_from names st))) = Some info.
Proof.
  intros Hm. unfold TT.infer_from.
  induction names as [| n names IH]; intros [[d c] out] Hl; cbn [fold_left];
    [exact Hl |].
  simpl in Hl. apply IH. destruct (String.eqb_spec n name) as [-> | Hne].
  - rewrite (tt_infer_step_frozen _ _ _ c out Hl Hm). exact Hl.
  - destruct (tt_infer_step_run n (d, c, out)) as (l & w & Hc & _ & Hi & _).
    rewrite (change_other _ _ _ name Hc); [exact Hl |].
    intros H. apply Hi in H. destruct H as [H | []]. congruence.
Qed.

Lemma tt_resolve_loop_frozen name info fuel :
  bool_truthy (mixed info) = true ->
  forall d i d' j out,
    TT.resolve_loop fuel d i = Some (d', j, out) ->
    lookup name d = Some info -> lookup name d' = Some info.
Proof.
  intros Hm. induction fuel as [| fuel IH]; intros d i d' j out H Hl; [discriminate |].
  cbn [TT.resolve_loop] in H.
  pose proof (tt_infer_from_frozen name info (keys d) Hm (d, 0, []) Hl) as H1.
  fold (TT.infer d) in H1.
  destruct (TT.infer d) as [[d1 c1] o1]. simpl in H1.
  destruct (c1 =? 0)%nat.
  - injection H as <- <- <-. exact H1.
  - destruct (TT.resolve_loop fuel d1 (S i)) as [[[d2 j2] rest] |] eqn:E; [| discriminate].
    injection H as <- <- <-. eapply IH; eassumption.
Qed.

Lemma tt_resolve_frozen d name info :
  lookup name d = Some info -> bool_truthy (mixed info) = true ->
  lookup name (fst (fst (TT.resolve d))) = Some info.
Proof.
  intros Hl Hm. destruct (tt_resolve_spec d) as (d' & i & out & Hall & -> & _).
  assert (Hlt : 2 * length d < S (2 * length d)) by lia.
  exact (tt_resolve_loop_frozen name info _ Hm _ _ _ _ _ (Hall _ Hlt) Hl).
Qed.

(** X2. A record that is mixed when resolution starts is skipped by every
    scan: [resolve] returns it exactly as it was, so a ["kind"] it lacks is
    never filled in, whatever the record it refers to; so in
    [SchemaAnalysis.resolve] when it returns. *)
Theorem X2_mixed_records_are_never_resolved :
  (forall d name info,
      lookup name d = Some info -> mixed info = Some true ->
      lookup name (fst (fst (TT.resolve d))) = Some info)
  /\ (forall d d' i out name info,
      XS.resolve d = Ok (d', i, out) ->
      lookup name d = Some info -> mixed info = Some true ->
      lookup name d' = Some info).
Proof.
  split.
  - intros d name info Hl Hm. apply tt_resolve_frozen; [exact Hl |].
    rewrite Hm. reflexivity.
  - intros d d' i out name info H Hl Hm.
    destruct (agree_resolve _ _ _ _ H) as (out' & Hr & _).
    pose proof (tt_resolve_frozen d name info Hl) as Hf.
    rewrite Hr in Hf. apply Hf. rewrite Hm. reflexivity.
Qed.

Lemma X2_mixed_records_are_never_resolved_witness :
  lookup "q"
    (fst (fst (TT.resolve
       [("q", mkDef "element" false (Some true) None None (Some "p"));
        ("p", mkDef "element" false (Some false) None (Some complex) None)])))
  = Some (mkDef "element" false (Some true) None None (Some "p")).
Proof.
  apply (proj1 X2_mixed_records_are_never_resolved); reflexivity.
Defined.

Lemma keeps_declaration_refl r : keeps_declaration r r.
Proof. repeat split. Qed.

Lemma change_declaration d l d' :
  change d l d' ->
  forall name r, lookup name d = Some r ->
    exists r', lookup name d' = Some r' /\ keeps_declaration r r'.
Proof.
  induction 1 as [d | d n info Hl Hm | d n info k Hl Hk | d1 l1 d2 l2 d3 _ IH1 _ IH2];
    intros name r Hr.
  - exists r. split; [exact Hr | apply keeps_declaration_refl].
  - rewrite (lookup_update_cases n name _ _ _ Hr). eexists. split; [reflexivity |].
    destruct (n =? name); repeat split.
  - rewrite (lookup_update_cases n name _ _ _ Hr). eexists. split; [reflexivity |].
    destruct (n =? name); repeat split.
  - destruct (IH1 _ _ Hr) as (r2 & Hr2 & (Ha & Hb & Hc & Hd)).
    destruct (IH2 _ _ Hr2) as (r3 & Hr3 & (Ha' & Hb' & Hc' & Hd')).
    exists r3. split; [exact Hr3 |]. repeat split; congruence.
Qed.

(** X3. Resolution adds, removes and reorders no name, and writes only
    ["kind"] and ["mixed"]: the table that [resolve] returns has the keys of
    the table it was given, in the same order, and every record keeps its
    tag, abstract flag, substitution group and base. *)
Theorem X3_resolution_keeps_names_and_declarations :
  (forall d,
      keys (fst (fst (TT.resolve d))) = keys d
      /\ forall name r, lookup name d = Some r ->
           exists r', lookup name (fst (fst (TT.resolve d))) = Some r'
                      /\ keeps_declaration r r')
  /\ (forall d d' i out,
      XS.resolve d = Ok (d', i, out) ->
      keys d' = keys d
      /\ forall name r, lookup name d = Some r ->
           exists r', lookup name d' = Some r' /\ keeps_declaration r r').
Proof.
  assert (Htt : forall d,
             keys (fst (fst (TT.resolve d))) = keys d
             /\ forall name r, lookup name d = Some r ->
                  exists r', lookup name (fst (fst (TT.resolve d))) = Some r'
                             /\ keeps_declaration r r').
  { intros d. destruct (tt_resolve_spec d) as (d' & i & out & _ & -> & Hf & _).
    destruct Hf as ((l & Hc & _) & _). simpl. split.
    - eapply change_keys. exact Hc.
    - eapply change_declaration. exact Hc. }
  split; [exact Htt |].
  intros d d' i out H. destruct (agree_resolve _ _ _ _ H) as (out' & Hr & _).
  specialize (Htt d). rewrite Hr in Htt. exact Htt.
Qed.

Lemma X3_resolution_keeps_names_and_declarations_witness :
  keys (fst (fst (TT.resolve chain_table))) = ["r"; "q"; "p"]
  /\ keys (fst (fst (TT.resolve chain_table))) = keys chain_table.
Proof.
  split; [reflexivity |].
  destruct X3_resolution_keeps_names_and_declarations as [_ Hxs].
  apply (Hxs chain_table _ 3 [Round 1 2; Round 2 2]). vm_compute. reflexivity.
Defined.

(** ** The table that resolution returns *)

Lemma tt_infer_from_cons n names st :
  TT.infer_from (n :: names) st = TT.infer_from names (TT.infer_step n st).
Proof. reflexivity. Qed.

Lemma tt_scan_quiet names :
  forall d c out name,
    snd (fst (TT.infer_from names (d, c, out))) = c -> In name names ->
    exists out1, fst (TT.infer_step name (d, c, out1)) = (d, c).
Proof.
  induction names as [| n names IH]; intros d c out name H Hin; [destruct Hin |].
  rewrite tt_infer_from_cons in H.
  destruct (tt_infer_step_run n (d, c, out)) as (l1 & w1 & Hc1 & Hn1 & _).
  destruct (tt_infer_from_run names (TT.infer_step n (d, c, out)))
    as (l2 & w2 & _ & Hn2 & _).
  destruct (TT.infer_step n (d, c, out)) as [[d1 c1] out1] eqn:E.
  simpl in Hc1, Hn1, Hn2. rewrite H in Hn2.
  assert (Hl1 : l1 = []) by (apply length_zero_iff_nil; lia).
  subst l1. simpl in Hn1. rewrite Nat.add_0_r in Hn1. subst c1.
  pose proof (change_nil _ _ _ Hc1 eq_refl) as ->.
  destruct Hin as [<- | Hin].
  - exists out. rewrite E. reflexivity.
  - eapply IH; eassumption.
Qed.

Lemma tt_step_quiet d c out name info other otherInfo :
  fst (TT.infer_step name (d, c, out)) = (d, c) ->
  lookup name d = Some info -> bool_truthy (mixed info) = false ->
  other_of info = Some other -> other <> "" ->
  lookup (bare other) d = Some otherInfo ->
  bool_truthy (mixed otherInfo) = false
  /\ (kind info = None -> kind otherInfo = None).
Proof.
  intros H Hl Hm Ho Hne Hoi. unfold TT.infer_step in H.
  rewrite Hl, Hm, Ho in H.
  destruct (String.eqb_spec other ""); [contradiction |].
  cbn [negb] in H. cbv zeta in H. rewrite Hoi in H.
  rewrite (tt_copy_mixed_never_writes name other d c out info Hl Hm) in H.
  destruct (tt_copy_kind_run name other (bare other)
              (TT.raise_mixed name (bare other) (d, c, out)))
    as (l & w & _ & Hn & _).
  rewrite H in Hn. simpl in Hn.
  unfold TT.raise_mixed in H, Hn. rewrite Hoi in H, Hn.
  destruct (bool_truthy (mixed otherInfo)); [simpl in Hn; lia |].
  split; [reflexivity |]. intros Hk.
  unfold TT.copy_kind in H. rewrite Hl, Hoi, Hk in H.
  destruct (kind otherInfo); [| reflexivity].
  simpl in H. injection H as _ H. lia.
Qed.

Lemma tt_fixed_point d name info other otherInfo :
  fst (TT.infer d) = (d, 0) ->
  lookup name d = Some info -> bool_truthy (mixed info) = false ->
  other_of info = Some other -> other <> "" ->
  lookup (bare other) d = Some otherInfo ->
  bool_truthy (mixed otherInfo) = false
  /\ (kind info = None -> kind otherInfo = None).
Proof.
  intros Hz Hl Hm Ho Hne Hoi.
  assert (Hin : In name (keys d)) by (apply lookup_keys; congruence).
  assert (H0 : snd (fst (TT.infer_from (keys d) (d, 0, []))) = 0).
  { fold (TT.infer d). rewrite Hz. reflexivity. }
  destruct (tt_scan_quiet _ _ _ _ _ H0 Hin) as (out1 & Hq).
  eapply tt_step_quiet; eassumption.
Qed.

(** X4. The table that [resolve] returns is a fixed point with nothing left
    to propagate: a record that is not mixed and whose reference is a key
    refers to a record that is not mixed either, and it lacks a ["kind"]
    only if the record it refers to lacks one. *)
Theorem X4_nothing_left_to_propagate :
  (forall d name info other otherInfo,
      lookup name (fst (fst (TT.resolve d))) = Some info ->
      bool_truthy (mixed info) = false ->
      other_of info = Some other -> other <> "" ->
      lookup (bare other) (fst (fst (TT.resolve d))) = Some otherInfo ->
      bool_truthy (mixed otherInfo) = false
      /\ (kind info = None -> kind otherInfo = None))
  /\ (forall d d' i out name info other otherInfo,
      XS.resolve d = Ok (d', i, out) ->
      lookup name d' = Some info ->
      bool_truthy (mixed info) = false ->
      other_of info = Some other -> other <> "" ->
      lookup (bare other) d' = Some otherInfo ->
      bool_truthy (mixed otherInfo) = false
      /\ (kind info = None -> kind otherInfo = None)).
Proof.
  split.
  - intros d name info other otherInfo.
    destruct (tt_resolve_spec d) as (d' & i & out & _ & -> & _ & Hz & _). simpl.
    apply tt_fixed_point. exact Hz.
  - intros d d' i out name info other otherInfo H.
    destruct (agree_resolve _ _ _ _ H) as (out' & Hr & _).
    destruct (tt_resolve_spec d) as (d0 & i0 & out0 & _ & Hr0 & _ & Hz & _).
    rewrite Hr in Hr0. injection Hr0 as <- <- <-.
    apply tt_fixed_point. exact Hz.
Qed.

Lemma X4_nothing_left_to_propagate_witness :
  bool_truthy (Some false) = false /\ (@None Kind = None -> @None Kind = None).
Proof.
  apply (proj1 X4_nothing_left_to_propagate cycle_table "a"
           (mkDef "element" false (Some false) (Some "b") None None) "b"
           (mkDef "element" false (Some false) (Some "a") None None));
    [reflexivity | reflexivity | reflexivity | discriminate | reflexivity].
Defined.

(** ** Where resolved facts come from *)

Lemma facts_within_update PK PM name f d :
  facts_within PK PM d ->
  (forall r, lookup name d = Some r ->
     (forall k, kind (f r) = Some k -> PK k)
     /\ (bool_truthy (mixed (f r)) = true -> PM)) ->
  facts_within PK PM (update name f d).
Proof.
  intros Hd Hf k r H. destruct (String.eqb_spec name k) as [-> | Hne].
  - rewrite lookup_update_same in H.
    destruct (lookup k d) as [r0 |] eqn:E; [| discriminate].
    injection H as <-. apply Hf. reflexivity.
  - rewrite lookup_update_other in H by exact Hne. exact (Hd _ _ H).
Qed.

Lemma tt_infer_step_within PK PM name st :
  facts_within PK PM (fst (fst st)) ->
  facts_within PK PM (fst (fst (TT.infer_step name st))).
Proof.
  destruct st as [[d c] out]. cbn [fst]. intros Hd. unfold TT.infer_step. cbv zeta.
  destruct (lookup name d) as [info |] eqn:Hl; [| exact Hd].
  destruct (bool_truthy (mixed info)) eqn:Hm; [exact Hd |].
  destruct (other_of info) as [other |]; [| exact Hd].
  destruct (negb (other =? "")); [| exact Hd].
  destruct (lookup (bare other) d) as [oi |] eqn:Ho; [| exact Hd].
  rewrite (tt_copy_mixed_never_writes name other d c out info Hl Hm).
  rewrite agree_copy_kind, agree_raise_mixed. cbn [fst].
  assert (H1 : facts_within PK PM (fst (XS.raise_mixed name (bare other) (d, c)))).
  { unfold XS.raise_mixed. rewrite Ho.
    destruct (bool_truthy (mixed oi)) eqn:Hom; [| exact Hd]. simpl.
    apply facts_within_update; [exact Hd |]. intros r Hr. simpl. split.
    - apply (Hd _ _ Hr).
    - intros _. apply (proj2 (Hd _ _ Ho)). exact Hom. }
  destruct (XS.raise_mixed name (bare other) (d, c)) as [d1 c1]. simpl in H1.
  unfold XS.copy_kind.
  destruct (lookup name d1) as [i1 |] eqn:Hl1; [| exact H1].
  destruct (lookup (bare other) d1) as [o1 |] eqn:Ho1; [| exact H1].
  destruct (kind i1); [exact H1 |].
  destruct (kind o1) as [k |] eqn:Hk; [| exact H1]. simpl.
  apply facts_within_update; [exact H1 |]. intros r Hr. simpl. split.
  - intros k0 [= <-]. apply (proj1 (H1 _ _ Ho1)). exact Hk.
  - apply (H1 _ _ Hr).
Qed.

Lemma tt_infer_from_within PK PM names :
  forall st, facts_within PK PM (fst (fst st)) ->
    facts_within PK PM (fst (fst (TT.infer_from names st))).
Proof.
  unfold TT.infer_from.
  induction names as [| n names IH]; intros st H; cbn [fold_left]; [exact H |].
  apply IH. apply tt_infer_step_within. exact H.
Qed.

Lemma tt_resolve_loop_within PK PM fuel :
  forall d i d' j out,
    TT.resolve_loop fuel d i = Some (d', j, out) ->
    facts_within PK PM d -> facts_within PK PM d'.
Proof.
  induction fuel as [| fuel IH]; intros d i d' j out H Hd; [discriminate |].
  cbn [TT.resolve_loop] in H.
  pose proof (tt_infer_from_within PK PM (keys d) (d, 0, []) Hd) as H1.
  fold (TT.infer d) in H1.
  destruct (TT.infer d) as [[d1 c1] o1]. simpl in H1.
  destruct (c1 =? 0)%nat.
  - injection H as <- <- <-. exact H1.
  - destruct (TT.resolve_loop fuel d1 (S i)) as [[[d2 j2] rest] |] eqn:E; [| discriminate].
    injection H as <- <- <-. eapply IH; eassumption.
Qed.

Lemma tt_resolve_provenance d name r' :
  lookup name (fst (fst (TT.resolve d))) = Some r' ->
  (forall k, kind r' = Some k ->
     exists name0 r0, lookup name0 d = Some r0 /\ kind r0 = Some k)
  /\ (mixed r' = Some true ->
      exists name0 r0, lookup name0 d = Some r0 /\ mixed r0 = Some true).
Proof.
  intros H.
  destruct (tt_resolve_spec d) as (d' & i & out & Hall & Hr & _).
  rewrite Hr in H. simpl in H.
  assert (Hlt : 2 * length d < S (2 * length d)) by lia.
  assert (H0 : facts_within
                 (fun k => exists name0 r0, lookup name0 d = Some r0 /\ kind r0 = Some k)
                 (exists name0 r0, lookup name0 d = Some r0 /\ mixed r0 = Some true) d).
  { intros n r Hn. split.
    - intros k Hk. exists n, r. split; assumption.
    - intros Hm. exists n, r. split; [exact Hn |].
      destruct (mixed r) as [[|] |]; try discriminate. reflexivity. }
  pose proof (tt_resolve_loop_within _ _ _ _ _ _ _ _ (Hall _ Hlt) H0 _ _ H) as [Hk Hm].
  split; [exact Hk |]. intros Hmr. apply Hm. rewrite Hmr. reflexivity.
Qed.

(** X5. Resolution invents no fact: a ["kind"] that a record has in the
    table [resolve] returns is the ["kind"] of some record of the table it
    was given, and a record is mixed afterwards only if some record was
    mixed before.  So a table without a mixed record stays without one. *)
Theorem X5_resolved_facts_come_from_the_table :
  (forall d name r',
      lookup name (fst (fst (TT.resolve d))) = Some r' ->
      (forall k, kind r' = Some k ->
         exists name0 r0, lookup name0 d = Some r0 /\ kind r0 = Some k)
      /\ (mixed r' = Some true ->
          exists name0 r0, lookup name0 d = Some r0 /\ mixed r0 = Some true))
  /\ (forall d d' i out name r',
      XS.resolve d = Ok (d', i, out) ->
      lookup name d' = Some r' ->
      (forall k, kind r' = Some k ->
         exists name0 r0, lookup name0 d = Some r0 /\ kind r0 = Some k)
      /\ (mixed r' = Some true ->
          exists name0 r0, lookup name0 d = Some r0 /\ mixed r0 = Some true)).
Proof.
  split; [exact tt_resolve_provenance |].
  intros d d' i out name r' H Hl.
  destruct (agree_resolve _ _ _ _ H) as (out' & Hr & _).
  apply (tt_resolve_provenance d name r'). rewrite Hr. exact Hl.
Qed.

Lemma X5_resolved_facts_come_from_the_table_witness :
  exists name0 r0, lookup name0 chain_table = Some r0 /\ kind r0 = Some complex.
Proof.
  destruct (proj1 X5_resolved_facts_come_from_the_table chain_table "r"
              (mkDef "element" false (Some true) (Some "tei:q") (Some complex) None))
    as [Hk _]; [reflexivity |].
  apply Hk. reflexivity.
Defined.

(** ** When [SchemaAnalysis.resolve] raises *)

Lemma xs_infer_step_raise name d c e :
  XS.infer_step name (d, c) = Raise e -> fatal d e.
Proof.
  unfold XS.infer_step.
  destruct (lookup name d) as [info |] eqn:Hl; [| discriminate].
  destruct (bool_truthy (mixed info)) eqn:Hm; [discriminate |].
  destruct (other_of info) as [other |] eqn:Ho; [| discriminate].
  destruct (String.eqb_spec other "") as [-> | Hne]; [discriminate |]. simpl.
  destruct (lookup (bare other) d) eqn:Hb; [discriminate |].
  intros [= <-]. exists name, other, info. repeat split; assumption.
Qed.

Lemma change_lookup_none_back d l d' k :
  change d l d' -> lookup k d' = None -> lookup k d = None.
Proof.
  intros H Hk. apply change_keys in H.
  destruct (lookup k d) eqn:E; [| reflexivity].
  assert (In k (keys d)) by (apply lookup_keys; congruence).
  rewrite <- H in *. apply lookup_keys in H0. contradiction.
Qed.

(** A record that makes a later table raise is in the table from the
    start: resolution writes neither names nor references, and never makes
    a record less mixed. *)
Lemma fatal_back d l d' e : change d l d' -> fatal d' e -> fatal d e.
Proof.
  intros Hc (name & other & info & (Hl & Ho & Hne & Hb) & Hm & ->).
  destruct (lookup name d) as [info0 |] eqn:Hl0.
  - destruct (change_declaration _ _ _ Hc _ _ Hl0) as (r' & Hr' & (_ & _ & Hs & Hbs)).
    rewrite Hl in Hr'. injection Hr' as <-.
    destruct (change_grows _ _ _ Hc _ _ Hl0) as (r' & Hr' & [Hg _]).
    rewrite Hl in Hr'. injection Hr' as <-.
    exists name, other, info0. repeat split; try assumption.
    + unfold other_of in *. rewrite <- Hbs, <- Hs. exact Ho.
    + eapply change_lookup_none_back; eassumption.
    + destruct (mixed info0) as [[|] |] eqn:E; try reflexivity.
      rewrite (Hg eq_refl) in Hm. discriminate.
  - rewrite (change_lookup_none _ _ _ _ Hc Hl0) in Hl. discriminate.
Qed.

Lemma xs_infer_from_raise names :
  forall d c e, XS.infer_from names (d, c) = Raise e -> fatal d e.
Proof.
  induction names as [| n names IH]; intros d c e H; [discriminate |].
  rewrite xs_infer_from_cons in H.
  destruct (XS.infer_step n (d, c)) as [[d1 c1] | e1] eqn:E.
  - destruct (xs_infer_step_run _ _ _ E) as (l & Hc & _).
    eapply fatal_back; [exact Hc | eapply IH; exact H].
  - injection H as <-. eapply xs_infer_step_raise. exact E.
Qed.

Lemma xs_resolve_loop_raise fuel :
  forall d i e, XS.resolve_loop fuel d i = Some (Raise e) -> fatal d e.
Proof.
  induction fuel as [| fuel IH]; intros d i e H; [discriminate |].
  cbn [XS.resolve_loop] in H.
  destruct (XS.infer d) as [[d1 c1] | e1] eqn:E.
  - destruct (xs_infer_change _ _ _ E) as (l & Hc & _).
    destruct (c1 =? 0)%nat; [discriminate |].
    destruct (XS.resolve_loop fuel d1 (S i)) as [[[[d2 j] rest] | e2] |] eqn:E2;
      try discriminate.
    injection H as <-. eapply fatal_back; [exact Hc | eapply IH; exact E2].
  - injection H as <-. eapply xs_infer_from_raise. exact E.
Qed.

Lemma xs_infer_from_fatal name other info names :
  forall d c,
    dangling d name other info -> bool_truthy (mixed info) = false ->
    In name names ->
    exists e, XS.infer_from names (d, c) = Raise e.
Proof.
  induction names as [| n names IH]; intros d c Hd Hm Hin; [destruct Hin |].
  rewrite xs_infer_from_cons.
  destruct (XS.infer_step n (d, c)) as [[d1 c1] | e1] eqn:E; [| eauto].
  destruct (String.eqb_spec n name) as [-> | Hne].
  - exfalso. destruct Hd as (Hl & Ho & Hno & Hb). unfold XS.infer_step in E.
    rewrite Hl, Hm, Ho in E.
    destruct (String.eqb_spec other ""); [contradiction |]. simpl in E.
    rewrite Hb in E. discriminate.
  - destruct (xs_infer_step_run _ _ _ E) as (l & Hc & _ & Hi). simpl in Hc.
    apply IH.
    + eapply dangling_change; [exact Hd | exact Hc |].
      intros H. apply Hi in H. destruct H as [H | []]. congruence.
    + exact Hm.
    + destruct Hin as [H | H]; [congruence | exact H].
Qed.

(** X6. [SchemaAnalysis.resolve] raises exactly on the tables in which some
    record that is not mixed has a consulted reference (non-empty, base
    before substitution group, prefix stripped) that is not a key; what it
    raises is the [KeyError] of such a reference.  On every other table it
    returns. *)
Theorem X6_SchemaAnalysis_raises_exactly_on_dangling_references :
  forall d,
    ((exists e, XS.resolve d = Raise e) <->
     (exists name other info,
         dangling d name other info /\ bool_truthy (mixed info) = false))
    /\ (forall e, XS.resolve d = Raise e -> fatal d e).
Proof.
  intros d.
  assert (Hraise : forall e, XS.resolve d = Raise e -> fatal d e).
  { intros e H. destruct (xs_resolve_spec d) as (r & Hall & Hr & _).
    rewrite H in Hr. subst r.
    assert (Hlt : 2 * length d < S (2 * length d)) by lia.
    eapply xs_resolve_loop_raise. exact (Hall _ Hlt). }
  split; [| exact Hraise]. split.
  - intros (e & H). destruct (Hraise e H) as (name & other & info & Hd & Hm & _).
    exists name, other, info. split; assumption.
  - intros (name & other & info & Hd & Hm).
    assert (Hin : In name (keys d)).
    { apply lookup_keys. destruct Hd as (Hl & _). congruence. }
    destruct (xs_infer_from_fatal name other info (keys d) d 0 Hd Hm Hin) as (e & He).
    exists e. unfold XS.resolve. cbn [XS.resolve_loop].
    fold (XS.infer d) in He. rewrite He. reflexivity.
Qed.

Lemma X6_SchemaAnalysis_raises_exactly_on_dangling_references_witness :
  (exists e,
      XS.resolve
        [("s", mkDef "element" false (Some false) (Some "tei:missing") None None)]
      = Raise e)
  /\ fatal
       [("s", mkDef "element" false (Some false) (Some "tei:missing") None None)]
       (KeyError "missing").
Proof.
  pose (d := [("s", mkDef "element" false (Some false) (Some "tei:missing")
                 None None)]).
  split.
  - apply (proj2 (proj1
      (X6_SchemaAnalysis_raises_exactly_on_dangling_references d))).
    exists "s", "tei:missing",
      (mkDef "element" false (Some false) (Some "tei:missing") None None).
    split; [| reflexivity].
    split; [reflexivity | split; [reflexivity | split; [discriminate | reflexivity]]].
  - apply (proj2 (X6_SchemaAnalysis_raises_exactly_on_dangling_references d)).
    reflexivity.
Defined.

(** ** Namespace prefixes *)

Lemma after_colon_no_colon s : no_colon s = true -> after_colon s = None.
Proof.
  induction s as [| c s IH]; simpl; [reflexivity |].
  destruct (Ascii.eqb c ":"); simpl; [discriminate | exact IH].
Qed.

Lemma after_colon_prefix p rest :
  no_colon p = true -> after_colon (p ++ ":" ++ rest) = Some rest.
Proof.
  induction p as [| c p IH]; simpl; [reflexivity |].
  destruct (Ascii.eqb c ":"); simpl; [discriminate | exact IH].
Qed.

(** X7. The key that a reference is looked up under: a reference without a
    colon is its own key, and of a reference with a prefix only what follows
    the first colon is kept, further colons included. *)
Theorem X7_bare_strips_the_first_prefix :
  (forall s, no_colon s = true -> bare s = s)
  /\ (forall p rest, no_colon p = true -> bare (p ++ ":" ++ rest) = rest).
Proof.
  split.
  - intros s H. unfold bare. rewrite (after_colon_no_colon s H). reflexivity.
  - intros p rest H. unfold bare. rewrite (after_colon_prefix p rest H). reflexivity.
Qed.

Lemma X7_bare_strips_the_first_prefix_witness :
  bare "p" = "p" /\ bare "tei:p" = "p" /\ bare "a:b:c" = "b:c".
Proof.
  destruct X7_bare_strips_the_first_prefix as [H1 H2]. split; [| split].
  - apply H1. reflexivity.
  - apply (H2 "tei" "p"). reflexivity.
  - apply (H2 "a" "b:c"). reflexivity.
Defined.

(** ** Invariants of the extraction *)

Lemma every_children P t a cs :
  every P (Node t a cs) -> P (Node t a cs) /\ Forall (every P) cs.
Proof.
  intros [H Hcs]. split; [exact H |]. clear H.
  induction cs as [| c cs IH]; [constructor |].
  destruct Hcs as [Hc Hrest]. constructor; [exact Hc | apply IH; exact Hrest].
Qed.

Lemma every_true n : every (fun _ => True) n.
Proof.
  induction n as [t a cs IH] using node_induction. split; [exact I |].
  induction IH as [| c cs' Hc _ IHcs]; [exact I | split; assumption].
Qed.

(** An invariant of the visits of the nodes that satisfy [P] is an
    invariant of the traversal of a tree of such nodes. *)
Lemma findDefs_preserves (P : node -> Prop) (Inv : table * counter -> Prop) :
  (forall n dn top st st', P n -> visit n dn top st = Ok st' -> Inv st -> Inv st') ->
  forall n, every P n ->
    forall dn top st st', findDefs n dn top st = Ok st' -> Inv st -> Inv st'.
Proof.
  intros Hvisit. induction n as [t a cs IH] using node_induction.
  intros He dn top st st' H Hst. apply every_children in He. destruct He as [Hn Hcs].
  rewrite findDefs_eq in H.
  destruct (visit (Node t a cs) dn top st) as [st1 | e] eqn:Ev; [| discriminate].
  cbv beta iota delta [bind] in H.
  pose proof (Hvisit _ _ _ _ _ Hn Ev Hst) as H1.
  revert H. generalize (fst (child_context (Node t a cs) dn)).
  generalize (snd (child_context (Node t a cs) dn)). intros top' dn'.
  clear Ev Hst Hn. revert st1 H1.
  induction IH as [| ch cs' Hch _ IHcs]; intros st1 H1 H.
  - injection H as <-. exact H1.
  - rewrite visit_children_cons in H.
    inversion Hcs as [| ? ? Hc Hrest]; subst.
    destruct (findDefs ch dn' top' st1) as [st2 | e] eqn:E;
      [| rewrite visit_children_raise in H; discriminate].
    apply (IHcs Hrest st2); [| exact H].
    eapply Hch; eassumption.
Qed.

Lemma update_id name d : update name (fun r => r) d = d.
Proof.
  induction d as [| [k r] d IH]; simpl; [reflexivity |].
  destruct (k =? name); [reflexivity | rewrite IH; reflexivity].
Qed.

Lemma update_update name f g d :
  update name g (update name f d) = update name (fun r => g (f r)) d.
Proof.
  induction d as [| [k r] d IH]; simpl; [reflexivity |].
  destruct (k =? name) eqn:E; simpl; rewrite E; [reflexivity |].
  rewrite IH. reflexivity.
Qed.

(** The writes onto the enclosing definition, case by case. *)
Lemma enclosing_cases n dn top d d' :
  enclosing n dn top d = Ok d' ->
  d' = d
  \/ (exists s, types (node_tag n) = true
                /\ d' = update s (set_kind (if node_tag n =? "simpleType"
                                            then simple else complex)) d)
  \/ (exists s, types (node_tag n) = true
                /\ attr_true (node_get n "mixed") = true
                /\ d' = update s
                          (fun r => set_mixed (Some true)
                                      (set_kind (if node_tag n =? "simpleType"
                                                 then simple else complex) r)) d)
  \/ (exists s b, (node_tag n =? "extension") = true
                  /\ node_get n "base" = Some b /\ b <> ""
                  /\ d' = update s (set_base b) d).
Proof.
  unfold enclosing, setitem. intros H.
  destruct dn as [s |]; [| injection H as <-; auto].
  destruct (negb (s =? "")); [| injection H as <-; auto].
  destruct top.
  - destruct (types (node_tag n)) eqn:Ht; [| injection H as <-; auto].
    destruct (mem s d); [| discriminate]. simpl in H.
    destruct (attr_true (node_get n "mixed")) eqn:Hm.
    + destruct (mem s _); [| discriminate]. injection H as <-.
      right. right. left. exists s. rewrite update_update. auto.
    + injection H as <-. right. left. exists s. auto.
  - destruct (node_tag n =? "extension") eqn:Ht; [| injection H as <-; auto].
    destruct (node_get n "base") as [b |] eqn:Hb; [| injection H as <-; auto].
    destruct (String.eqb_spec b "") as [-> | Hne]; simpl in H;
      [injection H as <-; auto |].
    destruct (mem s d); [| discriminate]. injection H as <-.
    right. right. right. exists s, b. auto.
Qed.

Lemma enclosing_shape n dn top d d' :
  enclosing n dn top d = Ok d' ->
  exists s f, d' = update s f d /\ forall r, same_decl r (f r).
Proof.
  intros H.
  destruct (enclosing_cases _ _ _ _ _ H)
    as [-> | [(s & _ & ->) | [(s & _ & _ & ->) | (s & b & _ & _ & _ & ->)]]].
  - exists "", (fun r => r). split; [symmetry; apply update_id |].
    intros r. apply same_decl_refl.
  - exists s. eexists. split; [reflexivity |]. intros r. repeat split.
  - exists s. eexists. split; [reflexivity |]. intros r. repeat split.
  - exists s. eexists. split; [reflexivity |]. intros r. repeat split.
Qed.

Lemma In_update k r' name f d :
  In (k, r') (update name f d) -> exists r, In (k, r) d /\ (r' = r \/ r' = f r).
Proof.
  induction d as [| [k0 r0] d IH]; simpl; [intros [] |].
  destruct (k0 =? name); simpl.
  - intros [[= <- <-] | H]; [exists r0; auto | exists r'; auto].
  - intros [[= <- <-] | H]; [exists r0; auto |].
    destruct (IH H) as (r & Hr & Hor). exists r. auto.
Qed.

Lemma visit_well_formed n dn top st st' :
  visit n dn top st = Ok st' -> well_formed st -> well_formed st'.
Proof.
  destruct st as [d c]. unfold visit. simpl fst. simpl snd. intros H (Hnd & Hent & Hcnt).
  destruct (enclosing n dn top d) as [d1 | e] eqn:E; [| discriminate].
  cbv beta iota delta [bind] in H. injection H as <-.
  destruct (enclosing_shape _ _ _ _ _ E) as (s & f & -> & Hf). simpl in *.
  assert (Hent1 : forall name r, In (name, r) (update s f d) ->
                    name <> "" /\ notInteresting (tag r) = false).
  { intros name r Hin. destruct (In_update _ _ _ _ _ Hin) as (r0 & Hr0 & [-> | ->]).
    - exact (Hent _ _ Hr0).
    - destruct (Hent _ _ Hr0) as [Hne Hi]. split; [exact Hne |].
      destruct (Hf r0) as (-> & _). exact Hi. }
  assert (Hcnt1 : forall k, count k c <> 0 -> mem k (update s f d) = true).
  { intros k Hk. rewrite mem_update. apply Hcnt. exact Hk. }
  assert (Hsame : forall c', (forall k, count k c' <> 0 -> mem k (update s f d) = true) ->
                             well_formed (update s f d, c')).
  { intros c' Hc'. split; [| split]; simpl;
      [rewrite keys_update; exact Hnd | exact Hent1 | exact Hc']. }
  unfold register.
  destruct (node_get n "name") as [name |] eqn:Hn; [| apply Hsame; exact Hcnt1].
  destruct (String.eqb_spec name "") as [-> | Hne]; simpl;
    [apply Hsame; exact Hcnt1 |].
  destruct (notInteresting (node_tag n)) eqn:Hi; simpl;
    [apply Hsame; exact Hcnt1 |].
  destruct (mem name (update s f d)) eqn:Hm.
  - apply Hsame. intros k Hk.
    destruct (String.eqb_spec name k) as [<- | Hnk]; [exact Hm |].
    rewrite count_incr_other in Hk by exact Hnk. apply Hcnt1. exact Hk.
  - split; [| split]; simpl.
    + unfold keys. rewrite map_app. fold (keys (update s f d)).
      rewrite keys_update. simpl.
      apply (Permutation_NoDup (l := name :: keys d));
        [apply Permutation_cons_append |].
      constructor; [| exact Hnd].
      intros Hin. apply lookup_keys in Hin. apply mem_true in Hin.
      rewrite mem_update in Hm. congruence.
    + intros k r Hin. apply in_app_or in Hin. destruct Hin as [Hin | [[= <- <-] | []]].
      * exact (Hent1 _ _ Hin).
      * split; [exact Hne | exact Hi].
    + intros k Hk. apply mem_app_l. apply Hcnt1. exact Hk.
Qed.

Lemma extract_well_formed root d c :
  extract root = Ok (d, c) -> well_formed (d, c).
Proof.
  intros H.
  apply (findDefs_preserves (fun _ => True) well_formed
           (fun n dn top st st' _ => visit_well_formed n dn top st st')
           root (every_true root) None false ([], []) (d, c) H).
  split; [| split]; simpl.
  - apply NoDup_nil.
  - intros name r [].
  - intros name Hc. contradiction.
Qed.

(** X8. The table and the counter that extraction returns are well formed:
    no name occurs twice, no name is empty, no record has the tag attribute,
    attributeGroup or group, and only names that have a record are counted
    as redefined. *)
Theorem X8_extraction_is_well_formed :
  forall root d c,
    extract root = Ok (d, c) ->
    NoDup (keys d)
    /\ (forall name r, lookup name d = Some r ->
          name <> "" /\ notInteresting (tag r) = false)
    /\ (forall name, count name c <> 0 -> lookup name d <> None).
Proof.
  intros root d c H.
  destruct (extract_well_formed _ _ _ H) as (Hnd & Hent & Hcnt). simpl in *.
  split; [exact Hnd |]. split.
  - intros name r Hl. apply Hent. apply lookup_In. exact Hl.
  - intros name Hc. apply mem_true. apply Hcnt. exact Hc.
Qed.

Lemma X8_extraction_is_well_formed_witness :
  NoDup ["p"] /\ count "p" [] = 0.
Proof.
  destruct (X8_extraction_is_well_formed scenarioA
              [("p", mkDef "element" false (Some true) None (Some complex) None)] []
              eq_refl) as (Hnd & _).
  split; [exact Hnd | reflexivity].
Defined.

Lemma register_In n d c k r :
  In (k, r) (fst (register n (d, c))) ->
  In (k, r) d
  \/ r = mkDef (node_tag n) (attr_true (node_get n "abstract"))
           (Some (attr_true (node_get n "mixed")))
           (node_get n "substitutionGroup") None None.
Proof.
  unfold register.
  destruct (node_get n "name") as [name |]; [| auto].
  destruct (negb (name =? "") && negb (notInteresting (node_tag n))); [| auto].
  destruct (mem name d); [auto |]. simpl. intros H.
  apply in_app_or in H. destruct H as [H | [[= <- <-] | []]]; auto.
Qed.

Lemma visit_In n dn top d c st' k r' :
  visit n dn top (d, c) = Ok st' -> In (k, r') (fst st') ->
  r' = mkDef (node_tag n) (attr_true (node_get n "abstract"))
         (Some (attr_true (node_get n "mixed")))
         (node_get n "substitutionGroup") None None
  \/ exists r, In (k, r) d
       /\ (r' = r
           \/ (types (node_tag n) = true
               /\ r' = set_kind (if node_tag n =? "simpleType"
                                 then simple else complex) r)
           \/ (types (node_tag n) = true
               /\ attr_true (node_get n "mixed") = true
               /\ r' = set_mixed (Some true)
                         (set_kind (if node_tag n =? "simpleType"
                                    then simple else complex) r))
           \/ (exists b, (node_tag n =? "extension") = true /\ r' = set_base b r)).
Proof.
  unfold visit. simpl fst. simpl snd. intros H Hin.
  destruct (enclosing n dn top d) as [d1 | e] eqn:E; [| discriminate].
  cbv beta iota delta [bind] in H. injection H as <-.
  apply register_In in Hin. destruct Hin as [Hin | ->]; [| left; reflexivity].
  right.
  destruct (enclosing_cases _ _ _ _ _ E)
    as [-> | [(s & Ht & ->) | [(s & Ht & Hm & ->) | (s & b & Ht & _ & _ & ->)]]].
  - exists r'. split; [exact Hin | left; reflexivity].
  - destruct (In_update _ _ _ _ _ Hin) as (r & Hr & [-> | ->]);
      exists r; (split; [exact Hr |]); [left; reflexivity |].
    right. left. split; [exact Ht | reflexivity].
  - destruct (In_update _ _ _ _ _ Hin) as (r & Hr & [-> | ->]);
      exists r; (split; [exact Hr |]); [left; reflexivity |].
    right. right. left. split; [exact Ht |]. split; [exact Hm | reflexivity].
  - destruct (In_update _ _ _ _ _ Hin) as (r & Hr & [-> | ->]);
      exists r; (split; [exact Hr |]); [left; reflexivity |].
    right. right. right. exists b. split; [exact Ht | reflexivity].
Qed.

(** X9. Extraction takes every fact from a node that states it: on a
    schema without simpleType and complexType nodes no record has a
    ["kind"], on a schema without extension nodes no record has a ["base"],
    and on a schema in which no node has the attribute [mixed="true"] every
    record has ["mixed"] false. *)
Theorem X9_extracted_facts_come_from_nodes :
  forall root d c,
    extract root = Ok (d, c) ->
    (every (fun n => types (node_tag n) = false) root ->
     forall name r, lookup name d = Some r -> kind r = None)
    /\ (every (fun n => (node_tag n =? "extension") = false) root ->
        forall name r, lookup name d = Some r -> base r = None)
    /\ (every (fun n => attr_true (node_get n "mixed") = false) root ->
        forall name r, lookup name d = Some r -> mixed r = Some false).
Proof.
  intros root d c H. split; [| split]; intros He name r Hl; apply lookup_In in Hl.
  - apply (findDefs_preserves (fun n => types (node_tag n) = false)
             (fun st => forall k r, In (k, r) (fst st) -> kind r = None)) with
        (n := root) (dn := None) (top := false) (st := ([], [])) (st' := (d, c))
        (k := name); try assumption; [| intros k r0 []].
    intros n dn top [d0 c0] st' Hn Hv Hinv k r' Hin.
    destruct (visit_In _ _ _ _ _ _ _ _ Hv Hin)
      as [-> | (r0 & Hr0 & [-> | [[Ht _] | [[Ht _] | (b & _ & ->)]]])];
      try reflexivity; try congruence.
    + exact (Hinv _ _ Hr0).
    + exact (Hinv _ _ Hr0).
  - apply (findDefs_preserves (fun n => (node_tag n =? "extension") = false)
             (fun st => forall k r, In (k, r) (fst st) -> base r = None)) with
        (n := root) (dn := None) (top := false) (st := ([], [])) (st' := (d, c))
        (k := name); try assumption; [| intros k r0 []].
    intros n dn top [d0 c0] st' Hn Hv Hinv k r' Hin.
    destruct (visit_In _ _ _ _ _ _ _ _ Hv Hin)
      as [-> | (r0 & Hr0 & [-> | [[_ ->] | [(_ & _ & ->) | (b & Ht & _)]]])];
      try reflexivity; try congruence; try exact (Hinv _ _ Hr0).
  - apply (findDefs_preserves (fun n => attr_true (node_get n "mixed") = false)
             (fun st => forall k r, In (k, r) (fst st) -> mixed r = Some false)) with
        (n := root) (dn := None) (top := false) (st := ([], [])) (st' := (d, c))
        (k := name); try assumption; [| intros k r0 []].
    intros n dn top [d0 c0] st' Hn Hv Hinv k r' Hin.
    destruct (visit_In _ _ _ _ _ _ _ _ Hv Hin)
      as [-> | (r0 & Hr0 & [-> | [[_ ->] | [(_ & Hm & _) | (b & _ & ->)]]])];
      try congruence; try exact (Hinv _ _ Hr0).
    simpl. rewrite Hn. reflexivity.
Qed.

Lemma X9_extracted_facts_come_from_nodes_witness :
  kind (mkDef "element" false (Some false) (Some "missing") None None) = None.
Proof.
  apply (proj1 (X9_extracted_facts_come_from_nodes scenarioE _ _ eq_refl)) with
    (name := "s"); [simpl; auto | reflexivity].
Defined.

(** ** The order of the report *)

Lemma ascii_compare_refl a : Ascii.compare a a = Eq.
Proof. unfold Ascii.compare. apply BinNat.N.compare_refl. Qed.

Lemma ascii_compare_lt_trans a b c :
  Ascii.compare a b = Lt -> Ascii.compare b c = Lt -> Ascii.compare a c = Lt.
Proof.
  unfold Ascii.compare. rewrite !BinNat.N.compare_lt_iff.
  apply BinNat.N.lt_trans.
Qed.

Lemma string_compare_refl s : String.compare s s = Eq.
Proof.
  induction s as [| c s IH]; simpl; [reflexivity |].
  rewrite ascii_compare_refl. exact IH.
Qed.

Lemma string_compare_lt_trans a :
  forall b c, String.compare a b = Lt -> String.compare b c = Lt ->
              String.compare a c = Lt.
Proof.
  induction a as [| x a IH]; intros [| y b] [| z c]; simpl; try discriminate;
    try reflexivity.
  destruct (Ascii.compare x y) eqn:Hxy; destruct (Ascii.compare y z) eqn:Hyz;
    try discriminate.
  - apply Ascii.compare_eq_iff in Hxy, Hyz. subst. rewrite ascii_compare_refl.
    apply IH.
  - apply Ascii.compare_eq_iff in Hxy. subst. rewrite Hyz. reflexivity.
  - apply Ascii.compare_eq_iff in Hyz. subst. rewrite Hxy. reflexivity.
  - rewrite (ascii_compare_lt_trans _ _ _ Hxy Hyz). reflexivity.
Qed.

(** Two comparisons in a row, neither of them [Gt]. *)
Lemma string_compare_trans a b c :
  String.compare a b <> Gt -> String.compare b c <> Gt ->
  String.compare a c <> Gt
  /\ (String.compare a c = Eq ->
      String.compare a b = Eq /\ String.compare b c = Eq).
Proof.
  intros Hab Hbc.
  destruct (String.compare a b) eqn:E1; [| | contradiction];
    destruct (String.compare b c) eqn:E2; try contradiction.
  - apply String.compare_eq_iff in E1, E2. subst.
    rewrite string_compare_refl. split; [discriminate | auto].
  - apply String.compare_eq_iff in E1. subst. rewrite E2.
    split; discriminate.
  - apply String.compare_eq_iff in E2. subst. rewrite E1.
    split; discriminate.
  - rewrite (string_compare_lt_trans _ _ _ E1 E2). split; discriminate.
Qed.

Lemma name_le_trans a b c : name_le a b -> name_le b c -> name_le a c.
Proof.
  unfold name_le, String.leb. intros Hab Hbc.
  destruct (string_compare_trans a b c) as [H _].
  - destruct (String.compare a b); congruence.
  - destruct (String.compare b c); congruence.
  - destruct (String.compare a c); congruence.
Qed.

Lemma key_le_trans x y z : key_le x y -> key_le y z -> key_le x z.
Proof.
  unfold key_le.
  destruct (eKey x) as [[a1 a2] a3], (eKey y) as [[b1 b2] b3],
    (eKey z) as [[c1 c2] c3]. unfold key_leb. intros Hxy Hyz.
  destruct (string_compare_trans a1 b1 c1) as [H1 H1e].
  { destruct (String.compare a1 b1); congruence. }
  { destruct (String.compare b1 c1); congruence. }
  destruct (String.compare a1 c1); [| reflexivity | contradiction].
  destruct (H1e eq_refl) as [E1 E2]. rewrite E1 in Hxy. rewrite E2 in Hyz.
  destruct (string_compare_trans a2 b2 c2) as [H2 H2e].
  { destruct (String.compare a2 b2); congruence. }
  { destruct (String.compare b2 c2); congruence. }
  destruct (String.compare a2 c2); [| reflexivity | contradiction].
  destruct (H2e eq_refl) as [E3 E4]. rewrite E3 in Hxy. rewrite E4 in Hyz.
  exact (name_le_trans _ _ _ Hxy Hyz).
Qed.

Lemma key_le_total x y : key_leb (eKey x) (eKey y) = false -> key_le y x.
Proof.
  unfold key_le.
  destruct (eKey x) as [[a1 a2] a3], (eKey y) as [[b1 b2] b3]. unfold key_leb.
  rewrite (String.compare_antisym b1 a1), (String.compare_antisym b2 a2).
  unfold String.leb. rewrite (String.compare_antisym b3 a3).
  destruct (String.compare a1 b1); simpl; try congruence.
  destruct (String.compare a2 b2); simpl; try congruence.
  destruct (String.compare a3 b3); simpl; congruence.
Qed.

Lemma insert_sorted x l : Sorted key_le l -> Sorted key_le (insert x l).
Proof.
  induction 1 as [| y l Hl IH Hhd]; cbn [insert].
  - constructor; constructor.
  - destruct (key_leb (eKey x) (eKey y)) eqn:E.
    + constructor; [constructor; assumption | constructor; exact E].
    + constructor; [exact IH |].
      destruct l as [| z l]; cbn [insert].
      * constructor. apply key_le_total. exact E.
      * inversion Hhd; subst.
        destruct (key_leb (eKey x) (eKey z)); constructor;
          [apply key_le_total; exact E | assumption].
Qed.

Lemma sorted_is_sorted d : StronglySorted key_le (sorted d).
Proof.
  apply Sorted_StronglySorted; [exact key_le_trans |].
  unfold sorted. induction d as [| x d IH]; cbn [fold_right];
    [constructor | apply insert_sorted; exact IH].
Qed.

Lemma filter_strongly_sorted {A : Type} (R : A -> A -> Prop) f l :
  StronglySorted R l -> StronglySorted R (filter f l).
Proof.
  induction 1 as [| x l Hl IH Hx]; simpl; [constructor |].
  destruct (f x); [| exact IH]. constructor; [exact IH |].
  rewrite Forall_forall in *. intros y Hy. apply filter_In in Hy. apply Hx, Hy.
Qed.

(** Among the selected items the sort key orders by name. *)
Lemma selected_key_le x y :
  selected x = true -> selected y = true -> key_le x y -> name_le (fst x) (fst y).
Proof.
  unfold selected, key_le, eKey, name_le. intros Hx Hy.
  apply andb_prop in Hx, Hy. destruct Hx as [Hx1 Hx2], Hy as [Hy1 Hy2].
  apply String.eqb_eq in Hx1, Hy1. rewrite Hx1, Hy1.
  destruct (abstract (snd x)); [discriminate |].
  destruct (abstract (snd y)); [discriminate |].
  simpl. exact (fun H => H).
Qed.

Lemma report_names_sorted d : StronglySorted name_le (report_names d).
Proof.
  unfold report_names, report_defs. rewrite map_map. simpl.
  pose proof (filter_strongly_sorted key_le selected _ (sorted_is_sorted d)) as H.
  assert (Hsel : Forall (fun x => selected x = true) (filter selected (sorted d))).
  { rewrite Forall_forall. intros x Hx. apply filter_In in Hx. apply Hx. }
  induction H as [| x l Hl IH Hx]; simpl; [constructor |].
  inversion Hsel as [| ? ? Hsx Hsl]; subst.
  constructor; [apply IH; exact Hsl |].
  rewrite Forall_forall in *. intros a Ha. apply in_map_iff in Ha.
  destruct Ha as (y & <- & Hy). apply selected_key_le; auto.
Qed.

Lemma NoDup_keys_filter (f : string * DefinitionRecord -> bool) l :
  NoDup (keys l) -> NoDup (keys (filter f l)).
Proof.
  unfold keys. induction l as [| x l IH]; simpl; [auto |].
  intros H. inversion H as [| ? ? Hx Hl]; subst.
  destruct (f x); simpl; [| apply IH; exact Hl].
  constructor; [| apply IH; exact Hl].
  intros Hin. apply Hx. apply in_map_iff in Hin. destruct Hin as (y & Hy & Hin).
  apply filter_In in Hin. apply in_map_iff. exists y. split; [exact Hy | apply Hin].
Qed.

Lemma strongly_sorted_strict l :
  StronglySorted name_le l -> NoDup l -> StronglySorted name_lt l.
Proof.
  induction 1 as [| a l Hl IH Ha]; intros Hnd; [constructor |].
  inversion Hnd as [| ? ? Hna Hndl]; subst.
  constructor; [apply IH; exact Hndl |].
  rewrite Forall_forall in *. intros b Hb. specialize (Ha b Hb).
  unfold name_le, name_lt, String.leb, String.ltb in *.
  destruct (String.compare a b) eqn:E; try congruence.
  apply String.compare_eq_iff in E. subst. contradiction.
Qed.

(** X10. The report lists its elements in ascending order of their names
    (compared character by character, as Python compares strings), and in
    strictly ascending order, each name once, when the table has no name
    twice. *)
Theorem X10_report_is_in_name_order :
  forall d,
    StronglySorted name_le (report_names d)
    /\ (NoDup (keys d) -> StronglySorted name_lt (report_names d)).
Proof.
  intros d. split; [apply report_names_sorted |]. intros Hnd.
  apply strongly_sorted_strict; [apply report_names_sorted |].
  unfold report_names, report_defs. rewrite map_map. simpl.
  change (NoDup (keys (filter selected (sorted d)))).
  apply NoDup_keys_filter.
  apply (Permutation_NoDup (l := keys d)); [| exact Hnd].
  unfold keys. apply Permutation_map. apply Permutation_sym. apply sorted_perm.
Qed.

Lemma X10_report_is_in_name_order_witness :
  StronglySorted name_lt ["p"; "q"; "r"].
Proof.
  apply (proj2 (X10_report_is_in_name_order chain_table)).
  repeat constructor; simpl; intuition discriminate.
Defined.

(** ** The override merge *)

Lemma transRep_none_iff b o :
  TT.transRep b o = None <-> kind b = kind o /\ mixed b = mixed o.
Proof.
  unfold TT.transRep.
  destruct (kind b) as [[|] |], (kind o) as [[|] |],
    (mixed b) as [[|] |], (mixed o) as [[|] |]; simpl;
    split; intros H; try discriminate; try (split; reflexivity);
    try reflexivity; destruct H; discriminate.
Qed.

(** X11. A transition is recorded for a name exactly when the two records
    differ in ["kind"] or in ["mixed"]; it shows both fields when both
    differ, and the one that differs otherwise. *)
Theorem X11_transition_iff_facts_differ :
  forall b o,
    (TT.transRep b o = None <-> kind b = kind o /\ mixed b = mixed o)
    /\ (kind b <> kind o -> mixed b <> mixed o ->
        TT.transRep b o
        = Some (TT.repKind (kind b) ++ " " ++ TT.repMixed (mixed b) ++ " ==> "
                ++ TT.repKind (kind o) ++ " " ++ TT.repMixed (mixed o))%string)
    /\ (kind b <> kind o -> mixed b = mixed o ->
        TT.transRep b o
        = Some (TT.repKind (kind b) ++ " ==> " ++ TT.repKind (kind o))%string)
    /\ (kind b = kind o -> mixed b <> mixed o ->
        TT.transRep b o
        = Some (TT.repMixed (mixed b) ++ " ==> " ++ TT.repMixed (mixed o))%string).
Proof.
  intros b o. split; [apply transRep_none_iff |].
  unfold TT.transRep.
  destruct (kind b) as [[|] |], (kind o) as [[|] |],
    (mixed b) as [[|] |], (mixed o) as [[|] |]; simpl;
    repeat split; intros; try reflexivity; congruence.
Qed.

Lemma X11_transition_iff_facts_differ_witness :
  TT.transRep (mkDef "element" false (Some false) None (Some simple) None)
              (mkDef "element" false (Some true) None (Some complex) None)
  = Some "simple pure ==> complex mixed".
Proof.
  refine (proj1 (proj2 (X11_transition_iff_facts_differ
            (mkDef "element" false (Some false) None (Some simple) None)
            (mkDef "element" false (Some true) None (Some complex) None))) _ _);
    discriminate.
Defined.

Lemma merge_from_cons D x items st :
  merge_from D (x :: items) st =
  match TT.merge_step D x st with
  | Ok s => merge_from D items s
  | Raise e => Raise e
  end.
Proof.
  unfold merge_from. cbn [fold_left bind].
  destruct (TT.merge_step D x st); [reflexivity | apply tt_merge_raise].
Qed.

Lemma merge_step_cases D k odef bd ov :
  mem k D = true ->
  TT.merge_step D (k, odef) (bd, ov) =
  match lookup k bd with
  | None => Raise (KeyError k)
  | Some b =>
      Ok (match TT.transRep b odef with
          | Some _ => update k (fun _ => odef) bd
          | None => bd
          end, TT.set_override k (TT.transRep b odef) ov)
  end.
Proof. intros H. unfold TT.merge_step. rewrite H. reflexivity. Qed.

Lemma merge_step_keys D k odef bd ov bd' ov' :
  TT.merge_step D (k, odef) (bd, ov) = Ok (bd', ov') -> keys bd' = keys bd.
Proof.
  unfold TT.merge_step. destruct (mem k D); [| intros [= <- <-]; reflexivity].
  destruct (lookup k bd) as [b |]; [| discriminate].
  intros [= <- <-]. destruct (TT.transRep b odef); [apply keys_update | reflexivity].
Qed.

Lemma mem_keys d d' k : keys d = keys d' -> mem k d = mem k d'.
Proof.
  intros H. unfold mem.
  destruct (lookup k d) eqn:E1, (lookup k d') eqn:E2; try reflexivity.
  - assert (In k (keys d)) by (apply lookup_keys; congruence).
    rewrite H in *. apply lookup_keys in H0. contradiction.
  - assert (In k (keys d')) by (apply lookup_keys; congruence).
    rewrite <- H in *. apply lookup_keys in H0. contradiction.
Qed.

Lemma merge_from_succeeds D items :
  (forall x, In x items -> mem (fst x) D = true) ->
  forall bd ov,
    (exists r, merge_from D items (bd, ov) = Ok r)
    <-> (forall name, In name (keys items) -> mem name bd = true).
Proof.
  induction items as [| [k odef] items IH]; intros HD bd ov.
  - split; [intros _ name [] | intros _; eexists; reflexivity].
  - rewrite merge_from_cons, (merge_step_cases D k odef bd ov)
      by (apply (HD (k, odef)); left; reflexivity).
    assert (HD' : forall x, In x items -> mem (fst x) D = true)
      by (intros x Hx; apply HD; right; exact Hx).
    destruct (lookup k bd) as [b |] eqn:Hl.
    + rewrite (IH HD'). split.
      * intros H name [<- | Hin]; [cbn [fst]; unfold mem; rewrite Hl; reflexivity |].
        specialize (H name Hin).
        destruct (TT.transRep b odef); [rewrite mem_update in H |]; exact H.
      * intros H name Hin. specialize (H name (or_intror Hin)).
        destruct (TT.transRep b odef); [rewrite mem_update |]; exact H.
    + split; [intros (r & Hr); discriminate |].
      intros H. specialize (H k (or_introl eq_refl)).
      unfold mem in H. rewrite Hl in H. discriminate.
Qed.

Lemma merge_from_raises D items :
  forall bd ov e,
    merge_from D items (bd, ov) = Raise e ->
    exists name, e = KeyError name /\ In name (keys items) /\ mem name bd = false.
Proof.
  induction items as [| [k odef] items IH]; intros bd ov e H; [discriminate |].
  rewrite merge_from_cons in H.
  destruct (TT.merge_step D (k, odef) (bd, ov)) as [[bd1 ov1] | e1] eqn:E.
  - destruct (IH _ _ _ H) as (name & -> & Hin & Hm).
    exists name. split; [reflexivity |]. split; [right; exact Hin |].
    rewrite <- Hm. apply mem_keys. symmetry. eapply merge_step_keys. exact E.
  - injection H as <-. unfold TT.merge_step in E.
    destruct (mem k D); [| discriminate].
    destruct (lookup k bd) eqn:Hl; [discriminate |]. injection E as <-.
    exists k. split; [reflexivity |]. split; [left; reflexivity |].
    unfold mem. rewrite Hl. reflexivity.
Qed.

(** X12. The merge returns exactly when every name of the override table
    is a name of the base table; otherwise it raises the [KeyError] of an
    override name that the base table lacks. *)
Theorem X12_merge_returns_iff_override_names_are_base_names :
  forall definitions baseDefinitions,
    ((exists r, TT.merge definitions baseDefinitions = Ok r)
     <-> (forall name, In name (keys definitions) -> mem name baseDefinitions = true))
    /\ (forall e, TT.merge definitions baseDefinitions = Raise e ->
          exists name, e = KeyError name /\ In name (keys definitions)
                       /\ mem name baseDefinitions = false).
Proof.
  intros D bd. split.
  - apply (merge_from_succeeds D D). intros [k r] Hin.
    eapply tt_merge_guard_vacuous. exact Hin.
  - intros e H. eapply merge_from_raises. exact H.
Qed.

Lemma X12_merge_returns_iff_override_names_are_base_names_witness :
  exists r,
    TT.merge [("x", mkDef "element" false (Some true) None (Some complex) None)]
             [("x", mkDef "element" false (Some false) None (Some complex) None);
              ("y", mkDef "element" false (Some false) None None None)] = Ok r.
Proof.
  apply (proj1 (X12_merge_returns_iff_override_names_are_base_names _ _)).
  intros name [<- | []]. reflexivity.
Defined.

Lemma get_set_override_same k t ov :
  TT.get_override k (TT.set_override k t ov) = Some t.
Proof.
  induction ov as [| [k0 t0] ov IH]; simpl.
  - rewrite String.eqb_refl. reflexivity.
  - destruct (String.eqb_spec k0 k) as [-> | Hne]; simpl.
    + rewrite String.eqb_refl. reflexivity.
    + destruct (String.eqb_spec k0 k); [contradiction | exact IH].
Qed.

Lemma NoDup_lookup k r (d : table) :
  NoDup (keys d) -> In (k, r) d -> lookup k d = Some r.
Proof.
  induction d as [| [k0 r0] d IH]; simpl; [intros _ [] |].
  intros Hnd [[= -> ->] | Hin].
  - rewrite String.eqb_refl. reflexivity.
  - inversion Hnd as [| ? ? Hk Hd]; subst.
    destruct (String.eqb_spec k0 k) as [-> | Hne]; [| apply IH; assumption].
    exfalso. apply Hk. apply (in_map fst) in Hin. exact Hin.
Qed.

Lemma merge_from_spec D items :
  NoDup (keys items) ->
  (forall x, In x items -> mem (fst x) D = true) ->
  forall bd ov bd' ov',
    merge_from D items (bd, ov) = Ok (bd', ov') ->
    keys bd' = keys bd
    /\ (forall name, ~ In name (keys items) ->
          lookup name bd' = lookup name bd
          /\ TT.get_override name ov' = TT.get_override name ov)
    /\ (forall name odef, In (name, odef) items ->
          exists b, lookup name bd = Some b
                    /\ lookup name bd'
                       = Some (match TT.transRep b odef with
                               | Some _ => odef
                               | None => b
                               end)
                    /\ TT.get_override name ov' = Some (TT.transRep b odef)).
Proof.
  induction items as [| [k odef] items IH]; intros Hnd HD bd ov bd' ov' H.
  - injection H as <- <-. split; [reflexivity |]. split; [auto | intros ? ? []].
  - rewrite merge_from_cons, (merge_step_cases D k odef bd ov) in H
      by (apply (HD (k, odef)); left; reflexivity).
    destruct (lookup k bd) as [b |] eqn:Hl; [| discriminate].
    inversion Hnd as [| ? ? Hk Hnd']; subst.
    assert (HD' : forall x, In x items -> mem (fst x) D = true)
      by (intros x Hx; apply HD; right; exact Hx).
    destruct (IH Hnd' HD' _ _ _ _ H) as (Hkeys & Hout & Hin).
    set (bd1 := match TT.transRep b odef with
                | Some _ => update k (fun _ => odef) bd
                | None => bd
                end) in *.
    assert (Hk1 : keys bd1 = keys bd).
    { unfold bd1. destruct (TT.transRep b odef); [apply keys_update | reflexivity]. }
    assert (Hother : forall name, k <> name -> lookup name bd1 = lookup name bd).
    { intros name Hne. unfold bd1.
      destruct (TT.transRep b odef); [apply lookup_update_other; exact Hne | reflexivity]. }
    split; [congruence |]. split.
    + intros name Hn.
      assert (Hne : k <> name) by (intros ->; apply Hn; left; reflexivity).
      destruct (Hout name) as [H1 H2]; [intros Hi; apply Hn; right; exact Hi |].
      rewrite H1, H2, (Hother _ Hne), get_set_override_other by exact Hne. auto.
    + intros name odef' [[= <- <-] | Hi].
      * exists b. split; [exact Hl |].
        destruct (Hout k Hk) as [H1 H2]. rewrite H1, H2, get_set_override_same.
        split; [| reflexivity]. unfold bd1.
        destruct (TT.transRep b odef); [| exact Hl].
        rewrite lookup_update_same, Hl. reflexivity.
      * assert (Hne : k <> name).
        { intros ->. apply Hk. apply (in_map fst) in Hi. exact Hi. }
        destruct (Hin _ _ Hi) as (b' & Hb' & Hm & Ho).
        exists b'. rewrite <- (Hother _ Hne). auto.
Qed.

(** X13. When the merge returns, on an override table without a name
    twice: the merged table has the names of the base table in their order;
    a name of the override table carries the override's record if a
    transition is recorded for it and the base record otherwise, in both
    cases with the ["kind"] and ["mixed"] of the override; and [overrides]
    has the transition, or [None], of exactly the override names. *)
Theorem X13_merge_takes_the_facts_of_the_override :
  forall definitions baseDefinitions merged ov,
    NoDup (keys definitions) ->
    TT.merge definitions baseDefinitions = Ok (merged, ov) ->
    keys merged = keys baseDefinitions
    /\ (forall name odef, lookup name definitions = Some odef ->
          exists b r,
            lookup name baseDefinitions = Some b
            /\ lookup name merged = Some r
            /\ r = match TT.transRep b odef with
                   | Some _ => odef
                   | None => b
                   end
            /\ kind r = kind odef /\ mixed r = mixed odef
            /\ TT.get_override name ov = Some (TT.transRep b odef))
    /\ (forall name, lookup name definitions = None ->
          lookup name merged = lookup name baseDefinitions
          /\ TT.get_override name ov = None).
Proof.
  intros D bd merged ov Hnd H.
  assert (HD : forall x, In x D -> mem (fst x) D = true).
  { intros [k r] Hin. eapply tt_merge_guard_vacuous. exact Hin. }
  destruct (merge_from_spec D D Hnd HD bd [] merged ov H) as (Hkeys & Hout & Hin).
  split; [exact Hkeys |]. split.
  - intros name odef Hl. apply lookup_In in Hl.
    destruct (Hin _ _ Hl) as (b & Hb & Hm & Ho).
    exists b. eexists. split; [exact Hb |]. split; [exact Hm |].
    split; [reflexivity |].
    destruct (TT.transRep b odef) eqn:E.
    + split; [reflexivity |]. split; [reflexivity | exact Ho].
    + apply transRep_none_iff in E. destruct E as [E1 E2].
      split; [exact E1 |]. split; [exact E2 | exact Ho].
  - intros name Hl. apply Hout. intros Hi. apply lookup_keys in Hi. contradiction.
Qed.

Lemma X13_merge_takes_the_facts_of_the_override_witness :
  keys [("x", mkDef "element" false (Some true) None (Some complex) None);
        ("y", mkDef "element" false (Some false) None None None)]
  = ["x"; "y"].
Proof.
  apply (proj1 (X13_merge_takes_the_facts_of_the_override
                  [("x", mkDef "element" false (Some true) None (Some complex) None)]
                  [("x", mkDef "element" false (Some false) None (Some complex) None);
                   ("y", mkDef "element" false (Some false) None None None)]
                  _ [("x", Some "pure ==> mixed")]
                  ltac:(repeat constructor; simpl; intuition) eq_refl)).
Defined.

Lemma set_override_fresh k t ov :
  ~ In k (map fst ov) -> TT.set_override k t ov = ov ++ [(k, t)].
Proof.
  induction ov as [| [k0 t0] ov IH]; simpl; intros H; [reflexivity |].
  destruct (String.eqb_spec k0 k) as [-> | Hne]; [exfalso; apply H; auto |].
  rewrite IH; [reflexivity |]. intros Hi. apply H. right. exact Hi.
Qed.

Lemma transRep_same r : TT.transRep r r = None.
Proof. apply transRep_none_iff. split; reflexivity. Qed.

Lemma merge_from_self d :
  NoDup (keys d) ->
  forall items done, d = done ++ items ->
    merge_from d items (d, map identical done) = Ok (d, map identical d).
Proof.
  intros Hnd. induction items as [| [k r] items IH]; intros done Hd.
  - rewrite app_nil_r in Hd. subst done. reflexivity.
  - assert (Hin : In (k, r) d) by (rewrite Hd; apply in_elt).
    rewrite merge_from_cons, merge_step_cases
      by (eapply tt_merge_guard_vacuous; exact Hin).
    rewrite (NoDup_lookup _ _ _ Hnd Hin), transRep_same.
    rewrite set_override_fresh.
    + change [(k, @None string)] with (map identical [(k, r)]).
      rewrite <- map_app. apply IH. rewrite <- app_assoc. exact Hd.
    + rewrite map_map. simpl. fold (keys done).
      rewrite Hd in Hnd. unfold keys in Hnd. rewrite map_app in Hnd. simpl in Hnd.
      apply NoDup_remove_2 in Hnd. intros Hi. apply Hnd.
      apply in_or_app. left. exact Hi.
Qed.

Lemma merge_self d :
  NoDup (keys d) -> TT.merge d d = Ok (d, map identical d).
Proof. intros Hnd. exact (merge_from_self d Hnd d [] eq_refl). Qed.

Lemma resolved_NoDup root ext :
  extract root = Ok ext -> NoDup (keys (fst (fst (TT.resolve (fst ext))))).
Proof.
  destruct ext as [d c]. intros H.
  destruct (extract_well_formed _ _ _ H) as (Hnd & _). simpl in *.
  destruct (tt_resolve_spec d) as (d' & i & out & _ & -> & ((l & Hc & _) & _) & _).
  simpl. rewrite (change_keys _ _ _ Hc). exact Hnd.
Qed.

(** X14. With an override path, [Analysis] never compares two different
    schemas: when the base schema can be read, [interpret] returns, does not
    raise, gives the report it gives without an override, and records in
    [overrides] every name of the resolved base table without a transition,
    whatever file the override path names. *)
Theorem X14_an_override_changes_nothing :
  forall fs baseSchema override asTsv,
    TT.good (TT.init fs baseSchema (Some override)) = true ->
    exists rep tree ext,
      fs baseSchema = Some tree /\ extract tree = Ok ext
      /\ TT.interpret (TT.init fs baseSchema None) asTsv = Ok (rep, [])
      /\ TT.interpret (TT.init fs baseSchema (Some override)) asTsv
         = Ok (rep, map identical (fst (fst (TT.resolve (fst ext))))).
Proof.
  intros fs baseSchema override asTsv. unfold TT.init.
  destruct (fs baseSchema) as [tree |]; [| discriminate]. intros _.
  destruct (extract_ok tree) as (d & c & He & _).
  eexists _, tree, (d, c). split; [reflexivity |]. split; [exact He |].
  unfold TT.interpret. cbv beta iota. cbn [TT.root TT.oroot]. rewrite He.
  cbv beta iota zeta delta [bind].
  rewrite (merge_self _ (resolved_NoDup _ _ He)). cbn [fst snd].
  split; reflexivity.
Qed.

Lemma X14_an_override_changes_nothing_witness :
  exists rep tree ext,
    two_files "base.xsd" = Some tree /\ extract tree = Ok ext
    /\ TT.interpret (TT.init two_files "base.xsd" None) true = Ok (rep, [])
    /\ TT.interpret (TT.init two_files "base.xsd" (Some "override.xsd")) true
       = Ok (rep, map identical (fst (fst (TT.resolve (fst ext))))).
Proof.
  apply X14_an_override_changes_nothing. reflexivity.
Defined.

(** ** The command line *)

(** *** A console that refuses a print cuts the run short *)

Lemma cut_short_refl accepts {A : Type} (m : Main.io A) : cut_short accepts m m.
Proof. left. reflexivity. Qed.

Lemma cut_short_bind accepts {A B : Type} (m m0 : Main.io A)
  (k k0 : A -> Main.io B) :
  cut_short accepts m m0 -> (forall a, cut_short accepts (k a) (k0 a)) ->
  cut_short accepts (Main.io_bind m k) (Main.io_bind m0 k0).
Proof.
  intros [-> | (Hr & p & rest & Hp & Hout)] Hk.
  - unfold Main.io_bind. destruct m0 as [out [v | e]]; cbn [fst snd].
    + destruct (Hk v) as [-> | (Hr & p & rest & Hp & Hout)].
      * left. reflexivity.
      * right. cbn [fst snd]. split; [exact Hr |].
        exists p, rest. split; [exact Hp |].
        rewrite Hout, <- app_assoc. reflexivity.
    + left. reflexivity.
  - right. unfold Main.io_bind. rewrite Hr. cbn [fst snd].
    split; [reflexivity |].
    destruct (snd m0) as [v | e]; cbn [fst snd].
    + exists p, (rest ++ fst (k0 v)). split; [exact Hp |].
      rewrite Hout, <- app_assoc. reflexivity.
    + exists p, rest. split; [exact Hp | exact Hout].
Qed.

Lemma cut_short_print accepts p :
  cut_short accepts (Main.print accepts p) (Main.print willing p).
Proof.
  unfold Main.print, willing. destruct (accepts p) eqn:E.
  - left. reflexivity.
  - right. cbn [fst snd]. split; [reflexivity |].
    exists p, []. split; [exact E | reflexivity].
Qed.

Lemma cut_short_prints accepts l :
  cut_short accepts (Main.prints accepts l) (Main.prints willing l).
Proof.
  induction l as [| p l IH]; cbn [Main.prints]; [apply cut_short_refl |].
  apply cut_short_bind; [apply cut_short_print | intros _; exact IH].
Qed.

Ltac cut_steps :=
  repeat first
    [ apply cut_short_print
    | apply cut_short_prints
    | apply cut_short_bind; [| intros ?]
    | apply cut_short_refl ].

Lemma cut_short_interpret accepts A asTsv :
  cut_short accepts (Main.interpret accepts A asTsv)
    (Main.interpret willing A asTsv).
Proof.
  unfold Main.interpret. destruct (TT.root A) as [r |]; [| apply cut_short_refl].
  cbv zeta. destruct (TT.oroot A) as [o |]; cut_steps.
Qed.

Lemma cut_short_analyse accepts fs why baseSchema override :
  cut_short accepts (Main.analyse accepts fs why baseSchema override)
    (Main.analyse willing fs why baseSchema override).
Proof.
  unfold Main.analyse. cbv zeta.
  apply cut_short_bind; [apply cut_short_prints | intros _].
  destruct (negb (TT.good (TT.init fs baseSchema override)));
    [apply cut_short_refl |].
  apply cut_short_bind; [apply cut_short_interpret | intros r].
  destruct (str_truthy override); cut_steps.
Qed.

Lemma cut_short_main accepts myDir fs why argv :
  cut_short accepts (Main.main accepts myDir fs why argv)
    (Main.main willing myDir fs why argv).
Proof.
  unfold Main.main.
  destruct (Main.has "-h" argv || Main.has "--help" argv); [cut_steps |].
  destruct argv as [| task args]; [cut_steps |].
  destruct (Main.TASKS task) as [nParams |]; [| cut_steps].
  destruct (negb (existsb (Nat.eqb (length args)) nParams)); [cut_steps |].
  destruct ((task =? "tei") || (task =? "analyse")).
  - destruct (task =? "tei"); [apply cut_short_analyse |].
    destruct args as [| a args]; [apply cut_short_refl | apply cut_short_analyse].
  - apply cut_short_refl.
Qed.

Lemma cut_short_returns accepts {A : Type} (m m0 : Main.io A) v :
  cut_short accepts m m0 -> snd m = Main.Returns v -> m = m0.
Proof.
  intros [H | (Hr & _)] Hv; [exact H | congruence].
Qed.


Lemma cut_short_willing accepts {A : Type} (m m0 : Main.io A) :
  (forall p, accepts p = true) -> cut_short accepts m m0 -> m = m0.
Proof.
  intros Hall [H | (_ & p & rest & Hp & _)]; [exact H |].
  rewrite Hall in Hp. discriminate.
Qed.

(** *** The run on a console that takes every print *)

Lemma prints_willing l : Main.prints willing l = (l, Main.Returns tt).
Proof.
  induction l as [| p l IH]; [reflexivity |].
  cbn [Main.prints]. rewrite IH. reflexivity.
Qed.

Lemma io_bind_step {A B : Type} (m : Main.io A) (k : A -> Main.io B)
  out v out2 r :
  m = (out, Main.Returns v) -> k v = (out2, r) ->
  Main.io_bind m k = ((out ++ out2)%list, r).
Proof. intros -> H. unfold Main.io_bind. cbn [fst snd]. rewrite H. reflexivity. Qed.

Lemma io_bind_raises {A B : Type} (m : Main.io A) (k : A -> Main.io B) out e :
  m = (out, Main.Raises e) -> Main.io_bind m k = (out, Main.Raises e).
Proof. intros ->. reflexivity. Qed.

(** Runs a piece of the program on the console that takes every print, step
    by step. *)
Ltac run_io :=
  cbv beta iota zeta; cbn [fst snd];
  lazymatch goal with
  | |- Main.io_bind _ _ = _ => eapply io_bind_step; [run_io | run_io]
  | |- Main.prints willing _ = _ => apply prints_willing
  | |- Main.lift (TT.merge _ _) = _ => rewrite merge_self by assumption; reflexivity
  | |- _ => reflexivity
  end.

Lemma main_interpret_result A asTsv :
  snd (Main.interpret willing A asTsv)
  = match TT.interpret A asTsv with
    | Ok r => Main.Returns r
    | Raise e => Main.Raises (Main.Exn e)
    end.
Proof.
  unfold Main.interpret, TT.interpret.
  destruct (TT.root A) as [r |]; [| reflexivity].
  destruct (extract r) as [ext | e]; [| reflexivity].
  cbv beta iota zeta delta [bind].
  destruct (TT.oroot A) as [o |].
  - destruct (extract o) as [oext | e].
    + destruct (TT.merge (fst (fst (TT.resolve (fst oext))))
                  (fst (fst (TT.resolve (fst ext))))) as [m | e] eqn:Em.
      * erewrite io_bind_step; [reflexivity | reflexivity |].
        cbv beta. eapply io_bind_step; [apply prints_willing |].
        eapply io_bind_step; [| reflexivity].
        eapply io_bind_step; [reflexivity |]. cbv beta.
        eapply io_bind_step; [apply prints_willing |].
        rewrite Em. reflexivity.
      * erewrite io_bind_step; [reflexivity | reflexivity |].
        cbv beta. eapply io_bind_step; [apply prints_willing |].
        eapply io_bind_raises.
        eapply io_bind_step; [reflexivity |]. cbv beta.
        eapply io_bind_step; [apply prints_willing |].
        rewrite Em. reflexivity.
    + erewrite io_bind_step; [reflexivity | reflexivity |].
      cbv beta. eapply io_bind_step; [apply prints_willing |].
      eapply io_bind_raises. eapply io_bind_raises. reflexivity.
  - erewrite io_bind_step; [reflexivity | reflexivity |]. run_io.
Qed.

Lemma same_identical (d : table) : Main.same (map identical d) = length d.
Proof. induction d as [| [k r] d IH]; simpl; [reflexivity | now rewrite IH]. Qed.

Lemma changing_identical (d : table) : Main.changing (map identical d) = [].
Proof. induction d as [| [k r] d IH]; simpl; [reflexivity | exact IH]. Qed.

Lemma resolve_length d : length (fst (fst (TT.resolve d))) = length d.
Proof.
  destruct (tt_resolve_spec d) as (d' & i & out & _ & -> & ((l & Hc & _) & _) & _).
  simpl. exact (change_length _ _ _ Hc).
Qed.

Lemma analyse_readable fs why baseSchema override tree :
  fs baseSchema = Some tree ->
  exists d c,
    extract tree = Ok (d, c)
    /\ Main.analyse willing fs why baseSchema override
       = (analyse_output d override, Main.Returns (Main.Int 0)).
Proof.
  intros Hfs. destruct (extract_ok tree) as (d & c & He & _).
  exists d, c. split; [exact He |].
  pose proof (resolved_NoDup _ _ He) as Hnd. cbn [fst] in Hnd.
  pose proof (resolve_length d) as Hlen.
  unfold Main.analyse, analyse_output, Main.init_prints, TT.init.
  rewrite Hfs. unfold Main.interpret.
  destruct override as [o |]; cbn [TT.good TT.root TT.oroot negb str_truthy];
    rewrite He.
  - destruct (o =? ""); cbn [negb]; (etransitivity; [run_io |]);
      cbn [fst snd Main.len app];
      rewrite ?same_identical, ?changing_identical, ?length_map, ?Hlen,
        ?Nat.sub_diag;
      cbn [Main.sorted_pairs fold_right map app];
      rewrite ?map_app, ?app_nil_r, <- ?app_assoc; reflexivity.
  - (etransitivity; [run_io |]);
      cbn [fst snd Main.len app Main.changing Main.sorted_pairs fold_right map];
      rewrite ?app_nil_r, <- ?app_assoc; reflexivity.
Qed.

Lemma analyse_unreadable fs why baseSchema override :
  fs baseSchema = None ->
  Main.analyse willing fs why baseSchema override
  = ([Main.Line ("Could not read and parse " ++ baseSchema
                 ++ match override with
                    | Some _ => " or {override}"
                    | None => ""
                    end);
      Main.Line (why baseSchema)],
     Main.Returns (Main.Int 1)).
Proof.
  intros Hfs. unfold Main.analyse, Main.init_prints, TT.init. rewrite Hfs.
  reflexivity.
Qed.

Lemma analyse_status fs why baseSchema override :
  snd (Main.analyse willing fs why baseSchema override)
  = Main.Returns (Main.Int (match fs baseSchema with Some _ => 0 | None => 1 end)).
Proof.
  destruct (fs baseSchema) as [tree |] eqn:Hfs.
  - destruct (analyse_readable fs why baseSchema override tree Hfs)
      as (d & c & _ & ->). reflexivity.
  - rewrite (analyse_unreadable fs why baseSchema override Hfs). reflexivity.
Qed.

(** What [main] returns on a console that takes every print. *)
Lemma main_willing_status myDir fs why argv :
  (exists v, snd (Main.main willing myDir fs why argv) = Main.Returns v)
  /\ (help_asked argv = true ->
      Main.main willing myDir fs why argv
      = ([Main.Line Main.HELP], Main.Returns (Main.Int 0)))
  /\ (help_asked argv = false -> well_called argv = false ->
      snd (Main.main willing myDir fs why argv) = Main.Returns (Main.Int (-1))
      /\ exists msg,
          fst (Main.main willing myDir fs why argv)
          = [Main.Line Main.HELP; Main.Line msg])
  /\ (help_asked argv = false -> well_called argv = true ->
      match schema_of myDir argv with
      | Some baseSchema =>
          snd (Main.main willing myDir fs why argv)
          = Main.Returns
              (Main.Int (match fs baseSchema with Some _ => 0 | None => 1 end))
      | None =>
          fst (Main.main willing myDir fs why argv) = []
          /\ exists command,
              snd (Main.main willing myDir fs why argv)
              = Main.Returns (Main.CompletedProcess command)
      end).
Proof.
  unfold Main.main. fold (help_asked argv).
  destruct (help_asked argv) eqn:Hh.
  { split; [eexists; reflexivity |]. split; [reflexivity |].
    split; intros; discriminate. }
  destruct argv as [| task args].
  { split; [eexists; reflexivity |]. split; [discriminate |].
    split; [| discriminate]. intros _ _. split; [reflexivity |].
    eexists; reflexivity. }
  unfold well_called, schema_of, Main.TASKS.
  destruct (task =? "tei") eqn:Et.
  { destruct args as [| a [| b rest]]; cbn [length existsb Nat.eqb orb negb hd_error].
    - rewrite analyse_status. split; [eexists; reflexivity |].
      split; [discriminate |]. split; [discriminate |]. reflexivity.
    - rewrite analyse_status. split; [eexists; reflexivity |].
      split; [discriminate |]. split; [discriminate |]. reflexivity.
    - split; [eexists; reflexivity |]. split; [discriminate |].
      split; [| discriminate]. intros _ _. split; [reflexivity |].
      eexists; reflexivity. }
  destruct (task =? "analyse") eqn:Ea.
  { destruct args as [| a [| b rest]]; cbn [length existsb Nat.eqb orb negb hd_error].
    - split; [eexists; reflexivity |]. split; [discriminate |].
      split; [| discriminate]. intros _ _. split; [reflexivity |].
      eexists; reflexivity.
    - rewrite analyse_status. split; [eexists; reflexivity |].
      split; [discriminate |]. split; [discriminate |]. reflexivity.
    - split; [eexists; reflexivity |]. split; [discriminate |].
      split; [| discriminate]. intros _ _. split; [reflexivity |].
      eexists; reflexivity. }
  destruct (task =? "fromrelax") eqn:Ef.
  { destruct args as [| a [| b rest]]; cbn [length existsb Nat.eqb orb negb hd_error].
    - split; [eexists; reflexivity |]. split; [discriminate |].
      split; [| discriminate]. intros _ _. split; [reflexivity |].
      eexists; reflexivity.
    - split; [eexists; reflexivity |]. split; [discriminate |].
      split; [discriminate |]. intros _ _. split; [reflexivity |].
      eexists; reflexivity.
    - split; [eexists; reflexivity |]. split; [discriminate |].
      split; [| discriminate]. intros _ _. split; [reflexivity |].
      eexists; reflexivity. }
  split; [eexists; reflexivity |]. split; [discriminate |].
  split; [| discriminate]. intros _ _. split; [reflexivity |].
  eexists; reflexivity.
Qed.

(** X15. Of the exceptions that the analysis and [main] raise themselves
    (a [KeyError] of a name, an [AttributeError], the [IndexError] of
    [args[0]]) none ends a run of [main], whatever the arguments and the
    files: a run returns, or it ends with what a call of [print] raises.  On
    a console that takes every print it returns.  Whenever it returns, it has printed what it prints on such
    a console, and: with a help flag anywhere among the arguments it has
    printed the help text and returns 0; without a task, with an unknown
    task or with a number of arguments that the task does not accept it has
    printed the help text and one message and returns -1; for [tei] and
    [analyse] it returns 0 when the schema to analyse can be read and 1 when
    it cannot, whatever the schema holds; for [fromrelax] it has printed
    nothing and returns the process that [run] gives, not an integer. *)
Theorem X15_main_returns_a_status :
  forall accepts myDir fs why argv,
    ((exists v, snd (Main.main accepts myDir fs why argv) = Main.Returns v)
     \/ snd (Main.main accepts myDir fs why argv) = Main.Raises Main.PrintError)
    /\ ((forall p, accepts p = true) ->
        exists v, snd (Main.main accepts myDir fs why argv) = Main.Returns v)
    /\ (forall v,
          snd (Main.main accepts myDir fs why argv) = Main.Returns v ->
          Main.main accepts myDir fs why argv = Main.main willing myDir fs why argv
          /\ (help_asked argv = true ->
              v = Main.Int 0
              /\ fst (Main.main accepts myDir fs why argv) = [Main.Line Main.HELP])
          /\ (help_asked argv = false -> well_called argv = false ->
              v = Main.Int (-1)
              /\ exists msg,
                  fst (Main.main accepts myDir fs why argv)
                  = [Main.Line Main.HELP; Main.Line msg])
          /\ (help_asked argv = false -> well_called argv = true ->
              match schema_of myDir argv with
              | Some baseSchema =>
                  v = Main.Int (match fs baseSchema with Some _ => 0 | None => 1 end)
              | None =>
                  fst (Main.main accepts myDir fs why argv) = []
                  /\ exists command, v = Main.CompletedProcess command
              end)).
Proof.
  intros accepts myDir fs why argv.
  pose proof (cut_short_main accepts myDir fs why argv) as Hcut.
  destruct (main_willing_status myDir fs why argv) as ((v0 & Hv0) & Hhelp & Hbad & Hok).
  split; [| split].
  - destruct Hcut as [-> | (Hr & _)]; [left; exists v0; exact Hv0 | right; exact Hr].
  - intros Hall. rewrite (cut_short_willing _ _ _ Hall Hcut). exists v0. exact Hv0.
  - intros v Hv. pose proof (cut_short_returns _ _ _ _ Hcut Hv) as E.
    rewrite E in Hv |- *. split; [reflexivity |].
    split; [| split].
    + intros Hh. rewrite (Hhelp Hh) in Hv |- *. cbn [fst snd] in *.
      split; [congruence | reflexivity].
    + intros Hh Hw. destruct (Hbad Hh Hw) as (Hs & msg & Hm).
      split; [congruence | exists msg; exact Hm].
    + intros Hh Hw. specialize (Hok Hh Hw).
      destruct (schema_of myDir argv) as [b |].
      * congruence.
      * destruct Hok as (Hout & cmd & Hc). split; [exact Hout |].
        exists cmd. congruence.
Qed.

Lemma X15_main_returns_a_status_witness :
  (exists v,
      snd (Main.main willing "/pkg" two_files (fun _ => "No such file")
             ["tei"; "override.xsd"]) = Main.Returns v)
  /\ Main.Int 0
     = Main.Int (match two_files "base.xsd" with Some _ => 0 | None => 1 end).
Proof.
  split.
  - exact (proj1 (proj2
      (X15_main_returns_a_status willing "/pkg" two_files
         (fun _ => "No such file") ["tei"; "override.xsd"])) (fun _ => eq_refl)).
  - exact (proj2 (proj2 (proj2 (proj2 (proj2
      (X15_main_returns_a_status willing "/pkg" two_files
         (fun _ => "No such file") ["analyse"; "base.xsd"])) (Main.Int 0) eq_refl)))
      eq_refl eq_refl).
Defined.




Lemma main_zero myDir fs why argv out :
  help_asked argv = false ->
  Main.main willing myDir fs why argv = (out, Main.Returns (Main.Int 0)) ->
  exists baseSchema override tree,
    fs baseSchema = Some tree
    /\ Main.analyse willing fs why baseSchema override
       = (out, Main.Returns (Main.Int 0)).
Proof.
  intros Hh. unfold Main.main. fold (help_asked argv). rewrite Hh.
  assert (Hrun : forall baseSchema override,
             Main.analyse willing fs why baseSchema override
             = (out, Main.Returns (Main.Int 0)) ->
             exists baseSchema override tree,
               fs baseSchema = Some tree
               /\ Main.analyse willing fs why baseSchema override
                  = (out, Main.Returns (Main.Int 0))).
  { intros b o H. pose proof (analyse_status fs why b o) as Hs.
    rewrite H in Hs. cbn [snd] in Hs.
    destruct (fs b) as [tree |] eqn:Hfs; [| discriminate].
    exists b, o, tree. split; [exact Hfs | exact H]. }
  destruct argv as [| task args]; [discriminate |].
  unfold Main.TASKS.
  destruct (task =? "tei").
  { destruct args as [| a [| b rest]];
      cbn [length existsb Nat.eqb orb negb hd_error];
      [apply Hrun | apply Hrun | discriminate]. }
  destruct (task =? "analyse").
  { destruct args as [| a [| b rest]];
      cbn [length existsb Nat.eqb orb negb hd_error];
      [discriminate | apply Hrun | discriminate]. }
  destruct (task =? "fromrelax").
  { destruct args as [| a [| b rest]];
      cbn [length existsb Nat.eqb orb negb hd_error]; discriminate. }
  discriminate.
Qed.

Lemma length_append (a b : string) :
  String.length (a ++ b)%string = String.length a + String.length b.
Proof. induction a as [| c a IH]; simpl; [reflexivity | now rewrite IH]. Qed.

Lemma str_len_append (a b : string) :
  Main.str_len (a ++ b)%string = Main.str_len a + Main.str_len b.
Proof.
  induction a as [| c a IH]; cbn [append Main.str_len]; [reflexivity |].
  rewrite IH. lia.
Qed.

Lemma tsv_line_length x : 11 <= Main.str_len (TT.tsv_line x).
Proof.
  destruct x as [[name k] m]. unfold TT.tsv_line.
  rewrite !str_len_append.
  assert (Hk : 5 <= Main.str_len (TT.repKind k))
    by (destruct k as [[] |]; vm_compute; lia).
  assert (Hm : 4 <= Main.str_len (TT.repMixed m))
    by (destruct m as [[] |]; vm_compute; lia).
  assert (Ht : Main.str_len tab = 1) by reflexivity.
  rewrite Ht. lia.
Qed.

Lemma tsv_length defs :
  12 * length defs <= S (Main.str_len (TT.tsv defs)).
Proof.
  unfold TT.tsv. induction defs as [| x defs IH]; [simpl; lia |].
  pose proof (tsv_line_length x) as Hx.
  destruct defs as [| y defs].
  - cbn [map String.concat length]. lia.
  - change (String.concat newline (map TT.tsv_line (x :: y :: defs)))
      with (TT.tsv_line x ++ newline
            ++ String.concat newline (map TT.tsv_line (y :: defs)))%string.
    rewrite !str_len_append.
    assert (Hn : Main.str_len newline = 1) by reflexivity.
    rewrite Hn. cbn [length] in *. lia.
Qed.

(** X17. The figure that [main] prints as the number of elements defined is
    the number of characters of the report that it has just printed: at
    least 12 for each element, less one, so it is the number of elements
    only when there is none. *)
Theorem X17_elements_defined_counts_characters :
  forall accepts myDir fs why argv out,
    help_asked argv = false ->
    Main.main accepts myDir fs why argv = (out, Main.Returns (Main.Int 0)) ->
    exists defs,
      In (Main.Value (AsTsv (TT.tsv defs))) out
      /\ In (Main.Line ("!!!!!!!!!! "
                        ++ Main.right3 (Main.str_len (TT.tsv defs))
                        ++ " elements defined")%string) out
      /\ 12 * length defs <= S (Main.str_len (TT.tsv defs))
      /\ (Main.str_len (TT.tsv defs) = length defs <-> defs = []).
Proof.
  intros accepts myDir fs why argv out Hh Hm.
  pose proof (cut_short_main accepts myDir fs why argv) as Hcut.
  rewrite (cut_short_returns _ _ _ (Main.Int 0) Hcut) in Hm
    by (rewrite Hm; reflexivity).
  destruct (main_zero myDir fs why argv out Hh Hm) as (b & o & tree & Hfs & Ha).
  destruct (analyse_readable fs why b o tree Hfs) as (d & c & _ & Hout).
  rewrite Ha in Hout. injection Hout as ->.
  exists (report_defs (fst (fst (TT.resolve d)))).
  pose proof (tsv_length (report_defs (fst (fst (TT.resolve d))))) as Hlen.
  unfold analyse_output. split; [| split; [| split; [exact Hlen |]]].
  - apply in_or_app. right. left. reflexivity.
  - apply in_or_app. right. right. left. reflexivity.
  - split.
    + intros He. rewrite He in Hlen.
      destruct (report_defs (fst (fst (TT.resolve d)))); [reflexivity |].
      simpl in Hlen. lia.
    + intros ->. reflexivity.
Qed.

Lemma X17_elements_defined_counts_characters_witness :
  exists defs,
    In (Main.Value (AsTsv (TT.tsv defs)))
       (fst (Main.main willing "" two_files (fun _ => "") ["analyse"; "base.xsd"]))
    /\ In (Main.Line ("!!!!!!!!!! "
                      ++ Main.right3 (Main.str_len (TT.tsv defs))
                      ++ " elements defined")%string)
          (fst (Main.main willing "" two_files (fun _ => "") ["analyse"; "base.xsd"]))
    /\ 12 * length defs <= S (Main.str_len (TT.tsv defs))
    /\ (Main.str_len (TT.tsv defs) = length defs <-> defs = []).
Proof.
  apply (X17_elements_defined_counts_characters willing "" two_files (fun _ => "")
           ["analyse"; "base.xsd"]); reflexivity.
Defined.

Lemma append_nonempty_neq (a b : string) : b <> "" -> (a ++ b)%string <> a.
Proof.
  intros Hb H. apply (f_equal String.length) in H. rewrite length_append in H.
  destruct b; [congruence | simpl in H; lia].
Qed.

Lemma removesuffix_cases suffix s :
  Main.removesuffix suffix s = s
  \/ exists stem, s = (stem ++ suffix)%string /\ Main.removesuffix suffix s = stem.
Proof.
  induction s as [| c s IH]; [left; reflexivity |].
  cbn [Main.removesuffix].
  destruct (String.eqb_spec (String c s) suffix) as [He | Hne].
  - right. exists "". split; [exact He | reflexivity].
  - destruct IH as [IH | (stem & Hs & IH)].
    + left. now rewrite IH.
    + right. exists (String c stem). split; [simpl; now rewrite <- Hs | now rewrite IH].
Qed.

Lemma removesuffix_strips suffix stem :
  suffix <> "" -> Main.removesuffix suffix (stem ++ suffix) = stem.
Proof.
  intros Hs. induction stem as [| c stem IH].
  - destruct suffix as [| c suffix]; [congruence |].
    cbn [append Main.removesuffix]. now rewrite String.eqb_refl.
  - cbn [append Main.removesuffix].
    destruct (String.eqb_spec (String c (stem ++ suffix)) suffix) as [He | _].
    + exfalso. apply (f_equal String.length) in He. simpl in He.
      rewrite length_append in He. lia.
    + now rewrite IH.
Qed.

Lemma removesuffix_keeps suffix s :
  (forall stem, s <> (stem ++ suffix)%string) -> Main.removesuffix suffix s = s.
Proof.
  intros H. destruct (removesuffix_cases suffix s) as [E | (stem & Hs & _)];
    [exact E | destruct (H stem Hs)].
Qed.

Lemma string_app_assoc (a b c : string) :
  ((a ++ b) ++ c)%string = (a ++ (b ++ c))%string.
Proof. induction a as [| x a IH]; simpl; [reflexivity | now rewrite IH]. Qed.

Lemma append_inj_l (a b c : string) : (a ++ b)%string = (a ++ c)%string -> b = c.
Proof. induction a as [| x a IH]; simpl; intros H; [exact H | injection H as H; auto]. Qed.

(** X18. [fromrelax] writes to another file than the one it reads: the
    output path of the [trang] command is the schema path with a final
    [.rng] replaced by [.xsd], or with [.xsd] added when the path does not
    end in [.rng], and it is never the schema path itself.  No file is read
    and nothing is printed by [main]. *)
Theorem X18_fromrelax_names_another_file :
  forall accepts myDir fs why schemaFile,
    help_asked ["fromrelax"; schemaFile] = false ->
    exists schemaOut,
      Main.main accepts myDir fs why ["fromrelax"; schemaFile]
      = ([], Main.Returns
               (Main.CompletedProcess
                  ("java -jar " ++ myDir ++ "/trang/trang.jar " ++ schemaFile
                   ++ " " ++ schemaOut)))
      /\ schemaOut <> schemaFile
      /\ (forall stem, schemaFile = (stem ++ ".rng")%string ->
            schemaOut = (stem ++ ".xsd")%string)
      /\ ((forall stem, schemaFile <> (stem ++ ".rng")%string) ->
            schemaOut = (schemaFile ++ ".xsd")%string).
Proof.
  intros accepts myDir fs why schemaFile Hh.
  exists (Main.removesuffix ".rng" schemaFile ++ ".xsd")%string.
  split; [| split; [| split]].
  - unfold Main.main. fold (help_asked ["fromrelax"; schemaFile]). rewrite Hh.
    cbv beta iota zeta delta [Main.TASKS]. cbn.
    rewrite string_app_assoc. reflexivity.
  - destruct (removesuffix_cases ".rng" schemaFile) as [-> | (stem & -> & ->)].
    + apply append_nonempty_neq. discriminate.
    + intros H. apply append_inj_l in H. discriminate.
  - intros stem ->. rewrite removesuffix_strips; [reflexivity | discriminate].
  - intros H. rewrite removesuffix_keeps; [reflexivity | exact H].
Qed.

Lemma X18_fromrelax_names_another_file_witness :
  exists schemaOut,
    Main.main willing "/pkg" two_files (fun _ => "") ["fromrelax"; "tei.rng"]
    = ([], Main.Returns
             (Main.CompletedProcess
                ("java -jar " ++ "/pkg" ++ "/trang/trang.jar " ++ "tei.rng"
                 ++ " " ++ schemaOut)))
    /\ schemaOut <> "tei.rng"
    /\ (forall stem, "tei.rng" = (stem ++ ".rng")%string ->
          schemaOut = (stem ++ ".xsd")%string)
    /\ ((forall stem, "tei.rng" <> (stem ++ ".rng")%string) ->
          schemaOut = ("tei.rng" ++ ".xsd")%string).
Proof.
  apply (X18_fromrelax_names_another_file willing "/pkg" two_files (fun _ => "")
           "tei.rng").
  reflexivity.
Defined.

(** ** Where extraction writes facts *)

Lemma lookup_update_back s name f d r' :
  lookup name (update s f d) = Some r' ->
  exists r, lookup name d = Some r /\ r' = if s =? name then f r else r.
Proof.
  intros H. destruct (lookup name d) as [r |] eqn:E.
  - rewrite (lookup_update_cases s name f d r E) in H. injection H as <-.
    exists r. split; reflexivity.
  - rewrite (lookup_update_none s name f d E) in H. discriminate.
Qed.

Lemma setitem_facts S x f d d' :
  setitem x f d = Ok d' -> In x S -> facts_only_on S d -> facts_only_on S d'.
Proof.
  unfold setitem. destruct (mem x d); [| discriminate]. intros H Hx Hd.
  injection H as <-. intros name r' Hl Hf.
  destruct (lookup_update_back _ _ _ _ _ Hl) as (r & Hr & ->).
  destruct (String.eqb_spec x name) as [<- | _]; [exact Hx |].
  exact (Hd name r Hr Hf).
Qed.

Lemma enclosing_facts S n dn top d d' :
  enclosing n dn top d = Ok d' ->
  (forall x, dn = Some x -> x <> "" -> In x S) ->
  facts_only_on S d -> facts_only_on S d'.
Proof.
  unfold enclosing. intros H Hdn Hd.
  destruct dn as [x |]; [| injection H as <-; exact Hd].
  destruct (String.eqb_spec x "") as [-> | Hne]; cbn [negb] in H;
    [injection H as <-; exact Hd |].
  pose proof (Hdn x eq_refl Hne) as Hx.
  destruct top.
  - destruct (types (node_tag n)); [| injection H as <-; exact Hd].
    destruct (setitem x _ d) as [d1 | e] eqn:E1; [| discriminate].
    cbv beta iota delta [bind] in H.
    pose proof (setitem_facts S _ _ _ _ E1 Hx Hd) as H1.
    destruct (attr_true (node_get n "mixed")).
    + exact (setitem_facts S _ _ _ _ H Hx H1).
    + injection H as <-. exact H1.
  - destruct (node_tag n =? "extension"); [| injection H as <-; exact Hd].
    destruct (node_get n "base") as [b |]; [| injection H as <-; exact Hd].
    destruct (negb (b =? "")); [| injection H as <-; exact Hd].
    exact (setitem_facts S _ _ _ _ H Hx Hd).
Qed.

Lemma register_facts S n st :
  facts_only_on S (fst st) -> facts_only_on S (fst (register n st)).
Proof.
  destruct st as [d c]. unfold register. cbn [fst]. intros Hd.
  destruct (node_get n "name") as [name |]; [| exact Hd].
  destruct (negb (name =? "") && negb (notInteresting (node_tag n))); [| exact Hd].
  destruct (mem name d); [exact Hd |]. cbn [fst].
  intros k r Hl Hf. rewrite lookup_app in Hl.
  destruct (lookup k d) as [r0 |] eqn:E.
  - injection Hl as <-. exact (Hd k r0 E Hf).
  - simpl in Hl. destruct (name =? k); [| discriminate].
    injection Hl as <-. simpl in Hf. destruct Hf as [Hf | Hf]; congruence.
Qed.

Lemma visit_facts S n dn top st st' :
  visit n dn top st = Ok st' ->
  (forall x, dn = Some x -> x <> "" -> In x S) ->
  facts_only_on S (fst st) -> facts_only_on S (fst st').
Proof.
  unfold visit. intros H Hdn Hd.
  destruct (enclosing n dn top (fst st)) as [d1 | e] eqn:E; [| discriminate].
  cbv beta iota delta [bind] in H. injection H as <-.
  apply (register_facts S n (d1, snd st)). cbn [fst].
  exact (enclosing_facts S _ _ _ _ _ E Hdn Hd).
Qed.

Lemma findDefs_facts S n :
  forall dn top st st',
    findDefs n dn top st = Ok st' ->
    (forall x, dn = Some x -> x <> "" -> In x S) ->
    (str_truthy dn = false -> incl (definers n) S) ->
    facts_only_on S (fst st) -> facts_only_on S (fst st').
Proof.
  induction n as [t a cs IH] using node_induction.
  intros dn top st st' H Hdn Hsub Hst.
  rewrite findDefs_eq in H.
  destruct (visit (Node t a cs) dn top st) as [st1 | e] eqn:Ev; [| discriminate].
  cbv beta iota delta [bind] in H.
  pose proof (visit_facts S _ _ _ _ _ Ev Hdn Hst) as H1.
  assert (Hctx : forall x, fst (child_context (Node t a cs) dn) = Some x ->
                           x <> "" -> In x S).
  { unfold child_context. destruct (str_truthy dn) eqn:Ed; [exact Hdn |].
    specialize (Hsub eq_refl). cbn [definers] in Hsub.
    unfold child_context in Hsub. cbn [str_truthy] in Hsub.
    destruct (str_truthy (node_get (Node t a cs) "name")
              && (node_tag (Node t a cs) =? "element")); cbn [fst] in *.
    - intros x Hx _. rewrite Hx in Hsub. apply Hsub. left. reflexivity.
    - discriminate. }
  assert (Hkids : str_truthy (fst (child_context (Node t a cs) dn)) = false ->
                  Forall (fun ch => incl (definers ch) S) cs).
  { unfold child_context. destruct (str_truthy dn) eqn:Ed;
      [cbn [fst]; congruence |].
    specialize (Hsub eq_refl). cbn [definers] in Hsub.
    unfold child_context in Hsub. cbn [str_truthy] in Hsub.
    destruct (str_truthy (node_get (Node t a cs) "name")
              && (node_tag (Node t a cs) =? "element")) eqn:Ee; cbn [fst] in *.
    - apply andb_prop in Ee. destruct Ee as [Ee _]. congruence.
    - intros _. apply Forall_forall. intros ch Hch x Hx.
      apply Hsub. apply in_flat_map. exists ch. split; assumption. }
  revert H Hctx Hkids. generalize (fst (child_context (Node t a cs) dn)).
  generalize (snd (child_context (Node t a cs) dn)). intros top' dn' H Hctx Hkids.
  clear Ev Hst Hsub Hdn. revert st1 H1 H.
  induction IH as [| ch cs' Hch _ IHcs]; intros st1 H1 H.
  - injection H as <-. exact H1.
  - rewrite visit_children_cons in H.
    destruct (findDefs ch dn' top' st1) as [st2 | e] eqn:E;
      [| rewrite visit_children_raise in H; discriminate].
    apply (IHcs (fun Hf => Forall_inv_tail (Hkids Hf)) st2); [| exact H].
    apply (Hch dn' top' st1 st2 E Hctx); [| exact H1].
    intros Hf. exact (Forall_inv (Hkids Hf)).
Qed.

(** X19. Extraction writes ["kind"] and ["base"] only on the records of the
    element declarations that do not lie inside another element
    declaration: a record with a ["kind"] or a ["base"] has the name of such
    an element.  So a named type never has a ["kind"], and neither has a
    local element, unless a global element has the same name. *)
Theorem X19_only_global_elements_get_facts :
  forall root d c name r,
    extract root = Ok (d, c) ->
    lookup name d = Some r ->
    kind r <> None \/ base r <> None ->
    In name (definers root).
Proof.
  intros root d c name r H Hl Hf.
  refine (findDefs_facts (definers root) root None false ([], []) (d, c) H
            _ _ _ name r Hl Hf).
  - intros x Hx. discriminate.
  - intros _. apply incl_refl.
  - intros k r0 Hk. discriminate.
Qed.

Lemma X19_only_global_elements_get_facts_witness :
  In "outer" (definers nested_schema).
Proof.
  refine (X19_only_global_elements_get_facts nested_schema _ _ "outer"
            (mkDef "element" false (Some false) None (Some complex) None) _ _ _).
  - reflexivity.
  - reflexivity.
  - left. discriminate.
Defined.

(** ** The warning that is never printed *)








